(** * BoS: an in-memory key-value store with encrypted snapshots

    A shallow embedding of [main.go].

    - Data.  Go's [string] is an immutable byte sequence and is modelled by
      [string]; a [[]byte] slice is a mutable buffer and is modelled by
      [list byte]; the conversions [[]byte(s)] and [string(b)] are
      [bytes_of] and [string_of].  [int] is a 64-bit integer in [Z] with
      its wrap-around written out.  The maps are [gmap]s.
    - The store.  A method with receiver [k *kv] takes the state of the
      receiver and returns the new one.
    - Effects.  [saveToFile], [loadFromFile] and [handle] run in a monad
      over the state of the process: the store, the files, the entropy
      that [crypto/rand] will deliver, the sensitive buffers of the running
      call and the calls made into the cryptographic code.  A call ends
      with a value, a returned error or a panic.
    - Libraries.  HMAC-SHA512 and AES-GCM are parameters; what is needed of
      them is stated where it is used.  [unicode/utf8], [strings],
      [encoding/json] at type [map[string]string], and the calls of [os]
      are modelled from their documented behaviour. *)

From Stdlib Require Import ZArith Ascii String List Lia Bool.
From stdpp Require Import gmap strings list fin_maps.

Local Open Scope string_scope.
Local Open Scope list_scope.
Local Open Scope nat_scope.

(** ** Bytes and buffers *)

Abbreviation byte := ascii.

Definition zero_byte : byte := Ascii.zero.

(** [[]byte(s)] and [string(b)]. *)
Definition bytes_of (s : string) : list byte := list_ascii_of_string s.
Definition string_of (b : list byte) : string := string_of_list_ascii b.

(** [func zero(b []byte)]: [for i := range b { b[i] = 0 }]. *)
Definition zero (b : list byte) : list byte :=
  foldl (fun buf i => <[i := zero_byte]> buf) b (seq 0 (length b)).

(** ** The store: [type kv struct { mu sync.RWMutex; data map[string][]byte }]

    The lock only serialises the methods; each method body is modelled as
    one atomic transition of [data]. *)

Record kv := KV { data : gmap string (list byte) }.

Definition newKV : kv := KV ∅.

Definition set (k : kv) (key val : string) : kv :=
  KV (<[key := bytes_of val]> (data k)).

(** [v, ok := k.data[key]; return string(v), ok]: an absent key gives the
    nil slice, whose conversion is the empty string. *)
Definition get (k : kv) (key : string) : string * bool :=
  match data k !! key with
  | Some v => (string_of v, true)
  | None => (string_of [], false)
  end.

(** [del]: [zero(v)] writes through the slice stored in the map, then the
    entry is deleted. *)
Definition del (k : kv) (key : string) : bool * kv :=
  match data k !! key with
  | None => (false, k)
  | Some v => (true, KV (delete key (<[key := zero v]> (data k))))
  end.

(** [snapshot]: a fresh [map[string]string] filled by ranging over [data]. *)
Definition snapshot (k : kv) : gmap string string :=
  map_fold (fun key v out => <[key := string_of v]> out) ∅ (data k).

(** [replace]: the first loop zeroes and deletes every entry it visits, the
    second installs the entries of [inp] (a nil map ranges over nothing). *)
Definition replace (k : kv) (inp : gmap string string) : kv :=
  let cleared :=
    map_fold (fun key v d => delete key (<[key := zero v]> d)) (data k) (data k) in
  KV (map_fold (fun key val d => <[key := bytes_of val]> d) cleared inp).

(** Histories of writes, to state what [get] observes.  The store is
    written by [set], by [del] and by [replace], which every successful
    [loadFromFile] runs. *)
Inductive op :=
| OpSet (key val : string)
| OpDel (key : string)
| OpReplace (inp : gmap string string).

Definition apply_op (k : kv) (o : op) : kv :=
  match o with
  | OpSet key val => set k key val
  | OpDel key => (del k key).2
  | OpReplace inp => replace k inp
  end.

Definition run (ops : list op) (k : kv) : kv := foldl apply_op k ops.

(** The most recent write to [K], newest operation first: [Some v] when it
    is a [set] of [v] or a [replace] whose map holds [v] for [K]; [None]
    when it is a [del] or a [replace] whose map does not hold [K], or there
    is none. *)
Fixpoint latest (K : string) (newest_first : list op) : option string :=
  match newest_first with
  | [] => None
  | OpSet key val :: older => if decide (key = K) then Some val else latest K older
  | OpDel key :: older => if decide (key = K) then None else latest K older
  | OpReplace inp :: _ => inp !! K
  end.

Definition most_recent (K : string) (ops : list op) : option string :=
  latest K (rev ops).

(** The same counting [set] and [del] only: the value most recently set
    for [K], [None] if [K] was never set or was deleted since. *)
Fixpoint latest_set (K : string) (newest_first : list op) : option string :=
  match newest_first with
  | [] => None
  | OpSet key val :: older =>
    if decide (key = K) then Some val else latest_set K older
  | OpDel key :: older => if decide (key = K) then None else latest_set K older
  | OpReplace _ :: older => latest_set K older
  end.

Definition most_recently_set (K : string) (ops : list op) : option string :=
  latest_set K (rev ops).

Definition is_replace (o : op) : bool :=
  match o with OpReplace _ => true | _ => false end.

(** ** Machine integers and bytes

    Go's [int] is 64 bits wide on the platforms the server targets;
    arithmetic wraps around in two's complement and [/] truncates. *)

Definition int_wrap (z : Z) : Z := (z + 2 ^ 63) mod 2 ^ 64 - 2 ^ 63.
Definition int_add (a b : Z) : Z := int_wrap (a + b).
Definition int_sub (a b : Z) : Z := int_wrap (a - b).
Definition int_div (a b : Z) : Z := int_wrap (Z.quot a b).

Definition b2z (b : byte) : Z := Z.of_N (N_of_ascii b).

(** The conversion [byte(x)] keeps the low eight bits. *)
Definition byte_of_int (x : Z) : byte := ascii_of_N (Z.to_N (Z.land x 255)).

(** [x ^ y] on bytes. *)
Definition byte_xor (x y : byte) : byte :=
  byte_of_int (Z.lxor (b2z x) (b2z y)).

(** The double quote (34), the backslash (92) and the control characters
    that have a short escape. *)
Definition ch_quote : byte := "034"%char.
Definition ch_backslash : byte := "092"%char.
Definition ch_bs : byte := "008"%char.
Definition ch_tab : byte := "009"%char.
Definition ch_nl : byte := "010"%char.
Definition ch_ff : byte := "012"%char.
Definition ch_cr : byte := "013"%char.

(** ** Package [unicode/utf8] *)

Definition RuneError : Z := 65533.

Definition in_range (lo hi : Z) (b : byte) : bool :=
  (lo <=? b2z b)%Z && (b2z b <=? hi)%Z.

Definition cont_bits (b : byte) : Z := Z.land (b2z b) 63.

(** [utf8.DecodeRune]: the first rune of [p] and its width; an invalid or
    truncated encoding is [(RuneError, 1)], the empty input
    [(RuneError, 0)].  The second byte's accepted range depends on the
    first (no overlong forms, no surrogates, nothing above U+10FFFF). *)
Definition DecodeRune (p : list byte) : Z * nat :=
  match p with
  | [] => (RuneError, 0)
  | b0 :: rest =>
    let x := b2z b0 in
    if (x <? 128)%Z then (x, 1)
    else if (x <? 194)%Z || (244 <? x)%Z then (RuneError, 1)
    else if (x <? 224)%Z then
      match rest with
      | b1 :: _ =>
        if in_range 128 191 b1
        then (Z.lor (Z.shiftl (Z.land x 31) 6) (cont_bits b1), 2)
        else (RuneError, 1)
      | _ => (RuneError, 1)
      end
    else if (x <? 240)%Z then
      let lo := if (x =? 224)%Z then 160%Z else 128%Z in
      let hi := if (x =? 237)%Z then 159%Z else 191%Z in
      match rest with
      | b1 :: b2 :: _ =>
        if in_range lo hi b1 && in_range 128 191 b2
        then (Z.lor (Z.shiftl (Z.land x 15) 12)
                (Z.lor (Z.shiftl (cont_bits b1) 6) (cont_bits b2)), 3)
        else (RuneError, 1)
      | _ => (RuneError, 1)
      end
    else
      let lo := if (x =? 240)%Z then 144%Z else 128%Z in
      let hi := if (x =? 244)%Z then 143%Z else 191%Z in
      match rest with
      | b1 :: b2 :: b3 :: _ =>
        if in_range lo hi b1 && in_range 128 191 b2 && in_range 128 191 b3
        then (Z.lor (Z.shiftl (Z.land x 7) 18)
                (Z.lor (Z.shiftl (cont_bits b1) 12)
                   (Z.lor (Z.shiftl (cont_bits b2) 6) (cont_bits b3))), 4)
        else (RuneError, 1)
      | _ => (RuneError, 1)
      end
  end.

(** [utf8.EncodeRune] (also what [WriteRune] appends): surrogates and
    values outside Unicode are written as U+FFFD. *)
Definition EncodeRune (r : Z) : list byte :=
  let tail (n : Z) := byte_of_int (Z.lor 128 (Z.land (Z.shiftr r n) 63)) in
  if (r <? 0)%Z || (1114111 <? r)%Z || ((55296 <=? r)%Z && (r <=? 57343)%Z)
  then [byte_of_int 239; byte_of_int 191; byte_of_int 189]
  else if (r <=? 127)%Z then [byte_of_int r]
  else if (r <=? 2047)%Z then [byte_of_int (Z.lor 192 (Z.shiftr r 6)); tail 0%Z]
  else if (r <=? 65535)%Z then
    [byte_of_int (Z.lor 224 (Z.shiftr r 12)); tail 6%Z; tail 0%Z]
  else [byte_of_int (Z.lor 240 (Z.shiftr r 18)); tail 12%Z; tail 6%Z; tail 0%Z].

(** [for _, r := range s]: the runes of a string, each with the bytes it
    was decoded from.  Every step consumes at least one byte, so the length
    of the input is enough fuel. *)
Fixpoint runes_from (fuel : nat) (p : list byte) : list (Z * list byte) :=
  match fuel, p with
  | S fuel', _ :: _ =>
    let '(r, n) := DecodeRune p in
    (r, take n p) :: runes_from fuel' (drop n p)
  | _, _ => []
  end.

Definition runes (s : string) : list (Z * list byte) :=
  runes_from (length (bytes_of s)) (bytes_of s).

(** ** Packages [unicode] and [strings] *)

(** [unicode.IsSpace]: the Latin-1 cases, then the White_Space table. *)
Definition unicode_IsSpace (r : Z) : bool :=
  if (r <=? 255)%Z
  then ((9 <=? r)%Z && (r <=? 13)%Z) || (r =? 32)%Z || (r =? 133)%Z || (r =? 160)%Z
  else (r =? 5760)%Z || ((8192 <=? r)%Z && (r <=? 8202)%Z) || (r =? 8232)%Z
       || (r =? 8233)%Z || (r =? 8239)%Z || (r =? 8287)%Z || (r =? 12288)%Z.

Definition is_space (x : Z * list byte) : bool := unicode_IsSpace x.1.

Fixpoint drop_spaces (rs : list (Z * list byte)) : list (Z * list byte) :=
  match rs with
  | x :: rest => if is_space x then drop_spaces rest else rs
  | [] => []
  end.

Definition join_runes (rs : list (Z * list byte)) : string :=
  string_of (concat (map snd rs)).

(** [strings.TrimSpace]: leading and trailing white space removed. *)
Definition TrimSpace (s : string) : string :=
  join_runes (rev (drop_spaces (rev (drop_spaces (runes s))))).

(** [strings.Fields] is [FieldsFunc(s, unicode.IsSpace)]: [cur] is the
    field being read, if any; a space closes it. *)
Fixpoint fields_from (rs : list (Z * list byte)) (cur : option (list byte))
  : list (list byte) :=
  match rs with
  | [] => match cur with Some w => [w] | None => [] end
  | x :: rest =>
    if is_space x
    then match cur with
         | Some w => w :: fields_from rest None
         | None => fields_from rest None
         end
    else fields_from rest (Some (default [] cur ++ x.2))
  end.

Definition Fields (s : string) : list string :=
  map string_of (fields_from (runes s) None).

(** [strings.Join]. *)
Fixpoint Join (elems : list string) (sep : string) : string :=
  match elems with
  | [] => ""
  | [e] => e
  | e :: rest => (e ++ sep ++ Join rest sep)%string
  end.

(** ** Package [encoding/json], at type [map[string]string] *)

Definition hex_digit (n : Z) : byte :=
  nth (Z.to_nat n) (bytes_of "0123456789abcdef") zero_byte.

(** [htmlSafeSet]: printable ASCII except the double quote, the backslash
    and the characters [<], [>] and [&]. *)
Definition htmlSafe (b : byte) : bool :=
  let x := b2z b in
  (32 <=? x)%Z && negb ((x =? 34)%Z || (x =? 92)%Z || (x =? 60)%Z
                        || (x =? 62)%Z || (x =? 38)%Z).

(** The escape of an ASCII byte outside [htmlSafeSet].  (Releases of Go
    before 1.22 write backspace and form feed as [\u0008] and [\u000c];
    both spellings decode to the same byte.) *)
Definition escape_ascii (b : byte) : list byte :=
  let x := b2z b in
  if (x =? 92)%Z || (x =? 34)%Z then [ch_backslash; b]
  else if (x =? 8)%Z then bytes_of "\b"
  else if (x =? 12)%Z then bytes_of "\f"
  else if (x =? 10)%Z then bytes_of "\n"
  else if (x =? 13)%Z then bytes_of "\r"
  else if (x =? 9)%Z then bytes_of "\t"
  else bytes_of "\u00" ++ [hex_digit (Z.shiftr x 4); hex_digit (Z.land x 15)].

(** The loop of [appendString] with [escapeHTML] set: safe ASCII and
    well-formed runes are copied, a byte that is not part of a well-formed
    rune is written as the escape of U+FFFD, and U+2028 and U+2029 are
    escaped.  (Later releases of Go write U+FFFD itself, in three bytes,
    where earlier ones write its escape; the decoder reads both as
    U+FFFD.) *)
Fixpoint escape_from (fuel : nat) (src : list byte) : list byte :=
  match fuel, src with
  | S fuel', b :: rest =>
    if (b2z b <? 128)%Z
    then (if htmlSafe b then [b] else escape_ascii b) ++ escape_from fuel' rest
    else
      let '(c, size) := DecodeRune (take 4 src) in
      if (c =? RuneError)%Z && (size =? 1)%nat
      then ch_backslash :: bytes_of "ufffd" ++ escape_from fuel' (drop size src)
      else if (c =? 8232)%Z || (c =? 8233)%Z
      then bytes_of "\u202" ++ [hex_digit (Z.land c 15)]
           ++ escape_from fuel' (drop size src)
      else take size src ++ escape_from fuel' (drop size src)
  | _, _ => []
  end.

Definition appendString (s : string) : list byte :=
  [ch_quote] ++ escape_from (length (bytes_of s)) (bytes_of s) ++ [ch_quote].

(** Map keys are written in increasing byte order. *)
Fixpoint insert_by_key (x : string * string) (l : list (string * string))
  : list (string * string) :=
  match l with
  | [] => [x]
  | y :: l' => if String.leb x.1 y.1 then x :: l else y :: insert_by_key x l'
  end.

Definition sort_by_key (l : list (string * string)) : list (string * string) :=
  foldr insert_by_key [] l.

Definition encode_member (kv : string * string) : list byte :=
  appendString kv.1 ++ bytes_of ":" ++ appendString kv.2.

Fixpoint join_members (l : list (list byte)) : list byte :=
  match l with
  | [] => []
  | [x] => x
  | x :: rest => x ++ bytes_of "," ++ join_members rest
  end.

(** [json.Marshal] of a non-nil [map[string]string]; it has no failing
    case at this type. *)
Definition json_Marshal (m : gmap string string) : list byte :=
  bytes_of "{" ++ join_members (map encode_member (sort_by_key (map_to_list m)))
  ++ bytes_of "}".

(** Decoding.  White space is space, tab, carriage return and newline. *)
Definition json_space (b : byte) : bool :=
  let x := b2z b in (x =? 32)%Z || (x =? 9)%Z || (x =? 13)%Z || (x =? 10)%Z.

Fixpoint skip_ws (p : list byte) : list byte :=
  match p with
  | b :: rest => if json_space b then skip_ws rest else p
  | [] => []
  end.

Definition hex_val (b : byte) : option Z :=
  let x := b2z b in
  if (48 <=? x)%Z && (x <=? 57)%Z then Some (x - 48)%Z
  else if (97 <=? x)%Z && (x <=? 102)%Z then Some (x - 87)%Z
  else if (65 <=? x)%Z && (x <=? 70)%Z then Some (x - 55)%Z
  else None.

(** [getu4]: the code unit of an escape [\uXXXX] at the head of [p]. *)
Definition getu4 (p : list byte) : option Z :=
  match p with
  | e :: u :: h1 :: h2 :: h3 :: h4 :: _ =>
    if (b2z e =? 92)%Z && (b2z u =? 117)%Z then
      a ← hex_val h1; b ← hex_val h2; c ← hex_val h3; d ← hex_val h4;
      Some (((a * 16 + b) * 16 + c) * 16 + d)%Z
    else None
  | _ => None
  end.

Definition IsSurrogate (r : Z) : bool := (55296 <=? r)%Z && (r <? 57344)%Z.

(** [utf16.DecodeRune], [None] where Go returns U+FFFD. *)
Definition utf16_pair (r1 r2 : Z) : option Z :=
  if (55296 <=? r1)%Z && (r1 <? 56320)%Z && (56320 <=? r2)%Z && (r2 <? 57344)%Z
  then Some (Z.lor (Z.shiftl (r1 - 55296) 10) (r2 - 56320) + 65536)%Z
  else None.

(** The byte an escape letter stands for. *)
Definition simple_escape (e : byte) : option byte :=
  let x := b2z e in
  if (x =? 34)%Z || (x =? 92)%Z || (x =? 47)%Z then Some e
  else if (x =? 98)%Z then Some ch_bs
  else if (x =? 102)%Z then Some ch_ff
  else if (x =? 110)%Z then Some ch_nl
  else if (x =? 114)%Z then Some ch_cr
  else if (x =? 116)%Z then Some ch_tab
  else None.

(** A string literal, read from just after its opening quote: the decoded
    bytes and the input after the closing quote.  Unescaped control
    characters are refused; bytes that are not well-formed UTF-8 and
    unpaired surrogate escapes become U+FFFD. *)
Fixpoint unquote_from (fuel : nat) (p : list byte)
  : option (list byte * list byte) :=
  match fuel, p with
  | S fuel', c :: rest =>
    let x := b2z c in
    if (x =? 34)%Z then Some ([], rest)
    else if (x =? 92)%Z then
      match rest with
      | e :: rest' =>
        if (b2z e =? 117)%Z then
          rr ← getu4 p;
          let after := drop 6 p in
          if IsSurrogate rr then
            match getu4 after ≫= utf16_pair rr with
            | Some dec =>
              '(out, tl) ← unquote_from fuel' (drop 6 after);
              Some (EncodeRune dec ++ out, tl)
            | None =>
              '(out, tl) ← unquote_from fuel' after;
              Some (EncodeRune RuneError ++ out, tl)
            end
          else
            '(out, tl) ← unquote_from fuel' after;
            Some (EncodeRune rr ++ out, tl)
        else
          b ← simple_escape e;
          '(out, tl) ← unquote_from fuel' rest';
          Some (b :: out, tl)
      | [] => None
      end
    else if (x <? 32)%Z then None
    else if (x <? 128)%Z then
      '(out, tl) ← unquote_from fuel' rest;
      Some (c :: out, tl)
    else
      let '(rr, size) := DecodeRune p in
      '(out, tl) ← unquote_from fuel' (drop size p);
      Some (EncodeRune rr ++ out, tl)
  | _, _ => None
  end.

(** A member's value: a string, or [null], which leaves the zero value.
    Any other value is a type error (or the text is not JSON at all). *)
Definition parse_element (p : list byte) : option (string * list byte) :=
  match p with
  | c :: rest =>
    if (b2z c =? 34)%Z then
      '(v, tl) ← unquote_from (length rest) rest; Some (string_of v, tl)
    else if decide (take 4 p = bytes_of "null") then Some ("", drop 4 p)
    else None
  | [] => None
  end.

(** The members of an object, from the opening quote of a key up to the
    closing brace; a repeated key overwrites. *)
Fixpoint members_from (fuel : nat) (p : list byte) (m : gmap string string)
  : option (gmap string string * list byte) :=
  match fuel, p with
  | S fuel', c :: rest =>
    if (b2z c =? 34)%Z then
      '(k, p1) ← unquote_from (length rest) rest;
      match skip_ws p1 with
      | colon :: p2 =>
        if (b2z colon =? 58)%Z then
          '(v, p3) ← parse_element (skip_ws p2);
          let m' := <[string_of k := v]> m in
          match skip_ws p3 with
          | d :: p4 =>
            if (b2z d =? 44)%Z then members_from fuel' (skip_ws p4) m'
            else if (b2z d =? 125)%Z then Some (m', p4)
            else None
          | [] => None
          end
        else None
      | [] => None
      end
    else None
  | _, _ => None
  end.

(** [json.Unmarshal(pt, &m)] for a nil [m]: the decoded map, [None] on any
    error.  The text [null] leaves [m] nil, which ranges like the empty
    map. *)
Definition json_Unmarshal (p : list byte) : option (gmap string string) :=
  let p0 := skip_ws p in
  match p0 with
  | c :: p1 =>
    if (b2z c =? 123)%Z then
      match skip_ws p1 with
      | d :: p2 =>
        if (b2z d =? 125)%Z
        then (if decide (skip_ws p2 = []) then Some ∅ else None)
        else
          '(m, tl) ← members_from (length p1) (skip_ws p1) ∅;
          if decide (skip_ws tl = []) then Some m else None
      | [] => None
      end
    else if decide (take 4 p0 = bytes_of "null")
    then (if decide (skip_ws (drop 4 p0) = []) then Some ∅ else None)
    else None
  | [] => None
  end.

(** ** Errors, files and the state of the process *)

Inductive error :=
| ErrIO (path : string)   (* an error of package os *)
| ErrRand                 (* crypto/rand could not fill the buffer *)
| ErrInvalidFile          (* the error loadFromFile makes itself *)
| ErrKeySize (n : nat)    (* aes.KeySizeError *)
| ErrAuth                 (* cipher: message authentication failed *)
| ErrJSON.                (* a syntax or type error of encoding/json *)

(** How a call ends: a value, a returned error, or a run-time panic. *)
Inductive result (A : Type) :=
| Ok (a : A)
| Err (e : error)
| Panic.
Arguments Ok {A} a.
Arguments Err {A} e.
Arguments Panic {A}.

Inductive node :=
| File (content : list byte)
| Dir.

(** Calls into the cryptographic code, in the order they are made. *)
Inductive event :=
| CallDeriveKey (pass salt : list byte)
| CallSeal (key nonce plaintext : list byte)
| CallOpen (key nonce ciphertext : list byte).

(** [store] is the [*kv] the functions are given; [files] and [free] are
    the file system and the bytes left on its device; [entropy] is what
    [crypto/rand] will deliver; [frame] holds the sensitive local buffers
    of the running call ([blob], [key], [pt]) by name. *)
Record machine := Machine {
  store : kv;
  files : gmap string node;
  free : nat;
  entropy : list byte;
  frame : gmap string (list byte);
  trace : list event }.

Definition with_store (f : kv -> kv) (m : machine) : machine :=
  Machine (f (store m)) (files m) (free m) (entropy m) (frame m) (trace m).
Definition with_files (fs : gmap string node) (n : nat) (m : machine) : machine :=
  Machine (store m) fs n (entropy m) (frame m) (trace m).
Definition with_entropy (e : list byte) (m : machine) : machine :=
  Machine (store m) (files m) (free m) e (frame m) (trace m).
Definition with_frame (f : gmap string (list byte)) (m : machine) : machine :=
  Machine (store m) (files m) (free m) (entropy m) f (trace m).
Definition with_trace (t : list event) (m : machine) : machine :=
  Machine (store m) (files m) (free m) (entropy m) (frame m) t.

(** The monad of the process: state, with early exit on an error return or
    a panic. *)
Definition M (A : Type) : Type := machine -> result A * machine.

Definition ret {A} (a : A) : M A := fun m => (Ok a, m).

Definition bind {A B} (c : M A) (k : A -> M B) : M B := fun m =>
  match c m with
  | (Ok a, m') => k a m'
  | (Err e, m') => (Err e, m')
  | (Panic, m') => (Panic, m')
  end.

Notation "'do' x <- c ; k" := (bind c (fun x => k))
  (at level 10, x name, c at level 100, k at level 200).
Notation "'do' ! c ; k" := (bind c (fun _ => k))
  (at level 10, c at level 100, k at level 200).

Definition throw {A} (e : error) : M A := fun m => (Err e, m).
Definition lift {A} (r : result A) : M A := fun m => (r, m).
Definition or_panic {A} (o : option A) : M A :=
  fun m => match o with Some a => (Ok a, m) | None => (Panic, m) end.
Definition or_err {A} (e : error) (o : option A) : M A :=
  fun m => match o with Some a => (Ok a, m) | None => (Err e, m) end.
Definition emit (e : event) : M unit :=
  fun m => (Ok tt, with_trace (trace m ++ [e]) m).
Definition get_store : M kv := fun m => (Ok (store m), m).
Definition modify_store (f : kv -> kv) : M unit :=
  fun m => (Ok tt, with_store f m).

(** A local buffer comes into being, and [zero] is run on one. *)
Definition local (name : string) (b : list byte) : M unit :=
  fun m => (Ok tt, with_frame (<[name := b]> (frame m)) m).
Definition zero_local (name : string) : M unit := fun m =>
  match frame m !! name with
  | Some b => (Ok tt, with_frame (<[name := zero b]> (frame m)) m)
  | None => (Ok tt, m)
  end.

(** ** Packages [os] and [crypto/rand] *)

(** [os.ReadFile]: only a regular file can be read. *)
Definition os_ReadFile (path : string) : M (list byte) := fun m =>
  match files m !! path with
  | Some (File content) => (Ok content, m)
  | _ => (Err (ErrIO path), m)
  end.

(** [os.OpenFile(file, O_CREATE|O_WRONLY|O_TRUNC, 0600)]: a directory cannot
    be opened for writing; an existing file is emptied, which gives its
    bytes back to the device.  The handle is the path.  The file system is
    one flat name space in which a path that names nothing can be created:
    the failures of the call on a missing parent directory, on an empty
    path and for want of permission are outside this model. *)
Definition os_OpenFile (path : string) : M string := fun m =>
  match files m !! path with
  | Some Dir => (Err (ErrIO path), m)
  | Some (File old) =>
    (Ok path, with_files (<[path := File []]> (files m)) (free m + length old) m)
  | None => (Ok path, with_files (<[path := File []]> (files m)) (free m) m)
  end.

(** [f.Write(b)]: appends; when the device fills up, what fits is written
    and the call fails. *)
Definition file_Write (f : string) (b : list byte) : M unit := fun m =>
  match files m !! f with
  | Some (File old) =>
    if (length b <=? free m)%nat
    then (Ok tt, with_files (<[f := File (old ++ b)]> (files m)) (free m - length b) m)
    else (Err (ErrIO f),
          with_files (<[f := File (old ++ take (free m) b)]> (files m)) 0 m)
  | _ => (Err (ErrIO f), m)
  end.

(** [rand.Read] on a fresh buffer of [n] bytes. *)
Definition rand_Read (n : nat) : M (list byte) := fun m =>
  if (n <=? length (entropy m))%nat
  then (Ok (take n (entropy m)), with_entropy (drop n (entropy m)) m)
  else (Err ErrRand, m).

(** The size of the file a path names, 0 when there is none. *)
Definition size_at (m : machine) (file : string) : nat :=
  match files m !! file with
  | Some (File b) => length b
  | _ => 0
  end.

(** ** Package [crypto/aes] and [crypto/cipher] *)

(** [aes.NewCipher] accepts keys of 16, 24 and 32 bytes; the cipher is
    represented by its key.  [cipher.NewGCM] accepts every AES cipher. *)
Definition aes_NewCipher (key : list byte) : result (list byte) :=
  let n := length key in
  if ((n =? 16) || (n =? 24) || (n =? 32))%nat then Ok key else Err (ErrKeySize n).

Definition cipher_NewGCM (c : list byte) : result (list byte) := Ok c.

Definition NonceSize : nat := 12.

(** [sha512.Size]. *)
Definition hLen : Z := 64.

(** [copy(dst, src)] copies as many bytes as both hold. *)
Definition copy_bytes (dst src : list byte) : list byte :=
  take (length dst) src ++ drop (length src) dst.

(** [for k := range t { t[k] ^= u[k] }]; indexing [u] out of range panics. *)
Definition xor_into (t u : list byte) : option (list byte) :=
  foldl (fun acc k =>
           t' ← acc; x ← t' !! k; y ← u !! k; Some (<[k := byte_xor x y]> t'))
        (Some t) (seq 0 (length t)).

(** [s[:n]]; out of range panics. *)
Definition slice_to (n : Z) (s : list byte) : option (list byte) :=
  if (0 <=? n)%Z && (n <=? Z.of_nat (length s))%Z
  then Some (take (Z.to_nat n) s) else None.

(** [s[lo:hi]] for constants within range. *)
Definition slice (lo hi : nat) (s : list byte) : list byte :=
  take (hi - lo) (drop lo s).

Section Program.

(** What the libraries compute: HMAC-SHA512 of [data] under [key]; AES-GCM
    sealing and opening, without additional data, under a key and a nonce;
    and [unicode.ToUpper] beyond ASCII. *)
Variable hmac_sha512 : list byte -> list byte -> list byte.
Variable gcm_seal : list byte -> list byte -> list byte -> list byte.
Variable gcm_open : list byte -> list byte -> list byte -> option (list byte).
Variable unicode_upper : Z -> Z.

(** ** Key derivation *)

Definition hmacSHA512 (key data : list byte) : list byte :=
  hmac_sha512 key data.

(** [for j := 1; j < iter; j++ { u = hmacSHA512(password, u); t ^= u }],
    with [n] iterations to go. *)
Fixpoint rounds (n : nat) (password u t : list byte) : option (list byte) :=
  match n with
  | O => Some t
  | S n' =>
    let u' := hmacSHA512 password u in
    t' ← xor_into t u'; rounds n' password u' t'
  end.

(** The body of the outer loop for block counter [i]. *)
Definition block (password salt : list byte) (iter i : Z) : option (list byte) :=
  let blk := salt ++ [byte_of_int (Z.shiftr i 24); byte_of_int (Z.shiftr i 16);
                      byte_of_int (Z.shiftr i 8); byte_of_int i] in
  let u := hmacSHA512 password blk in
  let t := copy_bytes (replicate (Z.to_nat hLen) zero_byte) u in
  rounds (Z.to_nat (iter - 1)) password u t.

Definition pbkdf2sha512 (password salt : list byte) (iter dkLen : Z)
  : option (list byte) :=
  let l := int_div (int_sub (int_add dkLen hLen) 1) hLen in
  dk ← foldl (fun acc i => dk ← acc; t ← block password salt iter i; Some (dk ++ t))
         (Some []) (map Z.of_nat (seq 1 (Z.to_nat l)));
  slice_to dkLen dk.

Definition deriveKey (pass salt : list byte) : option (list byte) :=
  pbkdf2sha512 pass salt 100000 32.

(** [g.Seal(nil, nonce, plaintext, nil)] and [g.Open(nil, nonce, ct, nil)];
    both panic on a nonce of the wrong length. *)
Definition Seal (g nonce plaintext : list byte) : M (list byte) :=
  do! emit (CallSeal g nonce plaintext);
  if (length nonce =? NonceSize)%nat then ret (gcm_seal g nonce plaintext)
  else or_panic None.

Definition Open (g nonce ct : list byte) : M (list byte) :=
  do! emit (CallOpen g nonce ct);
  if (length nonce =? NonceSize)%nat then or_err ErrAuth (gcm_open g nonce ct)
  else or_panic None.

Definition derive (pass salt : list byte) : M (list byte) :=
  do! emit (CallDeriveKey pass salt);
  or_panic (deriveKey pass salt).

(** ** Snapshots on disk *)

(** A call starts with a frame of its own. *)
Definition enter : M unit := fun m => (Ok tt, with_frame ∅ m).

Definition saveToFile (file pass : string) : M unit :=
  do! enter;
  do k <- get_store;
  let state := snapshot k in
  let blob := json_Marshal state in
  do! local "blob" blob;
  do salt <- rand_Read 16;
  do key <- derive (bytes_of pass) salt;
  do! local "key" key;
  do c <- lift (aes_NewCipher key);
  do g <- lift (cipher_NewGCM c);
  do nonce <- rand_Read NonceSize;
  do ct <- Seal g nonce blob;
  do f <- os_OpenFile file;
  do! file_Write f salt;
  do! file_Write f nonce;
  do! file_Write f ct;
  do! zero_local "blob";
  do! zero_local "key";
  ret tt.

Definition loadFromFile (file pass : string) : M unit :=
  do! enter;
  do data <- os_ReadFile file;
  if (length data <? 28)%nat then throw ErrInvalidFile else
  let salt := slice 0 16 data in
  let nonce := slice 16 28 data in
  let ct := drop 28 data in
  do key <- derive (bytes_of pass) salt;
  do! local "key" key;
  do c <- lift (aes_NewCipher key);
  do g <- lift (cipher_NewGCM c);
  do pt <- Open g nonce ct;
  do! local "pt" pt;
  do m <- or_err ErrJSON (json_Unmarshal pt);
  do! modify_store (fun k => replace k m);
  do! zero_local "pt";
  do! zero_local "key";
  ret tt.

(** ** The line protocol *)

(** [unicode.ToUpper]. *)
Definition unicode_ToUpper (r : Z) : Z :=
  if (r <=? 127)%Z
  then (if (97 <=? r)%Z && (r <=? 122)%Z then r - 32 else r)%Z
  else unicode_upper r.

(** [strings.ToUpper]: every rune is mapped and written back; a byte that
    is not part of a well-formed rune comes out as U+FFFD. *)
Definition ToUpper (s : string) : string :=
  string_of (concat (map (fun x : Z * list byte =>
                            let r := unicode_ToUpper x.1 in
                            if (r <? 0)%Z then [] else EncodeRune r)
                         (runes s))).

(** One turn of the loop of [handle], for a line that was read: what is
    written to the connection, if anything. *)
Definition handle_line (line : string) : M (option string) :=
  let cmd := Fields (TrimSpace line) in
  match cmd with
  | [] => ret None
  | verb :: _ =>
    let v := ToUpper verb in
    if String.eqb v "SET" then
      if (length cmd <? 3)%nat then ret (Some "ERR") else
      let key := nth 1 cmd "" in
      let val := Join (drop 2 cmd) " " in
      do! modify_store (fun k => set k key val);
      ret (Some "OK")
    else if String.eqb v "GET" then
      if negb (length cmd =? 2)%nat then ret (Some "ERR") else
      do k <- get_store;
      let '(val, ok) := get k (nth 1 cmd "") in
      if ok then ret (Some val) else ret (Some "NIL")
    else if String.eqb v "DEL" then
      if negb (length cmd =? 2)%nat then ret (Some "ERR") else
      do k <- get_store;
      let '(found, k') := del k (nth 1 cmd "") in
      do! modify_store (fun _ => k');
      if found then ret (Some "OK") else ret (Some "NIL")
    else if String.eqb v "SAVE" then
      if negb (length cmd =? 3)%nat then ret (Some "ERR") else
      fun m =>
        match saveToFile (nth 1 cmd "") (nth 2 cmd "") m with
        | (Ok _, m') => (Ok (Some "OK"), m')
        | (Err _, m') => (Ok (Some "ERR"), m')
        | (Panic, m') => (Panic, m')
        end
    else if String.eqb v "LOAD" then
      if negb (length cmd =? 3)%nat then ret (Some "ERR") else
      fun m =>
        match loadFromFile (nth 1 cmd "") (nth 2 cmd "") m with
        | (Ok _, m') => (Ok (Some "OK"), m')
        | (Err _, m') => (Ok (Some "ERR"), m')
        | (Panic, m') => (Panic, m')
        end
    else ret (Some "ERR")
  end.

End Program.

(** ** PBKDF2 as RFC 8018, section 5.2, states it

    [PRF] is the underlying pseudorandom function, [hLen] the length of its
    output in octets, [P] the password, [S] the salt, [c] the iteration
    count and [dkLen] the intended length of the derived key. *)

Module RFC8018.
Section PBKDF2.

Variable PRF : list byte -> list byte -> list byte.

Definition octet (n : Z) : byte := ascii_of_N (Z.to_N n).

(** [INT (i)]: the four-octet encoding of [i], most significant octet
    first. *)
Definition INT_32BE (i : Z) : list byte :=
  [octet (i / 2 ^ 24 mod 256); octet (i / 2 ^ 16 mod 256);
   octet (i / 2 ^ 8 mod 256); octet (i mod 256)].

Definition xor_octets (a b : list byte) : list byte := zip_with byte_xor a b.

(** [U P S i j] is U_(j+1): U_1 = PRF (P, S || INT (i)) and
    U_j = PRF (P, U_(j-1)). *)
Fixpoint U (P S : list byte) (i : Z) (j : nat) : list byte :=
  match j with
  | O => PRF P (S ++ INT_32BE i)
  | S j' => PRF P (U P S i j')
  end.

(** [F (P, S, c, i) = U_1 xor U_2 xor ... xor U_c]. *)
Definition F (P S : list byte) (c : Z) (i : Z) : list byte :=
  foldl xor_octets (U P S i 0) (map (U P S i) (seq 1 (Z.to_nat c - 1))).

(** [CEIL (a / b)]. *)
Definition ceil_div (a b : Z) : Z :=
  if (a mod b =? 0)%Z then (a / b)%Z else (a / b + 1)%Z.

(** Step 1 refuses a [dkLen] above (2^32 - 1) * hLen (derived key too
    long); otherwise the key is T_1 || T_2 || ... || T_l cut to [dkLen]
    octets. *)
Definition PBKDF2 (P S : list byte) (c dkLen : Z) : option (list byte) :=
  if ((2 ^ 32 - 1) * hLen <? dkLen)%Z then None
  else
    let l := ceil_div dkLen hLen in
    Some (take (Z.to_nat dkLen)
            (concat (map (fun i => F P S c (Z.of_nat i)) (seq 1 (Z.to_nat l))))).

End PBKDF2.
End RFC8018.

(** ** The remainder of a command line, as the protocol table words it *)

Definition ascii_space (b : byte) : bool :=
  let x := b2z b in ((9 <=? x)%Z && (x <=? 13)%Z) || (x =? 32)%Z.

Fixpoint skip_spaces (p : list byte) : list byte :=
  match p with
  | b :: rest => if ascii_space b then skip_spaces rest else p
  | [] => []
  end.

Fixpoint skip_word (p : list byte) : list byte :=
  match p with
  | b :: rest => if ascii_space b then p else skip_word rest
  | [] => []
  end.

(** What follows the verb and the key on an ASCII line, as it appears
    there, without the white space around it. *)
Definition rest_of_line (line : string) : string :=
  let after_verb := skip_word (skip_spaces (bytes_of line)) in
  let after_key := skip_word (skip_spaces after_verb) in
  string_of (rev (skip_spaces (rev (skip_spaces after_key)))).

(** ASCII command lines, word by word: [lead] and [trail] are blank,
    [first] is the first word, and every further word comes with the gap
    before it. *)
Definition word_byte (b : byte) : bool :=
  (b2z b <? 128)%Z && negb (ascii_space b).

Definition is_word (w : string) : bool :=
  negb (String.eqb w "") && forallb word_byte (bytes_of w).

Definition is_blank (g : string) : bool := forallb ascii_space (bytes_of g).

Definition is_gap (g : string) : bool := negb (String.eqb g "") && is_blank g.

Definition tail_bytes (more : list (string * string)) : list byte :=
  concat (map (fun gw : string * string => bytes_of gw.1 ++ bytes_of gw.2) more).

Definition command_line (lead first : string) (more : list (string * string))
    (trail : string) : string :=
  string_of (bytes_of lead ++ bytes_of first ++ tail_bytes more ++ bytes_of trail).

Definition well_spaced (more : list (string * string)) : Prop :=
  Forall (fun gw : string * string => is_gap gw.1 = true /\ is_word gw.2 = true)
         more.

Definition newline : string := String ch_nl "".

(** The rune of an ASCII byte, as [range] yields it. *)
Definition asc (b : byte) : Z * list byte := (b2z b, [b]).

(** The line of the example: two spaces between the words of the value. *)
Definition set_line : string :=
  command_line "" "SET" [(" ", "k"); (" ", "a"); ("  ", "b")] newline.

(** ** A small instance of the library interface

    A keyed checksum in place of HMAC-SHA512 and a tagging wrapper in place
    of AES-GCM: enough to run the program on examples. *)

Module Tiny.

Definition checksum (l : list byte) : Z :=
  foldr (fun b acc => (b2z b + 3 * acc) mod 65521)%Z 1%Z l.

Definition hmac (key data : list byte) : list byte :=
  let c := (checksum key * 31 + checksum data)%Z in
  map (fun n => byte_of_int (c + 7 * Z.of_nat n)) (seq 0 64).

Definition tag (key nonce plaintext : list byte) : list byte :=
  take 16 (hmac key (nonce ++ plaintext)).

Definition seal (key nonce plaintext : list byte) : list byte :=
  plaintext ++ tag key nonce plaintext.

Definition open (key nonce ct : list byte) : option (list byte) :=
  if (length ct <? 16)%nat then None
  else
    let plaintext := take (length ct - 16) ct in
    if decide (drop (length ct - 16) ct = tag key nonce plaintext)
    then Some plaintext else None.

Definition upper (r : Z) : Z := r.

End Tiny.

(** ** Example data *)

(** A value that is not UTF-8, and U+FFFD in UTF-8. *)
Definition invalid_utf8 : string := string_of [byte_of_int 255].
Definition replacement : string :=
  string_of [byte_of_int 239; byte_of_int 191; byte_of_int 189].

(** A process with store [k] and files [fs], 32 bytes of entropy and room
    on the device. *)
Definition entropy32 : list byte := bytes_of "0123456789abcdefghijklmnopqrstuv".
Definition process (k : kv) (fs : gmap string node) : machine :=
  Machine k fs 4096 entropy32 ∅ [].

(** ** Well-formed UTF-8

    [utf8.ValidString]: no position decodes to the error rune with width
    1.  A map is valid when all its keys and values are. *)

Definition well_formed (x : Z * list byte) : bool :=
  negb ((x.1 =? RuneError)%Z && (length x.2 =? 1)).

Definition valid_utf8 (s : string) : bool := forallb well_formed (runes s).

Definition valid_keys (m : gmap string string) : bool :=
  forallb (fun kv : string * string => valid_utf8 kv.1) (map_to_list m).

Definition valid_map (m : gmap string string) : bool :=
  forallb (fun kv : string * string => valid_utf8 kv.1 && valid_utf8 kv.2)
          (map_to_list m).

(** What [json.Marshal] makes of a string: a byte that is not part of a
    well-formed rune becomes U+FFFD. *)
Definition coerce (x : Z * list byte) : list byte :=
  if well_formed x then x.2 else bytes_of replacement.

Definition coerce_utf8 (s : string) : string :=
  string_of (concat (map coerce (runes s))).

(** What [appendString] writes for an ASCII byte. *)
Definition escape_byte (b : byte) : list byte :=
  if htmlSafe b then [b] else escape_ascii b.

(** Text with characters that are escaped, a two-byte rune and U+2028. *)
Definition sample_text : string :=
  string_of (bytes_of "a <b> & c\ " ++ [ch_quote; ch_nl]
             ++ map byte_of_int [195; 169; 226; 128; 168]%Z).

(** ASCII letters in upper case. *)
Definition upper_byte (b : byte) : byte :=
  if (97 <=? b2z b)%Z && (b2z b <=? 122)%Z then byte_of_int (b2z b - 32) else b.

Definition ascii_upper (s : string) : string :=
  string_of (map upper_byte (bytes_of s)).

(** ** The connection

    [handle] is given what the client sends before it closes the
    connection and returns what is written back.  A panic ends the
    process; what was written before it is not reported. *)

(** [fmt.Fprintln(c, s)]: the operand and a newline. *)
Definition Fprintln (s : string) : list byte := bytes_of s ++ [ch_nl].

(** [r.ReadString('\n')]: the input up to and including the first newline
    and what follows it; an error when the input ends before a newline. *)
Fixpoint ReadString (input : list byte) : option (list byte * list byte) :=
  match input with
  | [] => None
  | b :: rest =>
    if (b2z b =? 10)%Z then Some ([b], rest)
    else '(line, rest') ← ReadString rest; Some (b :: line, rest')
  end.

Definition no_newline (bs : list byte) : bool :=
  forallb (fun b => negb (b2z b =? 10)%Z) bs.

Section Connection.

Variable hmac_sha512 : list byte -> list byte -> list byte.
Variable gcm_seal : list byte -> list byte -> list byte -> list byte.
Variable gcm_open : list byte -> list byte -> list byte -> option (list byte).
Variable unicode_upper : Z -> Z.

(** The loop of [handle]: a line is read, or the function returns; the
    line is handled, the reply written, and the loop goes on.  Every turn
    consumes at least one byte, so the length of the input is enough
    fuel. *)
Fixpoint handle_from (fuel : nat) (input : list byte) : M (list byte) :=
  match fuel with
  | O => ret []
  | S fuel' =>
    match ReadString input with
    | None => ret []
    | Some (line, rest) =>
      do reply <- handle_line hmac_sha512 gcm_seal gcm_open unicode_upper
                    (string_of line);
      do out <- handle_from fuel' rest;
      ret (from_option Fprintln [] reply ++ out)
    end
  end.

Definition handle (input : list byte) : M (list byte) :=
  handle_from (length input) input.

End Connection.




(** ** Facts about buffers *)

Lemma string_of_bytes_of s : string_of (bytes_of s) = s.
Proof. apply string_of_list_ascii_of_string. Qed.

Lemma bytes_of_string_of b : bytes_of (string_of b) = b.
Proof. apply list_ascii_of_string_of_list_ascii. Qed.

Lemma zero_loop_prefix (b : list byte) n :
  n <= length b ->
  foldl (fun buf i => <[i := zero_byte]> buf) b (seq 0 n)
  = replicate n zero_byte ++ drop n b.
Proof.
  induction n as [|n IH]; intros Hn.
  - by rewrite drop_0.
  - rewrite seq_S, foldl_app, IH by lia. simpl.
    destruct (lookup_lt_is_Some_2 b n) as [x Hx]; [lia|].
    rewrite (drop_S _ _ _ Hx).
    rewrite insert_app_r_alt by (rewrite length_replicate; lia).
    rewrite length_replicate, Nat.sub_diag. simpl.
    by rewrite (cons_middle _ (replicate n _)), app_assoc, <- replicate_cons_app.
Qed.

Lemma zero_replicate b : zero b = replicate (length b) zero_byte.
Proof.
  unfold zero. rewrite zero_loop_prefix by lia.
  by rewrite drop_all, app_nil_r.
Qed.

Lemma length_zero b : length (zero b) = length b.
Proof. by rewrite zero_replicate, length_replicate. Qed.

(** ** The store *)

Lemma get_lookup k key :
  get k key = match data k !! key with
              | Some v => (string_of v, true)
              | None => ("", false)
              end.
Proof. reflexivity. Qed.

Lemma data_set k key val : data (set k key val) = <[key := bytes_of val]> (data k).
Proof. reflexivity. Qed.

(** Zeroing the buffer before the entry goes is not observable in the map. *)
Lemma data_del k key : data (del k key).2 = delete key (data k).
Proof.
  unfold del. destruct (data k !! key) as [v|] eqn:E; simpl.
  - apply delete_insert_eq.
  - symmetry. by apply delete_id.
Qed.

Lemma del_found k key : (del k key).1 = bool_decide (is_Some (data k !! key)).
Proof.
  unfold del. by destruct (data k !! key) as [v|].
Qed.

Lemma snapshot_fmap k : snapshot k = string_of <$> data k.
Proof.
  unfold snapshot.
  apply (map_fold_weak_ind (fun r (m : gmap string (list byte)) => r = string_of <$> m)).
  - by rewrite fmap_empty.
  - intros i x m r _ ->. by rewrite fmap_insert.
Qed.

Lemma replace_clears (d : gmap string (list byte)) :
  map_fold (fun key v acc => delete key (<[key := zero v]> acc)) d d = ∅.
Proof.
  assert (forall b m : gmap string (list byte),
             map_fold (fun key v acc => delete key (<[key := zero v]> acc)) b m = b ∖ m)
    as Hgen.
  { intros b.
    apply (map_fold_weak_ind (fun r (m : gmap string (list byte)) => r = b ∖ m)).
    - by rewrite map_difference_empty.
    - intros i x m r _ ->.
      rewrite delete_insert_eq. apply delete_difference. }
  rewrite Hgen. apply map_difference_diag.
Qed.

Lemma data_replace k inp : data (replace k inp) = bytes_of <$> inp.
Proof.
  unfold replace. simpl. rewrite replace_clears.
  apply (map_fold_weak_ind (fun r (m : gmap string string) => r = bytes_of <$> m)).
  - by rewrite fmap_empty.
  - intros i x m r _ ->. by rewrite fmap_insert.
Qed.

Lemma kv_eq (k1 k2 : kv) : data k1 = data k2 -> k1 = k2.
Proof. destruct k1, k2. simpl. by intros ->. Qed.

(** Loading a store's own snapshot gives the store back. *)
Lemma replace_snapshot k0 k : replace k0 (snapshot k) = k.
Proof.
  apply kv_eq. rewrite data_replace, snapshot_fmap, <- map_fmap_compose.
  rewrite <- (map_fmap_id (data k)) at 2.
  apply map_fmap_ext. intros i x _. apply bytes_of_string_of.
Qed.

Lemma get_set_eq k key val : get (set k key val) key = (val, true).
Proof.
  rewrite get_lookup, data_set, lookup_insert_eq.
  by rewrite string_of_bytes_of.
Qed.

Lemma get_set_ne k key key' val :
  key <> key' -> get (set k key val) key' = get k key'.
Proof. intros Hne. by rewrite !get_lookup, data_set, lookup_insert_ne. Qed.

Lemma get_del_eq k key : get (del k key).2 key = ("", false).
Proof. by rewrite get_lookup, data_del, lookup_delete_eq. Qed.

Lemma get_del_ne k key key' :
  key <> key' -> get (del k key).2 key' = get k key'.
Proof. intros Hne. by rewrite !get_lookup, data_del, lookup_delete_ne. Qed.

Lemma get_newKV key : get newKV key = ("", false).
Proof. reflexivity. Qed.

Lemma run_snoc ops o k : run (ops ++ [o]) k = apply_op (run ops k) o.
Proof. unfold run. by rewrite foldl_app. Qed.

Lemma get_replace k inp K :
  get (replace k inp) K = match inp !! K with
                          | Some v => (v, true)
                          | None => ("", false)
                          end.
Proof.
  rewrite get_lookup, data_replace, lookup_fmap.
  destruct (inp !! K) as [v|]; [|done].
  cbn [fmap option_fmap option_map]. by rewrite string_of_bytes_of.
Qed.

Lemma get_run ops K :
  get (run ops newKV) K = match most_recent K ops with
                          | Some v => (v, true)
                          | None => ("", false)
                          end.
Proof.
  unfold most_recent.
  induction ops as [|o ops IH] using rev_ind.
  - reflexivity.
  - rewrite run_snoc, rev_app_distr. simpl.
    destruct o as [key val|key|inp]; simpl.
    + destruct (decide (key = K)) as [->|Hne];
        [apply get_set_eq | by rewrite get_set_ne].
    + destruct (decide (key = K)) as [->|Hne];
        [apply get_del_eq | by rewrite get_del_ne].
    + apply get_replace.
Qed.

(** Without a [replace] the two readings of the latest write agree. *)
Lemma latest_set_latest K (newest_first : list op) :
  forallb (fun o => negb (is_replace o)) newest_first = true ->
  latest_set K newest_first = latest K newest_first.
Proof.
  induction newest_first as [|o ops IH]; [done|].
  cbn [forallb]. intros H. apply andb_true_iff in H as [Ho Hops].
  destruct o as [key val|key|inp]; [| |discriminate Ho];
    cbn [latest latest_set]; destruct (decide (key = K)); auto.
Qed.

(** C8, amended: right after [set(k, v)], [get(k)] is [(v, true)]; and in
    any history of [set]s, [del]s and [replace]s on a new store, [get] of a
    key is the value of the latest write of that key, by a [set] or by a
    [replace] whose map holds the key, or absent when the key was never
    written or its latest write is a [del] or a [replace] whose map does
    not hold it.  In a history without [replace] that is the value most
    recently set, or absence if the key was never set or deleted since. *)
Theorem get_returns_latest_set :
  (forall (k : kv) (key val : string), get (set k key val) key = (val, true))
  /\ (forall (ops : list op) (K : string),
        get (run ops newKV) K = match most_recent K ops with
                                | Some v => (v, true)
                                | None => ("", false)
                                end)
  /\ (forall (ops : list op) (K : string),
        forallb (fun o => negb (is_replace o)) ops = true ->
        get (run ops newKV) K = match most_recently_set K ops with
                                | Some v => (v, true)
                                | None => ("", false)
                                end).
Proof.
  split; [apply get_set_eq|]. split; [apply get_run|].
  intros ops K Hops. rewrite get_run. unfold most_recently_set, most_recent.
  rewrite latest_set_latest; [reflexivity|].
  rewrite forallb_forall in Hops |- *. intros o Hin. apply Hops.
  by apply in_rev.
Qed.

(** C8 as stated fails once a [replace] is in the history.  After
    [set(a, 1)] and a [replace] with the empty map, the value most recently
    set for a is 1 and a was not deleted since, yet [get(a)] reports
    absence; and after a [replace] with a map that holds 2 for a on a new
    store, a was never set, yet [get(a)] returns 2. *)
Lemma replace_overrides_the_latest_set :
  most_recently_set "a" [OpSet "a" "1"; OpReplace ∅] = Some "1"
  /\ get (run [OpSet "a" "1"; OpReplace ∅] newKV) "a" = ("", false)
  /\ most_recently_set "a" [OpReplace {["a" := "2"]}] = None
  /\ get (run [OpReplace {["a" := "2"]}] newKV) "a" = ("2", true)
  /\ get (replace (set newKV "a" "1") ∅) "a" <> ("1", true).
Proof.
  split; [reflexivity|]. split; [by rewrite get_run|].
  split; [reflexivity|]. split; [by rewrite get_run|].
  rewrite get_replace, lookup_empty. discriminate.
Qed.

(** C9: [del(k)] returns true exactly when [k] is present, and afterwards
    [get(k)] reports absence; on an absent key it returns false and leaves
    the store as it was, so a second [del(k)] in a row returns false. *)
Theorem del_reports_presence (k : kv) (key : string) :
  ((del k key).1 = true <-> is_Some (data k !! key))
  /\ get (del k key).2 key = ("", false)
  /\ (data k !! key = None -> del k key = (false, k))
  /\ (del (del k key).2 key).1 = false.
Proof.
  repeat split.
  - rewrite del_found. apply bool_decide_eq_true.
  - rewrite del_found. apply bool_decide_eq_true.
  - apply get_del_eq.
  - intros Hnone. unfold del. by rewrite Hnone.
  - rewrite del_found, data_del, lookup_delete_eq.
    apply bool_decide_eq_false_2. by intros [? ?].
Qed.

Lemma del_reports_presence_witness :
  ((del (set newKV "a" "1") "b").1 = true
   <-> is_Some (data (set newKV "a" "1") !! "b"))
  /\ get (del (set newKV "a" "1") "b").2 "b" = ("", false)
  /\ (data (set newKV "a" "1") !! "b" = None
      -> del (set newKV "a" "1") "b" = (false, set newKV "a" "1"))
  /\ (del (del (set newKV "a" "1") "b").2 "b").1 = false.
Proof. exact (del_reports_presence (set newKV "a" "1") "b"). Defined.

(** ** Machine integers *)

Lemma int_wrap_small z : (- 2 ^ 63 <= z < 2 ^ 63)%Z -> int_wrap z = z.
Proof. intros Hz. unfold int_wrap. rewrite Z.mod_small; lia. Qed.

Lemma byte_of_int_octet x : byte_of_int x = RFC8018.octet (x mod 256).
Proof.
  unfold byte_of_int, RFC8018.octet.
  change 255%Z with (Z.ones 8). rewrite Z.land_ones by lia. reflexivity.
Qed.

Lemma block_counter_bytes i :
  [byte_of_int (Z.shiftr i 24); byte_of_int (Z.shiftr i 16);
   byte_of_int (Z.shiftr i 8); byte_of_int i] = RFC8018.INT_32BE i.
Proof.
  unfold RFC8018.INT_32BE.
  rewrite !byte_of_int_octet, !Z.shiftr_div_pow2 by lia. reflexivity.
Qed.

(** The number of blocks, as the code computes it and as a ceiling. *)
Lemma block_count dkLen :
  (0 <= dkLen < 2 ^ 63 - 64)%Z ->
  int_div (int_sub (int_add dkLen hLen) 1) hLen = RFC8018.ceil_div dkLen hLen.
Proof.
  intros Hd. unfold int_div, int_sub, int_add, hLen, RFC8018.ceil_div.
  rewrite (int_wrap_small (dkLen + 64)) by lia.
  rewrite (int_wrap_small (dkLen + 64 - 1)) by lia.
  rewrite Z.quot_div_nonneg by lia.
  assert (0 <= (dkLen + 64 - 1) / 64 < 2 ^ 63)%Z as Hq.
  { split; [apply Z.div_pos; lia|]. apply Z.div_lt_upper_bound; lia. }
  rewrite int_wrap_small by lia.
  pose proof (Z.div_mod dkLen 64 ltac:(lia)) as Hdm.
  pose proof (Z.mod_pos_bound dkLen 64 ltac:(lia)) as Hm.
  destruct (Z.eqb_spec (dkLen mod 64) 0) as [H0|H0].
  - symmetry. apply Z.div_unique with (r := 63%Z); lia.
  - symmetry. apply Z.div_unique with (r := (dkLen mod 64 - 1)%Z); lia.
Qed.

Lemma ceil_div_covers dkLen :
  (0 <= dkLen)%Z -> (dkLen <= 64 * RFC8018.ceil_div dkLen hLen)%Z.
Proof.
  intros Hd. unfold RFC8018.ceil_div, hLen.
  pose proof (Z.div_mod dkLen 64 ltac:(lia)) as Hdm.
  pose proof (Z.mod_pos_bound dkLen 64 ltac:(lia)) as Hm.
  destruct (Z.eqb_spec (dkLen mod 64) 0); lia.
Qed.

(** ** Key derivation *)

Lemma xor_into_prefix (t u : list byte) n :
  n <= length t -> length t <= length u ->
  foldl (fun acc k =>
           t' ← acc; x ← t' !! k; y ← u !! k; Some (<[k := byte_xor x y]> t'))
        (Some t) (seq 0 n)
  = Some (zip_with byte_xor (take n t) (take n u) ++ drop n t).
Proof.
  intros Hn Hu. induction n as [|n IH].
  - by rewrite drop_0.
  - rewrite seq_S, foldl_app, IH by lia. simpl.
    destruct (lookup_lt_is_Some_2 t n) as [x Hx]; [lia|].
    destruct (lookup_lt_is_Some_2 u n) as [y Hy]; [lia|].
    assert (length (zip_with byte_xor (take n t) (take n u)) = n) as Hlen.
    { rewrite length_zip_with, !length_take. lia. }
    rewrite lookup_app_r, Hlen, Nat.sub_diag, lookup_drop, Nat.add_0_r, Hx by lia.
    simpl. rewrite Hy. simpl. f_equal.
    rewrite insert_app_r_alt, Hlen, Nat.sub_diag by lia.
    rewrite (drop_S _ _ _ Hx). simpl.
    rewrite (take_S_r _ _ _ Hx), (take_S_r _ _ _ Hy).
    rewrite zip_with_app by (rewrite !length_take; lia).
    simpl. by rewrite <- app_assoc.
Qed.

Lemma xor_into_zip (t u : list byte) :
  length t <= length u -> xor_into t u = Some (RFC8018.xor_octets t u).
Proof.
  intros Hu. unfold xor_into. rewrite xor_into_prefix by lia.
  rewrite drop_all, app_nil_r, firstn_all, zip_with_take_r. reflexivity.
Qed.

Section KeyDerivation.

Variable hmac_sha512 : list byte -> list byte -> list byte.

(** HMAC-SHA512 returns [sha512.Size] bytes. *)
Hypothesis hmac_size : forall key data, length (hmac_sha512 key data) = 64.

Let U := RFC8018.U hmac_sha512.
Let F := RFC8018.F hmac_sha512.

Lemma length_U P Sa i j : length (U P Sa i j) = 64.
Proof. destruct j; apply hmac_size. Qed.

Lemma length_xor_fold (t : list byte) (us : list (list byte)) :
  length t = 64 -> Forall (fun u => length u = 64) us ->
  length (foldl RFC8018.xor_octets t us) = 64.
Proof.
  intros Ht Hus. revert t Ht. induction Hus as [|u us Hu _ IH]; intros t Ht.
  - done.
  - simpl. apply IH. unfold RFC8018.xor_octets.
    rewrite length_zip_with. lia.
Qed.

Lemma length_F P Sa c i : length (F P Sa c i) = 64.
Proof.
  unfold F, RFC8018.F. apply length_xor_fold.
  - apply (length_U P Sa i 0).
  - apply List.Forall_forall. intros u Hin.
    apply in_map_iff in Hin as [j [<- _]]. apply (length_U P Sa i j).
Qed.

(** The inner loop folds U_(j+2), U_(j+3), ... into [t]. *)
Lemma rounds_fold n P Sa i j (t : list byte) :
  length t = 64 ->
  rounds hmac_sha512 n P (U P Sa i j) t
  = Some (foldl RFC8018.xor_octets t (map (U P Sa i) (seq (S j) n))).
Proof.
  revert j t. induction n as [|n IH]; intros j t Ht.
  - reflexivity.
  - simpl. unfold hmacSHA512.
    change (hmac_sha512 P (U P Sa i j)) with (U P Sa i (S j)).
    rewrite xor_into_zip by (rewrite length_U; lia). simpl.
    apply (IH (S j)). unfold RFC8018.xor_octets.
    rewrite length_zip_with, hmac_size. lia.
Qed.

Lemma block_is_F P Sa iter i :
  block hmac_sha512 P Sa iter i = Some (F P Sa iter i).
Proof.
  unfold block, hmacSHA512. rewrite block_counter_bytes.
  change (hmac_sha512 P (Sa ++ RFC8018.INT_32BE i)) with (U P Sa i 0).
  assert (copy_bytes (replicate (Z.to_nat hLen) zero_byte) (U P Sa i 0) = U P Sa i 0)
    as ->.
  { unfold copy_bytes. rewrite length_replicate, length_U.
    change (Z.to_nat hLen) with 64.
    rewrite take_ge by (rewrite length_U; lia).
    rewrite drop_ge by (rewrite length_replicate; lia).
    apply app_nil_r. }
  rewrite rounds_fold by apply length_U.
  unfold F, RFC8018.F. do 4 f_equal. lia.
Qed.

Lemma blocks_concat P Sa iter (ns : list nat) (acc : list byte) :
  foldl (fun acc i => dk ← acc; t ← block hmac_sha512 P Sa iter i; Some (dk ++ t))
        (Some acc) (map Z.of_nat ns)
  = Some (acc ++ concat (map (fun i => F P Sa iter (Z.of_nat i)) ns)).
Proof.
  revert acc. induction ns as [|i ns IH]; intros acc.
  - simpl. by rewrite app_nil_r.
  - simpl. rewrite block_is_F. simpl. rewrite IH. by rewrite <- app_assoc.
Qed.

Lemma length_blocks P Sa iter (ns : list nat) :
  length (concat (map (fun i => F P Sa iter (Z.of_nat i)) ns)) = 64 * length ns.
Proof.
  induction ns as [|i ns IH]; [done|].
  simpl. rewrite length_app, length_F, IH. lia.
Qed.

(** Within the range of [int] the function returns, and what it returns
    is the first [dkLen] bytes of the blocks F(1), F(2), ... *)
Lemma pbkdf2sha512_blocks P Sa iter dkLen :
  (0 <= dkLen < 2 ^ 63 - 64)%Z ->
  pbkdf2sha512 hmac_sha512 P Sa iter dkLen
  = Some (take (Z.to_nat dkLen)
            (concat (map (fun i => F P Sa iter (Z.of_nat i))
                         (seq 1 (Z.to_nat (RFC8018.ceil_div dkLen hLen)))))).
Proof.
  intros Hd. unfold pbkdf2sha512.
  rewrite block_count by done. rewrite blocks_concat. simpl.
  unfold slice_to. rewrite length_blocks, length_seq.
  pose proof (ceil_div_covers dkLen ltac:(lia)) as Hc.
  destruct (Z.leb_spec 0 dkLen); [|lia].
  destruct (Z.leb_spec dkLen (Z.of_nat (64 * Z.to_nat (RFC8018.ceil_div dkLen hLen))));
    [done|lia].
Qed.

End KeyDerivation.

Lemma Tiny_hmac_size key data : length (Tiny.hmac key data) = 64.
Proof. unfold Tiny.hmac. by rewrite length_map, length_seq. Qed.

Lemma deriveKey_value
    (hmac_sha512 : list byte -> list byte -> list byte) (pass salt : list byte) :
  (forall key data, length (hmac_sha512 key data) = 64) ->
  deriveKey hmac_sha512 pass salt
  = Some (take 32 (RFC8018.F hmac_sha512 pass salt 100000 1)).
Proof.
  intros hmac_size.
  unfold deriveKey. rewrite pbkdf2sha512_blocks by (exact hmac_size || lia).
  change (seq 1 (Z.to_nat (RFC8018.ceil_div 32 hLen))) with [1].
  cbn [List.map concat]. by rewrite app_nil_r.
Qed.

Lemma deriveKey_total hmac_sha512 pass salt :
  (forall key data, length (hmac_sha512 key data) = 64) ->
  exists key, deriveKey hmac_sha512 pass salt = Some key /\ length key = 32.
Proof.
  intros Hsize. eexists. split; [by apply deriveKey_value|].
  rewrite length_take, length_F by exact Hsize. lia.
Qed.

Lemma deriveKey_length hmac_sha512 pass salt key :
  (forall key data, length (hmac_sha512 key data) = 64) ->
  deriveKey hmac_sha512 pass salt = Some key -> length key = 32.
Proof.
  intros Hsize Hkey.
  destruct (deriveKey_total hmac_sha512 pass salt Hsize) as (key' & Hkey' & Hlen).
  congruence.
Qed.

(** C5: [deriveKey] returns a key for every password and salt, the same
    key for the same password and salt; the key is 32 bytes long and is
    the head of the first PBKDF2 block for 100000 iterations. *)
Theorem deriveKey_deterministic_32_bytes
    (hmac_sha512 : list byte -> list byte -> list byte)
    (hmac_size : forall key data, length (hmac_sha512 key data) = 64)
    (pass salt : list byte) :
  exists key,
    deriveKey hmac_sha512 pass salt = Some key
    /\ length key = 32
    /\ key = take 32 (RFC8018.F hmac_sha512 pass salt 100000 1)
    /\ (forall pass' salt',
           pass' = pass -> salt' = salt ->
           deriveKey hmac_sha512 pass' salt' = Some key).
Proof.
  pose proof (deriveKey_value hmac_sha512 pass salt hmac_size) as Hkey.
  eexists. split; [exact Hkey|]. split; [|split; [reflexivity|]].
  - rewrite length_take, length_F by exact hmac_size. lia.
  - intros pass' salt' -> ->. exact Hkey.
Qed.

Lemma deriveKey_deterministic_32_bytes_witness :
  exists key,
    deriveKey Tiny.hmac (bytes_of "secret") (bytes_of "0123456789abcdef") = Some key
    /\ length key = 32
    /\ key = take 32 (RFC8018.F Tiny.hmac (bytes_of "secret")
                        (bytes_of "0123456789abcdef") 100000 1)
    /\ (forall pass' salt',
           pass' = bytes_of "secret" -> salt' = bytes_of "0123456789abcdef" ->
           deriveKey Tiny.hmac pass' salt' = Some key).
Proof.
  exact (deriveKey_deterministic_32_bytes Tiny.hmac Tiny_hmac_size
           (bytes_of "secret") (bytes_of "0123456789abcdef")).
Defined.

(** C6, amended: for an iteration count of at least 1 and an output length
    from 1 up to (2^32 - 1) * 64, the bound of RFC 8018, [pbkdf2sha512]
    returns the key that PBKDF2 with HMAC-SHA512 defines: the blocks
    T_1, T_2, ... in a row, cut to [dkLen] bytes. *)
Theorem pbkdf2sha512_is_PBKDF2
    (hmac_sha512 : list byte -> list byte -> list byte)
    (hmac_size : forall key data, length (hmac_sha512 key data) = 64)
    (password salt : list byte) (iter dkLen : Z) :
  (1 <= iter)%Z ->
  (1 <= dkLen <= (2 ^ 32 - 1) * 64)%Z ->
  exists dk,
    pbkdf2sha512 hmac_sha512 password salt iter dkLen = Some dk
    /\ RFC8018.PBKDF2 hmac_sha512 password salt iter dkLen = Some dk
    /\ Z.of_nat (length dk) = dkLen.
Proof.
  intros Hiter Hlen.
  rewrite pbkdf2sha512_blocks by (done || lia).
  eexists. split; [reflexivity|]. split.
  - unfold RFC8018.PBKDF2.
    destruct (Z.ltb_spec ((2 ^ 32 - 1) * hLen) dkLen) as [Hbig|_];
      [unfold hLen in Hbig; lia | reflexivity].
  - rewrite length_take, length_blocks, length_seq by done.
    pose proof (ceil_div_covers dkLen ltac:(lia)). lia.
Qed.

Lemma pbkdf2sha512_is_PBKDF2_witness :
  exists dk,
    pbkdf2sha512 Tiny.hmac (bytes_of "pw") (bytes_of "salt") 3 100 = Some dk
    /\ RFC8018.PBKDF2 Tiny.hmac (bytes_of "pw") (bytes_of "salt") 3 100 = Some dk
    /\ Z.of_nat (length dk) = 100%Z.
Proof.
  apply (pbkdf2sha512_is_PBKDF2 Tiny.hmac Tiny_hmac_size); lia.
Defined.

(** C6 as stated fails outside that range.  At the largest [int] the sum
    [dkLen + hLen - 1] wraps around, no block is computed, and the final
    slice panics; just above the bound of the RFC the function still
    returns a key (the block counter no longer fits four bytes), where
    PBKDF2 refuses the length. *)
Lemma pbkdf2sha512_beyond_the_standard :
  pbkdf2sha512 Tiny.hmac [] [] 1 (2 ^ 63 - 1) = None
  /\ pbkdf2sha512 Tiny.hmac [] [] 1 ((2 ^ 32 - 1) * 64 + 1)
     <> RFC8018.PBKDF2 Tiny.hmac [] [] 1 ((2 ^ 32 - 1) * 64 + 1).
Proof.
  split; [reflexivity|].
  rewrite (pbkdf2sha512_blocks Tiny.hmac Tiny_hmac_size) by lia.
  unfold RFC8018.PBKDF2.
  destruct (Z.ltb_spec ((2 ^ 32 - 1) * hLen) ((2 ^ 32 - 1) * 64 + 1)) as [_|Hsmall];
    [|unfold hLen in Hsmall; lia].
  intros Heq. discriminate Heq.
Qed.

(** ** Saving and loading *)

Arguments deriveKey : simpl never.
Arguments json_Marshal : simpl never.
Arguments json_Unmarshal : simpl never.
Arguments snapshot : simpl never.
Arguments replace : simpl never.
Arguments zero : simpl never.

(** Unfolds the monad and the library calls of a snapshot function. *)
Ltac unfold_call :=
  unfold derive, Seal, Open in *;
  unfold bind, ret, throw, lift, or_panic, or_err, emit, get_store,
    modify_store, local, zero_local, enter,
    os_ReadFile, os_OpenFile, file_Write, rand_Read, cipher_NewGCM in *.

(** Reduces what the unfolding leaves, without computing on maps. *)
Ltac msimpl :=
  cbn beta iota zeta delta
    [files store free entropy frame trace with_store with_files with_entropy
     with_frame with_trace fst snd] in *.

Section Snapshots.

Variable hmac_sha512 : list byte -> list byte -> list byte.
Variable gcm_seal : list byte -> list byte -> list byte -> list byte.
Variable gcm_open : list byte -> list byte -> list byte -> option (list byte).

Let save := saveToFile hmac_sha512 gcm_seal.
Let load := loadFromFile hmac_sha512 gcm_open.

Lemma length_slice lo hi (s : list byte) :
  hi <= length s -> length (slice lo hi s) = hi - lo.
Proof. intros Hs. unfold slice. rewrite length_take, length_drop. lia. Qed.

(** What a call of [loadFromFile] does, case by case. *)
Lemma load_short file pass m data :
  files m !! file = Some (File data) -> length data < 28 ->
  load file pass m = (Err ErrInvalidFile, with_frame ∅ m).
Proof.
  intros Hfile Hshort. unfold load, loadFromFile. unfold_call. msimpl.
  rewrite Hfile. by destruct (Nat.ltb_spec (length data) 28); [|lia].
Qed.

Lemma load_unreadable file pass m :
  (forall data, files m !! file <> Some (File data)) ->
  load file pass m = (Err (ErrIO file), with_frame ∅ m).
Proof.
  intros Hfile. unfold load, loadFromFile. unfold_call. msimpl.
  destruct (files m !! file) as [[data|]|] eqn:E; try done.
  by destruct (Hfile data).
Qed.

Lemma aes_NewCipher_inv key r :
  aes_NewCipher key = r ->
  (r = Ok key /\ (length key = 16 \/ length key = 24 \/ length key = 32))
  \/ r = Err (ErrKeySize (length key)).
Proof.
  unfold aes_NewCipher. intros <-.
  destruct (Nat.eqb_spec (length key) 16); [left; auto|].
  destruct (Nat.eqb_spec (length key) 24); [left; auto|].
  destruct (Nat.eqb_spec (length key) 32); [left; auto|].
  by right.
Qed.

Lemma nonce_of_file_size (data : list byte) :
  28 <= length data -> (length (slice 16 28 data) =? NonceSize) = true.
Proof. intros Hd. apply Nat.eqb_eq. by rewrite length_slice. Qed.

(** The outcome of [loadFromFile] on a file of at least 28 bytes, from the
    results of the library calls it makes. *)
Lemma load_long file pass m data :
  files m !! file = Some (File data) -> 28 <= length data ->
  let salt := slice 0 16 data in
  let nonce := slice 16 28 data in
  let ct := drop 28 data in
  let m1 := with_trace (trace m ++ [CallDeriveKey (bytes_of pass) salt])
              (with_frame ∅ m) in
  load file pass m =
  match deriveKey hmac_sha512 (bytes_of pass) salt with
  | None => (Panic, m1)
  | Some key =>
    let m2 := with_frame (<["key" := key]> ∅) m1 in
    match aes_NewCipher key with
    | Ok c =>
      let m3 := with_trace (trace m1 ++ [CallOpen c nonce ct]) m2 in
      match gcm_open c nonce ct with
      | None => (Err ErrAuth, m3)
      | Some pt =>
        let m4 := with_frame (<["pt" := pt]> (frame m3)) m3 in
        match json_Unmarshal pt with
        | None => (Err ErrJSON, m4)
        | Some mp =>
          (Ok tt,
           with_frame (<["key" := zero key]> (<["pt" := zero pt]> (frame m4)))
             (with_store (fun k => replace k mp) m4))
        end
      end
    | Err e => (Err e, m2)
    | Panic => (Panic, m2)
    end
  end.
Proof.
  intros Hfile Hlong. unfold load, loadFromFile. unfold_call. msimpl.
  rewrite Hfile. destruct (Nat.ltb_spec (length data) 28); [lia|].
  destruct (deriveKey _ _ _) as [key|]; [|done].
  destruct (aes_NewCipher key) as [c| |]; [|done..].
  rewrite nonce_of_file_size by done.
  destruct (gcm_open _ _ _) as [pt|]; [|done].
  destruct (json_Unmarshal pt) as [mp|]; [|done].
  msimpl. rewrite lookup_insert_eq. msimpl.
  rewrite !lookup_insert_ne, lookup_insert_eq by done. done.
Qed.

(** Three writes in a row to a file that was just opened: either all of
    [a ++ b ++ c] fits, or the file holds as much of it as did. *)
Lemma write3 f (a b c : list byte) (k : M unit) m :
  files m !! f = Some (File []) ->
  (do! file_Write f a; do! file_Write f b; do! file_Write f c; k) m
  = if decide (length a + length b + length c <= free m)
    then k (with_files (<[f := File (a ++ b ++ c)]> (files m))
              (free m - (length a + length b + length c)) m)
    else (Err (ErrIO f),
          with_files (<[f := File (take (free m) (a ++ b ++ c))]> (files m)) 0 m).
Proof.
  intros Hf. unfold bind, file_Write. msimpl. rewrite Hf.
  destruct (Nat.leb_spec (length a) (free m)) as [Ha|Ha]; msimpl.
  2:{ rewrite decide_False by lia. rewrite (take_app_le a) by lia. done. }
  rewrite lookup_insert_eq.
  destruct (Nat.leb_spec (length b) (free m - length a)) as [Hb|Hb]; msimpl.
  2:{ rewrite decide_False by lia. rewrite insert_insert_eq.
      rewrite (take_app_ge a), (take_app_le b) by lia.
      unfold with_files. msimpl. done. }
  rewrite lookup_insert_eq.
  destruct (Nat.leb_spec (length c) (free m - length a - length b)) as [Hc|Hc];
    msimpl.
  2:{ rewrite decide_False by lia. rewrite !insert_insert_eq.
      rewrite (take_app_ge a), (take_app_ge b) by lia.
      unfold with_files. msimpl. by rewrite <- !app_assoc. }
  rewrite decide_True by lia. rewrite !insert_insert_eq.
  unfold with_files. msimpl. rewrite <- !app_assoc. simpl.
  do 2 f_equal. lia.
Qed.

(** [saveToFile] up to the point where the file is opened. *)
Lemma save_prefix file pass m :
  let blob := json_Marshal (snapshot (store m)) in
  let salt := take 16 (entropy m) in
  let nonce := take 12 (drop 16 (entropy m)) in
  let m0 := with_frame (<["blob" := blob]> ∅) m in
  let m1 := with_trace (trace m ++ [CallDeriveKey (bytes_of pass) salt])
              (with_entropy (drop 16 (entropy m)) m0) in
  save file pass m =
  if 16 <=? length (entropy m) then
    match deriveKey hmac_sha512 (bytes_of pass) salt with
    | None => (Panic, m1)
    | Some key =>
      let m2 := with_frame (<["key" := key]> (<["blob" := blob]> ∅)) m1 in
      match aes_NewCipher key with
      | Ok c =>
        if 12 <=? length (drop 16 (entropy m)) then
          (do f <- os_OpenFile file;
           do! file_Write f salt;
           do! file_Write f nonce;
           do! file_Write f (gcm_seal c nonce blob);
           do! zero_local "blob";
           do! zero_local "key";
           ret tt)
            (with_trace (trace m1 ++ [CallSeal c nonce blob])
               (with_entropy (drop 12 (drop 16 (entropy m))) m2))
        else (Err ErrRand, m2)
      | Err e => (Err e, m2)
      | Panic => (Panic, m2)
      end
    end
  else (Err ErrRand, m0).
Proof.
  unfold save, saveToFile. cbv zeta.
  unfold derive, Seal.
  unfold bind at 1 2 3 4 5 6 7 8 9 10 11 12.
  unfold enter, get_store, local, rand_Read, emit, or_panic, lift, ret,
    cipher_NewGCM, NonceSize. msimpl.
  destruct (16 <=? length (entropy m)); [|done]. msimpl.
  destruct (deriveKey _ _ _) as [key|]; [|done]. msimpl.
  destruct (aes_NewCipher key) as [c|e|]; [|done..]. msimpl.
  destruct (Nat.leb_spec 12 (length (drop 16 (entropy m)))) as [He|He]; [|done].
  msimpl.
  assert ((length (take 12 (drop 16 (entropy m))) =? 12) = true) as ->.
  { apply Nat.eqb_eq. rewrite length_take. lia. }
  reflexivity.
Qed.

(** ... and from there on: [old] is the size of the file that is
    replaced, if there is one. *)
Lemma save_tail file (salt nonce ct blob key : list byte) m :
  frame m = <["key" := key]> (<["blob" := blob]> ∅) ->
  let n := length salt + length nonce + length ct in
  let written (old : nat) :=
    if decide (n <= free m + old) then
      (Ok tt,
       Machine (store m) (<[file := File (salt ++ nonce ++ ct)]> (files m))
         (free m + old - n) (entropy m)
         (<["key" := zero key]> (<["blob" := zero blob]> (frame m))) (trace m))
    else
      (Err (ErrIO file),
       with_files
         (<[file := File (take (free m + old) (salt ++ nonce ++ ct))]> (files m))
         0 m) in
  (do f <- os_OpenFile file;
   do! file_Write f salt;
   do! file_Write f nonce;
   do! file_Write f ct;
   do! zero_local "blob";
   do! zero_local "key";
   ret tt) m
  = match files m !! file with
    | Some Dir => (Err (ErrIO file), m)
    | Some (File b) => written (length b)
    | None => written 0
    end.
Proof.
  intros Hframe n written. unfold bind at 1. unfold os_OpenFile.
  assert (forall old fs,
             fs = <[file := File []]> (files m) ->
             (do! file_Write file salt;
              do! file_Write file nonce;
              do! file_Write file ct;
              do! zero_local "blob";
              do! zero_local "key";
              ret tt) (with_files fs (free m + old) m) = written old) as Hrun.
  { intros old fs ->. rewrite write3 by (msimpl; apply lookup_insert_eq).
    subst written n. msimpl.
    destruct (decide _) as [Hfit|Hfull].
    - unfold bind, zero_local, ret. msimpl. rewrite Hframe.
      rewrite lookup_insert_ne, lookup_insert_eq by done. msimpl.
      rewrite lookup_insert_ne, lookup_insert_eq by done. msimpl.
      rewrite insert_insert_eq.
      rewrite (insert_insert_ne _ "key" "blob") by done.
      rewrite insert_insert_eq. done.
    - unfold with_files. msimpl. by rewrite insert_insert_eq. }
  destruct (files m !! file) as [[b|]|] eqn:Hfile; [| done |].
  - by apply Hrun.
  - replace (free m) with (free m + 0) at 1 by lia. by apply Hrun.
Qed.

Lemma aes_NewCipher_32 key : length key = 32 -> aes_NewCipher key = Ok key.
Proof. unfold aes_NewCipher. by intros ->. Qed.

(** What a successful [saveToFile] has done. *)
Lemma save_inv file pass m m' :
  save file pass m = (Ok tt, m') ->
  let salt := take 16 (entropy m) in
  let nonce := take 12 (drop 16 (entropy m)) in
  let blob := json_Marshal (snapshot (store m)) in
  exists key,
    length salt = 16 /\ length nonce = 12
    /\ deriveKey hmac_sha512 (bytes_of pass) salt = Some key
    /\ files m' = <[file := File (salt ++ nonce ++ gcm_seal key nonce blob)]> (files m)
    /\ store m' = store m
    /\ frame m' !! "blob" = Some (zero blob)
    /\ frame m' !! "key" = Some (zero key)
    /\ trace m' = trace m ++ [CallDeriveKey (bytes_of pass) salt;
                              CallSeal key nonce blob].
Proof.
  rewrite save_prefix. cbv zeta.
  destruct (Nat.leb_spec 16 (length (entropy m))) as [He1|]; [|done].
  destruct (deriveKey _ _ _) as [key|] eqn:Hkey; [|done].
  destruct (aes_NewCipher_inv key _ eq_refl) as [[-> _]| ->]; [|done].
  destruct (Nat.leb_spec 12 (length (drop 16 (entropy m)))) as [He2|]; [|done].
  erewrite save_tail by (msimpl; reflexivity). msimpl.
  intros Hrun. exists key.
  split; [rewrite length_take; lia|]. split; [rewrite length_take; lia|].
  split; [done|].
  destruct (files m !! file) as [[b|]|]; [|done|];
    (destruct (decide _); [|done]); injection Hrun as <-; msimpl;
    repeat split; by rewrite <- app_assoc.
Qed.

(** When [saveToFile] succeeds: enough entropy, a derived key of 32 bytes,
    a path that is not a directory, and room on the device. *)
Lemma save_ok file pass m key :
  28 <= length (entropy m) ->
  deriveKey hmac_sha512 (bytes_of pass) (take 16 (entropy m)) = Some key ->
  length key = 32 ->
  files m !! file <> Some Dir ->
  28 + length (gcm_seal key (take 12 (drop 16 (entropy m)))
                 (json_Marshal (snapshot (store m))))
  <= free m + size_at m file ->
  exists m', save file pass m = (Ok tt, m').
Proof.
  intros He Hkey Hlen Hdir Hroom. rewrite save_prefix. cbv zeta.
  destruct (Nat.leb_spec 16 (length (entropy m))); [|lia].
  rewrite Hkey, (aes_NewCipher_32 key Hlen).
  destruct (Nat.leb_spec 12 (length (drop 16 (entropy m)))) as [|Hshort];
    [|rewrite length_drop in Hshort; lia].
  erewrite save_tail by (msimpl; reflexivity). msimpl.
  rewrite !length_take, length_drop.
  unfold size_at in Hroom.
  destruct (files m !! file) as [[b|]|]; [|done|];
    (rewrite decide_True by lia); by eexists.
Qed.

(** Saving onto a directory returns the error of [os.OpenFile], with the
    serialized state and the key still in their buffers. *)
Lemma save_dir file pass m key :
  files m !! file = Some Dir ->
  28 <= length (entropy m) ->
  deriveKey hmac_sha512 (bytes_of pass) (take 16 (entropy m)) = Some key ->
  length key = 32 ->
  exists m',
    save file pass m = (Err (ErrIO file), m')
    /\ frame m' !! "blob" = Some (json_Marshal (snapshot (store m)))
    /\ frame m' !! "key" = Some key
    /\ files m' = files m.
Proof.
  intros Hdir He Hkey Hlen. rewrite save_prefix. cbv zeta.
  destruct (Nat.leb_spec 16 (length (entropy m))); [|lia].
  rewrite Hkey, (aes_NewCipher_32 key Hlen).
  destruct (Nat.leb_spec 12 (length (drop 16 (entropy m)))) as [|Hshort];
    [|rewrite length_drop in Hshort; lia].
  erewrite save_tail by (msimpl; reflexivity). msimpl. rewrite Hdir.
  eexists. split; [reflexivity|]. msimpl.
  by rewrite lookup_insert_ne, !lookup_insert_eq.
Qed.

(** C7: a readable file of fewer than 28 bytes is refused as invalid with
    no call into the key derivation or the cipher, and a file of 28 bytes
    or more gets past the check: its first 16 bytes go to [deriveKey]. *)
Theorem load_rejects_short_files file pass m data :
  files m !! file = Some (File data) ->
  (length data < 28 ->
     (load file pass m).1 = Err ErrInvalidFile
     /\ trace (load file pass m).2 = trace m
     /\ store (load file pass m).2 = store m)
  /\ (28 <= length data ->
      (load file pass m).1 <> Err ErrInvalidFile
      /\ exists rest,
          trace (load file pass m).2
          = trace m ++ CallDeriveKey (bytes_of pass) (take 16 data) :: rest).
Proof.
  intros Hfile. split.
  - intros Hshort. by rewrite (load_short _ _ _ _ Hfile Hshort).
  - intros Hlong. rewrite (load_long _ _ _ _ Hfile Hlong). cbv zeta.
    change (slice 0 16 data) with (take 16 data).
    assert (forall (r : result unit) m' evs,
               r <> Err ErrInvalidFile ->
               trace m' = (trace m ++ [CallDeriveKey (bytes_of pass) (take 16 data)])
                          ++ evs ->
               (r, m').1 <> Err ErrInvalidFile
               /\ exists rest,
                   trace (r, m').2
                   = trace m ++ CallDeriveKey (bytes_of pass) (take 16 data) :: rest)
      as Hfin.
    { intros r m' evs Hr Ht. split; [done|]. exists evs.
      simpl. by rewrite Ht, <- app_assoc. }
    destruct (deriveKey _ _ _) as [key|];
      [|apply (Hfin _ _ []); [done|symmetry; apply app_nil_r]].
    destruct (aes_NewCipher_inv key _ eq_refl) as [[-> _]| ->];
      [|apply (Hfin _ _ []); [done|symmetry; apply app_nil_r]].
    destruct (gcm_open _ _ _) as [pt|]; [|by eapply Hfin].
    destruct (json_Unmarshal pt) as [mp|]; by eapply Hfin.
Qed.

(** What a successful [loadFromFile] has done. *)
Lemma load_ok_inv file pass m m' :
  load file pass m = (Ok tt, m') ->
  exists data key pt mp,
    files m !! file = Some (File data) /\ 28 <= length data
    /\ deriveKey hmac_sha512 (bytes_of pass) (take 16 data) = Some key
    /\ gcm_open key (take 12 (drop 16 data)) (drop 28 data) = Some pt
    /\ json_Unmarshal pt = Some mp
    /\ store m' = replace (store m) mp
    /\ frame m' !! "pt" = Some (zero pt)
    /\ frame m' !! "key" = Some (zero key).
Proof.
  destruct (files m !! file) as [[data|]|] eqn:Hfile.
  - destruct (le_lt_dec 28 (length data)) as [Hlong|Hshort].
    + rewrite (load_long _ _ _ _ Hfile Hlong). cbv zeta.
      change (slice 0 16 data) with (take 16 data).
      change (slice 16 28 data) with (take 12 (drop 16 data)).
      destruct (deriveKey _ _ _) as [key|] eqn:Hkey; [|discriminate].
      destruct (aes_NewCipher_inv key _ eq_refl) as [[-> _]| ->]; [|discriminate].
      destruct (gcm_open _ _ _) as [pt|] eqn:Hopen; [|discriminate].
      destruct (json_Unmarshal pt) as [mp|] eqn:Hjson; [|discriminate].
      intros Hrun. injection Hrun as <-.
      exists data, key, pt, mp. msimpl.
      do 6 (split; [done|]).
      split; [by rewrite lookup_insert_ne, lookup_insert_eq
             |by rewrite lookup_insert_eq].
    + rewrite (load_short _ _ _ _ Hfile Hshort). discriminate.
  - rewrite load_unreadable by (intros data; congruence). discriminate.
  - rewrite load_unreadable by (intros data; congruence). discriminate.
Qed.

(** Every way in which [loadFromFile] fails leaves the store alone. *)
Lemma load_store_cases file pass m :
  (load file pass m).1 = Ok tt \/ store (load file pass m).2 = store m.
Proof.
  destruct (files m !! file) as [[data|]|] eqn:Hfile.
  - destruct (le_lt_dec 28 (length data)) as [Hlong|Hshort].
    + rewrite (load_long _ _ _ _ Hfile Hlong). cbv zeta.
      destruct (deriveKey _ _ _) as [key|]; [|by right].
      destruct (aes_NewCipher key) as [c|e|]; [|by right..].
      destruct (gcm_open _ _ _) as [pt|]; [|by right].
      destruct (json_Unmarshal pt) as [mp|]; [by left|by right].
    + rewrite (load_short _ _ _ _ Hfile Hshort). by right.
  - rewrite load_unreadable by (intros data; congruence). by right.
  - rewrite load_unreadable by (intros data; congruence). by right.
Qed.

(** C2: whenever [loadFromFile] does not return nil, the store is what it
    was before the call; and when it returns nil, the file was read, it
    was long enough, the key was derived, the ciphertext opened and the
    plaintext parsed, and the store is the old one after [replace] with
    the parsed map. *)
Theorem failed_load_keeps_store file pass m :
  ((load file pass m).1 <> Ok tt -> store (load file pass m).2 = store m)
  /\ ((load file pass m).1 = Ok tt ->
      exists data key pt mp,
        files m !! file = Some (File data) /\ 28 <= length data
        /\ deriveKey hmac_sha512 (bytes_of pass) (take 16 data) = Some key
        /\ gcm_open key (take 12 (drop 16 data)) (drop 28 data) = Some pt
        /\ json_Unmarshal pt = Some mp
        /\ store (load file pass m).2 = replace (store m) mp).
Proof.
  split.
  - intros Hfail. by destruct (load_store_cases file pass m).
  - intros Hok. destruct (load file pass m) as [r m'] eqn:Hrun.
    simpl in Hok. subst r.
    destruct (load_ok_inv _ _ _ _ Hrun)
      as (data & key & pt & mp & H1 & H2 & H3 & H4 & H5 & H6 & _).
    by exists data, key, pt, mp.
Qed.

Section Laws.

(** HMAC-SHA512 returns 64 bytes, and opening what was sealed under the
    same 32-byte key and 12-byte nonce gives the plaintext back. *)
Hypothesis hmac_size : forall key data, length (hmac_sha512 key data) = 64.
Hypothesis gcm_open_seal : forall key nonce plaintext,
  length key = 32 -> length nonce = 12 ->
  gcm_open key nonce (gcm_seal key nonce plaintext) = Some plaintext.

Lemma file_split (salt nonce ct : list byte) :
  length salt = 16 -> length nonce = 12 ->
  28 <= length (salt ++ nonce ++ ct)
  /\ slice 0 16 (salt ++ nonce ++ ct) = salt
  /\ slice 16 28 (salt ++ nonce ++ ct) = nonce
  /\ drop 28 (salt ++ nonce ++ ct) = ct.
Proof.
  intros Hs Hn. unfold slice. rewrite !length_app.
  split; [lia|].
  split; [by rewrite drop_0, take_app_length'|].
  rewrite drop_app_length' by done.
  split; [by rewrite take_app_length'|].
  change 28 with (16 + 12). rewrite <- drop_drop.
  by rewrite drop_app_length', drop_app_length'.
Qed.

(** Loading what was just saved, into any store: the store becomes what
    the decoder makes of the encoded snapshot. *)
Lemma save_then_load file pass m m1 mp k2 :
  save file pass m = (Ok tt, m1) ->
  json_Unmarshal (json_Marshal (snapshot (store m))) = Some mp ->
  exists m2,
    load file pass (with_store (fun _ => k2) m1) = (Ok tt, m2)
    /\ store m2 = replace k2 mp.
Proof.
  intros Hsave Hcodec.
  destruct (save_inv _ _ _ _ Hsave)
    as (key & Hsalt & Hnonce & Hkey & Hfiles & _).
  destruct (file_split _ _
              (gcm_seal key (take 12 (drop 16 (entropy m)))
                 (json_Marshal (snapshot (store m)))) Hsalt Hnonce)
    as (Hlong & Hs & Hn & Hc).
  erewrite load_long; [|msimpl; rewrite Hfiles; apply lookup_insert_eq|done].
  cbv zeta. rewrite Hs, Hn, Hc, Hkey.
  pose proof (deriveKey_length _ _ _ _ hmac_size Hkey) as Hlen.
  rewrite (aes_NewCipher_32 key Hlen), gcm_open_seal, Hcodec by done.
  eexists. split; [reflexivity|]. done.
Qed.

(** With a codec that gives the snapshot back, the round trip is exact. *)
Lemma save_then_load_faithful file pass m m1 k2 :
  save file pass m = (Ok tt, m1) ->
  json_Unmarshal (json_Marshal (snapshot (store m))) = Some (snapshot (store m)) ->
  exists m2,
    load file pass (with_store (fun _ => k2) m1) = (Ok tt, m2)
    /\ store m2 = store m.
Proof.
  intros Hsave Hcodec.
  destruct (save_then_load _ _ _ _ _ k2 Hsave Hcodec) as (m2 & Hload & Hstore).
  exists m2. split; [done|]. by rewrite Hstore, replace_snapshot.
Qed.

End Laws.

End Snapshots.

(** ** The small instance satisfies the laws *)

Lemma Tiny_tag_length key nonce plaintext :
  length (Tiny.tag key nonce plaintext) = 16.
Proof. unfold Tiny.tag. rewrite length_take, Tiny_hmac_size. lia. Qed.

Lemma Tiny_seal_length key nonce plaintext :
  length (Tiny.seal key nonce plaintext) = length plaintext + 16.
Proof. unfold Tiny.seal. by rewrite length_app, Tiny_tag_length. Qed.

Lemma Tiny_open_seal key nonce plaintext :
  length key = 32 -> length nonce = 12 ->
  Tiny.open key nonce (Tiny.seal key nonce plaintext) = Some plaintext.
Proof.
  intros _ _. unfold Tiny.open. rewrite Tiny_seal_length.
  destruct (Nat.ltb_spec (length plaintext + 16) 16); [lia|].
  replace (length plaintext + 16 - 16) with (length plaintext) by lia.
  unfold Tiny.seal. rewrite take_app_length, drop_app_length.
  by rewrite decide_True.
Qed.

(** Saving from [process k fs] with the small instance succeeds when the
    path is free and the snapshot is small. *)
Lemma Tiny_save_ok k fs file pass :
  fs !! file = None ->
  length (json_Marshal (snapshot k)) <= 4000 ->
  exists m1,
    saveToFile Tiny.hmac Tiny.seal file pass (process k fs) = (Ok tt, m1).
Proof.
  intros Hfree Hsmall.
  destruct (deriveKey_total Tiny.hmac (bytes_of pass) (take 16 entropy32)
              Tiny_hmac_size) as (key & Hkey & Hlen).
  apply (save_ok Tiny.hmac Tiny.seal file pass (process k fs) key).
  - unfold process, entropy32. msimpl. simpl. lia.
  - exact Hkey.
  - exact Hlen.
  - unfold process. msimpl. by rewrite Hfree.
  - rewrite Tiny_seal_length. unfold size_at, process. msimpl.
    rewrite Hfree. lia.
Qed.

(** ** The snapshot file *)

(** C10: after a successful [saveToFile] the file is the 16 bytes of salt
    drawn first, the 12 bytes of nonce drawn next, and the sealed snapshot,
    with nothing before, between or after; and [loadFromFile] hands bytes
    0-15 of a file to [deriveKey] as the salt and bytes 16-27 and 28
    onward to [Open] as the nonce and the ciphertext. *)
Theorem snapshot_file_layout
    (hmac_sha512 : list byte -> list byte -> list byte)
    (gcm_seal : list byte -> list byte -> list byte -> list byte)
    (gcm_open : list byte -> list byte -> list byte -> option (list byte))
    (hmac_size : forall key data, length (hmac_sha512 key data) = 64)
    (file pass : string) (m : machine) :
  (forall m',
      saveToFile hmac_sha512 gcm_seal file pass m = (Ok tt, m') ->
      exists salt nonce key,
        salt = take 16 (entropy m) /\ length salt = 16
        /\ nonce = take 12 (drop 16 (entropy m)) /\ length nonce = 12
        /\ deriveKey hmac_sha512 (bytes_of pass) salt = Some key
        /\ files m' !! file
           = Some (File (salt ++ nonce
                         ++ gcm_seal key nonce (json_Marshal (snapshot (store m))))))
  /\ (forall salt nonce ct,
        files m !! file = Some (File (salt ++ nonce ++ ct)) ->
        length salt = 16 -> length nonce = 12 ->
        exists key,
          deriveKey hmac_sha512 (bytes_of pass) salt = Some key
          /\ trace (loadFromFile hmac_sha512 gcm_open file pass m).2
             = trace m ++ [CallDeriveKey (bytes_of pass) salt;
                           CallOpen key nonce ct]).
Proof.
  split.
  - intros m' Hsave.
    destruct (save_inv _ _ _ _ _ _ Hsave)
      as (key & Hsalt & Hnonce & Hkey & Hfiles & _).
    eexists _, _, key. repeat (split; [done|]).
    rewrite Hfiles. apply lookup_insert_eq.
  - intros salt nonce ct Hfile Hsalt Hnonce.
    destruct (deriveKey_total hmac_sha512 (bytes_of pass) salt hmac_size)
      as (key & Hkey & Hlen).
    exists key. split; [exact Hkey|].
    destruct (file_split salt nonce ct Hsalt Hnonce) as (Hlong & Hs & Hn & Hc).
    rewrite (load_long _ _ _ _ _ _ Hfile Hlong). cbv zeta.
    rewrite Hs, Hn, Hc, Hkey, (aes_NewCipher_32 key Hlen).
    destruct (gcm_open key nonce ct) as [pt|];
      [destruct (json_Unmarshal pt) as [mp|]|];
      msimpl; by rewrite <- app_assoc.
Qed.

Lemma snapshot_file_layout_witness :
  (exists m' salt nonce key,
      saveToFile Tiny.hmac Tiny.seal "db.bin" "secret"
        (process (set newKV "x" "42") ∅) = (Ok tt, m')
      /\ salt = bytes_of "0123456789abcdef" /\ nonce = bytes_of "ghijklmnopqr"
      /\ deriveKey Tiny.hmac (bytes_of "secret") salt = Some key
      /\ files m' !! "db.bin"
         = Some (File (salt ++ nonce
                       ++ Tiny.seal key nonce
                            (json_Marshal (snapshot (set newKV "x" "42"))))))
  /\ (exists key,
        deriveKey Tiny.hmac (bytes_of "secret") (bytes_of "0123456789abcdef")
        = Some key
        /\ trace (loadFromFile Tiny.hmac Tiny.open "db.bin" "secret"
                    (process newKV
                       {["db.bin" := File (bytes_of "0123456789abcdef"
                                           ++ bytes_of "ghijklmnopqr"
                                           ++ bytes_of "sealed")]})).2
           = [CallDeriveKey (bytes_of "secret") (bytes_of "0123456789abcdef");
              CallOpen key (bytes_of "ghijklmnopqr") (bytes_of "sealed")]).
Proof.
  split.
  - destruct (Tiny_save_ok (set newKV "x" "42") ∅ "db.bin" "secret")
      as [m' Hsave]; [reflexivity | vm_compute; lia |].
    destruct (proj1 (snapshot_file_layout Tiny.hmac Tiny.seal Tiny.open
                       Tiny_hmac_size "db.bin" "secret"
                       (process (set newKV "x" "42") ∅)) m' Hsave)
      as (salt & nonce & key & -> & _ & -> & _ & Hkey & Hfile).
    exists m', (bytes_of "0123456789abcdef"), (bytes_of "ghijklmnopqr"), key.
    split; [exact Hsave|]. split; [reflexivity|]. split; [reflexivity|].
    split; [exact Hkey | exact Hfile].
  - exact (proj2 (snapshot_file_layout Tiny.hmac Tiny.seal Tiny.open
                    Tiny_hmac_size "db.bin" "secret"
                    (process newKV
                       {["db.bin" := File (bytes_of "0123456789abcdef"
                                           ++ bytes_of "ghijklmnopqr"
                                           ++ bytes_of "sealed")]}))
             (bytes_of "0123456789abcdef") (bytes_of "ghijklmnopqr")
             (bytes_of "sealed") (lookup_singleton_eq _ _) eq_refl eq_refl).
Defined.

Lemma load_rejects_short_files_witness :
  ((loadFromFile Tiny.hmac Tiny.open "bad.bin" "123"
      (process newKV {["bad.bin" := File (bytes_of "short")]})).1
   = Err ErrInvalidFile
   /\ trace (loadFromFile Tiny.hmac Tiny.open "bad.bin" "123"
               (process newKV {["bad.bin" := File (bytes_of "short")]})).2 = []
   /\ store (loadFromFile Tiny.hmac Tiny.open "bad.bin" "123"
               (process newKV {["bad.bin" := File (bytes_of "short")]})).2 = newKV)
  /\ ((loadFromFile Tiny.hmac Tiny.open "db.bin" "123"
         (process newKV {["db.bin" := File (entropy32)]})).1
      <> Err ErrInvalidFile
      /\ exists rest,
          trace (loadFromFile Tiny.hmac Tiny.open "db.bin" "123"
                   (process newKV {["db.bin" := File (entropy32)]})).2
          = [] ++ CallDeriveKey (bytes_of "123") (take 16 entropy32) :: rest).
Proof.
  split.
  - exact (proj1 (load_rejects_short_files Tiny.hmac Tiny.open "bad.bin" "123"
                    (process newKV {["bad.bin" := File (bytes_of "short")]})
                    (bytes_of "short") (lookup_singleton_eq _ _))
             ltac:(vm_compute; lia)).
  - exact (proj2 (load_rejects_short_files Tiny.hmac Tiny.open "db.bin" "123"
                    (process newKV {["db.bin" := File entropy32]})
                    entropy32 (lookup_singleton_eq _ _))
             ltac:(vm_compute; lia)).
Defined.

Lemma failed_load_keeps_store_witness :
  store (loadFromFile Tiny.hmac Tiny.open "bad.bin" "123"
           (process (set newKV "a" "1")
              {["bad.bin" := File (bytes_of "short")]})).2
  = set newKV "a" "1".
Proof.
  apply (proj1 (failed_load_keeps_store Tiny.hmac Tiny.open "bad.bin" "123"
                  (process (set newKV "a" "1")
                     {["bad.bin" := File (bytes_of "short")]}))).
  rewrite (load_short Tiny.hmac Tiny.open "bad.bin" "123" _ (bytes_of "short"));
    [discriminate | apply lookup_singleton_eq | vm_compute; lia].
Defined.

(** ** The scenarios of the tests *)

(** [TestSetGetDel]. *)
Lemma scenario_set_get_del :
  get (set newKV "a" "1") "a" = ("1", true)
  /\ del (set newKV "a" "1") "a" = (true, newKV)
  /\ get (del (set newKV "a" "1") "a").2 "a" = ("", false).
Proof.
  split; [apply get_set_eq|]. split; [|apply get_del_eq].
  unfold del. rewrite data_set, lookup_insert_eq. f_equal.
Qed.

(** [TestSaveLoad], with the small instance: the store with x set to 42,
    saved under a password and loaded into a new store under the same. *)
Lemma scenario_save_load :
  exists m1 m2,
    saveToFile Tiny.hmac Tiny.seal "db.bin" "secret"
      (process (set newKV "x" "42") ∅) = (Ok tt, m1)
    /\ loadFromFile Tiny.hmac Tiny.open "db.bin" "secret"
         (with_store (fun _ => newKV) m1) = (Ok tt, m2)
    /\ store m2 = set newKV "x" "42".
Proof.
  destruct (Tiny_save_ok (set newKV "x" "42") ∅ "db.bin" "secret")
    as [m1 Hsave]; [reflexivity | vm_compute; lia |].
  destruct (save_then_load_faithful Tiny.hmac Tiny.seal Tiny.open
              Tiny_hmac_size Tiny_open_seal "db.bin" "secret"
              (process (set newKV "x" "42") ∅) m1 newKV Hsave)
    as (m2 & Hload & Hstore).
  { vm_compute. reflexivity. }
  exists m1, m2. split; [exact Hsave|]. split; [exact Hload | exact Hstore].
Qed.

(** ** Where the code falls short of its contract *)

Lemma replacement_differs : replacement <> invalid_utf8.
Proof. intros H. vm_compute in H. discriminate H. Qed.

Lemma codec_replaces_invalid_utf8 :
  json_Unmarshal (json_Marshal (snapshot (set newKV "k" invalid_utf8)))
  = Some {["k" := replacement]}.
Proof. vm_compute. reflexivity. Qed.

(** C1 fails on a value that is not UTF-8: [json.Marshal] writes each
    byte that is not part of a well-formed rune as the escape of U+FFFD.
    Whenever the store that maps k to the byte 0xFF is saved, loading the
    file under the same password succeeds and k is then mapped to the three
    bytes of U+FFFD. *)
Theorem save_load_replaces_invalid_utf8
    (hmac_sha512 : list byte -> list byte -> list byte)
    (gcm_seal : list byte -> list byte -> list byte -> list byte)
    (gcm_open : list byte -> list byte -> list byte -> option (list byte))
    (hmac_size : forall key data, length (hmac_sha512 key data) = 64)
    (gcm_open_seal : forall key nonce plaintext,
        length key = 32 -> length nonce = 12 ->
        gcm_open key nonce (gcm_seal key nonce plaintext) = Some plaintext)
    (file pass : string) (m m1 : machine) (k2 : kv) :
  store m = set newKV "k" invalid_utf8 ->
  saveToFile hmac_sha512 gcm_seal file pass m = (Ok tt, m1) ->
  exists m2,
    loadFromFile hmac_sha512 gcm_open file pass (with_store (fun _ => k2) m1)
    = (Ok tt, m2)
    /\ get (store m2) "k" = (replacement, true)
    /\ get (store m) "k" = (invalid_utf8, true)
    /\ replacement <> invalid_utf8.
Proof.
  intros Hstore Hsave.
  destruct (save_then_load hmac_sha512 gcm_seal gcm_open hmac_size gcm_open_seal
              file pass m m1 {["k" := replacement]} k2 Hsave)
    as (m2 & Hload & Hm2).
  { rewrite Hstore. exact codec_replaces_invalid_utf8. }
  exists m2. split; [exact Hload|]. split; [|split].
  - rewrite get_lookup, Hm2, data_replace, lookup_fmap, lookup_singleton_eq.
    cbn [fmap option_fmap option_map]. by rewrite string_of_bytes_of.
  - rewrite Hstore. apply get_set_eq.
  - exact replacement_differs.
Qed.

Lemma save_load_replaces_invalid_utf8_witness :
  exists m1 m2,
    saveToFile Tiny.hmac Tiny.seal "db.bin" "secret"
      (process (set newKV "k" invalid_utf8) ∅) = (Ok tt, m1)
    /\ loadFromFile Tiny.hmac Tiny.open "db.bin" "secret"
         (with_store (fun _ => newKV) m1) = (Ok tt, m2)
    /\ get (store m2) "k" = (replacement, true)
    /\ get (set newKV "k" invalid_utf8) "k" = (invalid_utf8, true)
    /\ replacement <> invalid_utf8.
Proof.
  destruct (Tiny_save_ok (set newKV "k" invalid_utf8) ∅ "db.bin" "secret")
    as [m1 Hsave]; [reflexivity | vm_compute; lia |].
  destruct (save_load_replaces_invalid_utf8 Tiny.hmac Tiny.seal Tiny.open
              Tiny_hmac_size Tiny_open_seal "db.bin" "secret"
              (process (set newKV "k" invalid_utf8) ∅) m1 newKV eq_refl Hsave)
    as (m2 & Hload & Hget & Hold & Hne).
  exists m1, m2.
  split; [exact Hsave|]. split; [exact Hload|]. split; [exact Hget|].
  split; [exact Hold | exact Hne].
Defined.

(** On success both functions leave their buffers zeroed. *)
Lemma success_zeroes_buffers
    (hmac_sha512 : list byte -> list byte -> list byte)
    (gcm_seal : list byte -> list byte -> list byte -> list byte)
    (gcm_open : list byte -> list byte -> list byte -> option (list byte))
    (file pass : string) (m m' : machine) :
  (saveToFile hmac_sha512 gcm_seal file pass m = (Ok tt, m') ->
   exists blob key,
     frame m' !! "blob" = Some (zero blob) /\ frame m' !! "key" = Some (zero key))
  /\ (loadFromFile hmac_sha512 gcm_open file pass m = (Ok tt, m') ->
      exists pt key,
        frame m' !! "pt" = Some (zero pt) /\ frame m' !! "key" = Some (zero key)).
Proof.
  split.
  - intros Hsave.
    destruct (save_inv _ _ _ _ _ _ Hsave) as (key & _ & _ & _ & _ & _ & Hb & Hk & _).
    eauto.
  - intros Hload.
    destruct (load_ok_inv _ _ _ _ _ _ Hload)
      as (data & key & pt & mp & _ & _ & _ & _ & _ & _ & Hpt & Hk).
    eauto.
Qed.

Lemma json_Marshal_not_zero m : json_Marshal m <> zero (json_Marshal m).
Proof.
  rewrite zero_replicate. unfold json_Marshal.
  change (bytes_of "{") with ["{"%char]. cbn [app length replicate].
  intros H. discriminate H.
Qed.

(** C4 fails on the error returns: they skip the two calls of [zero].
    Saving onto a directory returns the error of [os.OpenFile] with the
    serialized state and the derived key still in their buffers, and the
    serialized state is never all zeros; loading a file whose ciphertext
    does not open returns the error of [Open] with the derived key still
    in its buffer. *)
Theorem error_returns_skip_zeroing
    (hmac_sha512 : list byte -> list byte -> list byte)
    (gcm_seal : list byte -> list byte -> list byte -> list byte)
    (gcm_open : list byte -> list byte -> list byte -> option (list byte))
    (hmac_size : forall key data, length (hmac_sha512 key data) = 64)
    (file pass : string) (m : machine) :
  (files m !! file = Some Dir -> 28 <= length (entropy m) ->
   exists key m',
     deriveKey hmac_sha512 (bytes_of pass) (take 16 (entropy m)) = Some key
     /\ saveToFile hmac_sha512 gcm_seal file pass m = (Err (ErrIO file), m')
     /\ frame m' !! "blob" = Some (json_Marshal (snapshot (store m)))
     /\ json_Marshal (snapshot (store m)) <> zero (json_Marshal (snapshot (store m)))
     /\ frame m' !! "key" = Some key)
  /\ (forall salt nonce ct key,
        files m !! file = Some (File (salt ++ nonce ++ ct)) ->
        length salt = 16 -> length nonce = 12 ->
        deriveKey hmac_sha512 (bytes_of pass) salt = Some key ->
        gcm_open key nonce ct = None ->
        exists m',
          loadFromFile hmac_sha512 gcm_open file pass m = (Err ErrAuth, m')
          /\ frame m' !! "key" = Some key).
Proof.
  split.
  - intros Hdir Hentropy.
    destruct (deriveKey_total hmac_sha512 (bytes_of pass) (take 16 (entropy m))
                hmac_size) as (key & Hkey & Hlen).
    destruct (save_dir hmac_sha512 gcm_seal file pass m key Hdir Hentropy Hkey Hlen)
      as (m' & Hsave & Hblob & Hk & _).
    exists key, m'. split; [exact Hkey|]. split; [exact Hsave|].
    split; [exact Hblob|]. split; [apply json_Marshal_not_zero | exact Hk].
  - intros salt nonce ct key Hfile Hsalt Hnonce Hkey Hopen.
    destruct (file_split salt nonce ct Hsalt Hnonce) as (Hlong & Hs & Hn & Hc).
    rewrite (load_long _ _ _ _ _ _ Hfile Hlong). cbv zeta.
    rewrite Hs, Hn, Hc, Hkey.
    rewrite (aes_NewCipher_32 key (deriveKey_length _ _ _ _ hmac_size Hkey)).
    rewrite Hopen. eexists. split; [reflexivity|].
    msimpl. apply lookup_insert_eq.
Qed.

Lemma error_returns_skip_zeroing_witness :
  (exists key m',
      deriveKey Tiny.hmac (bytes_of "pwd") (take 16 entropy32) = Some key
      /\ saveToFile Tiny.hmac Tiny.seal "snapshots" "pwd"
           (process newKV {["snapshots" := Dir]})
         = (Err (ErrIO "snapshots"), m')
      /\ frame m' !! "blob" = Some (bytes_of "{}")
      /\ bytes_of "{}" <> zero (bytes_of "{}")
      /\ frame m' !! "key" = Some key)
  /\ (exists key m',
        deriveKey Tiny.hmac (bytes_of "pwd") (take 16 entropy32) = Some key
        /\ loadFromFile Tiny.hmac Tiny.open "snapshots" "pwd"
             (process newKV {["snapshots" := File (take 28 entropy32)]})
           = (Err ErrAuth, m')
        /\ frame m' !! "key" = Some key).
Proof.
  split.
  - exact (proj1 (error_returns_skip_zeroing Tiny.hmac Tiny.seal Tiny.open
                    Tiny_hmac_size "snapshots" "pwd"
                    (process newKV {["snapshots" := Dir]}))
             (lookup_singleton_eq _ _) ltac:(vm_compute; lia)).
  - destruct (deriveKey_total Tiny.hmac (bytes_of "pwd") (take 16 entropy32)
                Tiny_hmac_size) as (key & Hkey & _).
    destruct (proj2 (error_returns_skip_zeroing Tiny.hmac Tiny.seal Tiny.open
                       Tiny_hmac_size "snapshots" "pwd"
                       (process newKV {["snapshots" := File (take 28 entropy32)]}))
                (take 16 entropy32) (take 12 (drop 16 entropy32)) [] key
                (lookup_singleton_eq _ _) eq_refl eq_refl Hkey eq_refl)
      as (m' & Hload & Hframe).
    exists key, m'. split; [exact Hkey|]. split; [exact Hload | exact Hframe].
Defined.

(** ** The line protocol *)

Section Protocol.

Variable hmac_sha512 : list byte -> list byte -> list byte.
Variable gcm_seal : list byte -> list byte -> list byte -> list byte.
Variable gcm_open : list byte -> list byte -> list byte -> option (list byte).
Variable unicode_upper : Z -> Z.

Let handle := handle_line hmac_sha512 gcm_seal gcm_open unicode_upper.

(** A SET line in terms of its fields. *)
Lemma handle_SET_fields line m verb rest :
  Fields (TrimSpace line) = verb :: rest ->
  ToUpper unicode_upper verb = "SET" ->
  handle line m
  = if length rest <? 2 then (Ok (Some "ERR"), m)
    else (Ok (Some "OK"),
          with_store (fun k => set k (nth 0 rest "") (Join (drop 1 rest) " ")) m).
Proof.
  intros Hcmd Hverb. unfold handle, handle_line. rewrite Hcmd, Hverb.
  change (String.eqb "SET" "SET") with true. cbv iota.
  change (length (verb :: rest) <? 3) with (length rest <? 2).
  destruct (length rest <? 2); reflexivity.
Qed.

End Protocol.

(** *** ASCII lines *)

Lemma DecodeRune_ascii b rest :
  (b2z b < 128)%Z -> DecodeRune (b :: rest) = (b2z b, 1).
Proof.
  intros Hb. unfold DecodeRune.
  destruct (Z.ltb_spec (b2z b) 128); [reflexivity | lia].
Qed.

Lemma runes_from_ascii (bs : list byte) fuel :
  Forall (fun b => (b2z b < 128)%Z) bs -> length bs <= fuel ->
  runes_from fuel bs = map asc bs.
Proof.
  intros Hbs. revert fuel. induction Hbs as [|b bs Hb _ IH]; intros fuel Hfuel.
  - by destruct fuel.
  - destruct fuel as [|fuel]; [simpl in Hfuel; lia|].
    cbn [runes_from]. rewrite (DecodeRune_ascii b bs Hb).
    cbn [firstn skipn map]. f_equal. apply IH. simpl in Hfuel. lia.
Qed.

Lemma ascii_space_lt b : ascii_space b = true -> (b2z b < 128)%Z.
Proof.
  unfold ascii_space. intros H.
  apply orb_true_iff in H as [H|H].
  - apply andb_true_iff in H as [_ H]. apply Z.leb_le in H. lia.
  - apply Z.eqb_eq in H. lia.
Qed.

Lemma word_byte_lt b : word_byte b = true -> (b2z b < 128)%Z.
Proof.
  unfold word_byte. intros H. apply andb_true_iff in H as [H _].
  by apply Z.ltb_lt in H.
Qed.

Lemma word_byte_not_space b : word_byte b = true -> ascii_space b = false.
Proof.
  unfold word_byte. intros H. apply andb_true_iff in H as [_ H].
  by apply negb_true_iff in H.
Qed.

Lemma is_space_asc b : (b2z b < 128)%Z -> is_space (asc b) = ascii_space b.
Proof.
  intros Hb. unfold is_space, asc, unicode_IsSpace, ascii_space. cbn [fst].
  destruct (Z.leb_spec (b2z b) 255); [|lia].
  destruct (Z.eqb_spec (b2z b) 133); [lia|].
  destruct (Z.eqb_spec (b2z b) 160); [lia|].
  by rewrite !orb_false_r.
Qed.

Lemma skip_spaces_blank (g rest : list byte) :
  Forall (fun b => ascii_space b = true) g ->
  skip_spaces (g ++ rest) = skip_spaces rest.
Proof. induction 1 as [|b g Hb _ IH]; [done|]. simpl. by rewrite Hb. Qed.

Lemma skip_spaces_word b (rest : list byte) :
  ascii_space b = false -> skip_spaces (b :: rest) = b :: rest.
Proof. intros Hb. simpl. by rewrite Hb. Qed.

Lemma Forall_skip_spaces (P : byte -> Prop) bs :
  Forall P bs -> Forall P (skip_spaces bs).
Proof.
  induction 1 as [|b bs Hb Hbs IH]; [constructor|].
  simpl. destruct (ascii_space b); [done | by constructor].
Qed.

Lemma drop_spaces_asc bs :
  Forall (fun b => (b2z b < 128)%Z) bs ->
  drop_spaces (map asc bs) = map asc (skip_spaces bs).
Proof.
  induction 1 as [|b bs Hb _ IH]; [done|].
  cbn [map drop_spaces skip_spaces]. rewrite (is_space_asc b Hb).
  by destruct (ascii_space b).
Qed.

Lemma join_runes_asc bs : join_runes (map asc bs) = string_of bs.
Proof.
  unfold join_runes. f_equal.
  induction bs as [|b bs IH]; [done|]. simpl. by rewrite IH.
Qed.

Lemma TrimSpace_ascii bs :
  Forall (fun b => (b2z b < 128)%Z) bs ->
  TrimSpace (string_of bs) = string_of (rev (skip_spaces (rev (skip_spaces bs)))).
Proof.
  intros Hbs. unfold TrimSpace, runes. rewrite bytes_of_string_of.
  rewrite runes_from_ascii by done.
  rewrite drop_spaces_asc, <- map_rev by done.
  rewrite drop_spaces_asc by (by apply List.Forall_rev, Forall_skip_spaces).
  by rewrite <- map_rev, join_runes_asc.
Qed.

Lemma Fields_ascii bs :
  Forall (fun b => (b2z b < 128)%Z) bs ->
  Fields (string_of bs) = map string_of (fields_from (map asc bs) None).
Proof.
  intros Hbs. unfold Fields, runes. rewrite bytes_of_string_of.
  by rewrite runes_from_ascii.
Qed.

(** How [fields_from] reads a word and a gap. *)
Lemma fields_word_some (w rest c : list byte) :
  Forall (fun b => word_byte b = true) w ->
  fields_from (map asc (w ++ rest)) (Some c)
  = fields_from (map asc rest) (Some (c ++ w)).
Proof.
  intros Hw. revert c. induction Hw as [|b w Hb _ IH]; intros c.
  - by rewrite app_nil_r.
  - cbn [app map fields_from].
    rewrite (is_space_asc b (word_byte_lt b Hb)), (word_byte_not_space b Hb).
    cbn [default asc snd]. rewrite IH. by rewrite <- app_assoc.
Qed.

Lemma fields_word_none (w rest : list byte) :
  Forall (fun b => word_byte b = true) w -> w <> [] ->
  fields_from (map asc (w ++ rest)) None = fields_from (map asc rest) (Some w).
Proof.
  intros Hw Hne. destruct Hw as [|b w Hb Hw]; [done|].
  cbn [app map fields_from].
  rewrite (is_space_asc b (word_byte_lt b Hb)), (word_byte_not_space b Hb).
  cbn [default asc snd app]. by rewrite fields_word_some.
Qed.

Lemma fields_gap_none (g rest : list byte) :
  Forall (fun b => ascii_space b = true) g ->
  fields_from (map asc (g ++ rest)) None = fields_from (map asc rest) None.
Proof.
  induction 1 as [|b g Hb _ IH]; [done|].
  cbn [app map fields_from].
  by rewrite (is_space_asc b (ascii_space_lt b Hb)), Hb.
Qed.

Lemma fields_gap_some (g rest w : list byte) :
  Forall (fun b => ascii_space b = true) g -> g <> [] ->
  fields_from (map asc (g ++ rest)) (Some w)
  = w :: fields_from (map asc rest) None.
Proof.
  intros Hg Hne. destruct Hg as [|b g Hb Hg]; [done|].
  cbn [app map fields_from].
  rewrite (is_space_asc b (ascii_space_lt b Hb)), Hb.
  by rewrite fields_gap_none.
Qed.

Lemma is_word_bytes w :
  is_word w = true ->
  bytes_of w <> [] /\ Forall (fun b => word_byte b = true) (bytes_of w).
Proof.
  unfold is_word. intros H. apply andb_true_iff in H as [Hne Hall]. split.
  - intros Hnil. apply negb_true_iff, String.eqb_neq in Hne. apply Hne.
    by rewrite <- (string_of_bytes_of w), Hnil.
  - apply List.Forall_forall. by apply forallb_forall.
Qed.

Lemma is_blank_bytes g :
  is_blank g = true -> Forall (fun b => ascii_space b = true) (bytes_of g).
Proof.
  unfold is_blank. intros H. apply List.Forall_forall. by apply forallb_forall.
Qed.

Lemma is_gap_bytes g :
  is_gap g = true ->
  bytes_of g <> [] /\ Forall (fun b => ascii_space b = true) (bytes_of g).
Proof.
  unfold is_gap. intros H. apply andb_true_iff in H as [Hne Hall]. split.
  - intros Hnil. apply negb_true_iff, String.eqb_neq in Hne. apply Hne.
    by rewrite <- (string_of_bytes_of g), Hnil.
  - by apply is_blank_bytes.
Qed.

Lemma fields_tail more (w : list byte) :
  well_spaced more ->
  fields_from (map asc (tail_bytes more)) (Some w)
  = w :: map (fun gw : string * string => bytes_of gw.2) more.
Proof.
  intros Hmore. revert w. induction Hmore as [|[g w'] more [Hg Hw] _ IH]; intros w.
  - reflexivity.
  - unfold tail_bytes. cbn [map concat fst snd].
    destruct (is_gap_bytes g Hg) as [Hgne Hgall].
    destruct (is_word_bytes w' Hw) as [Hwne Hwall].
    rewrite <- !app_assoc.
    rewrite fields_gap_some, fields_word_none by done.
    f_equal. apply IH.
Qed.

Lemma tail_ascii more :
  well_spaced more -> Forall (fun b => (b2z b < 128)%Z) (tail_bytes more).
Proof.
  induction 1 as [|[g w'] more [Hg Hw] _ IH]; [constructor|].
  unfold tail_bytes. cbn [map concat fst snd].
  rewrite <- app_assoc. apply Forall_app. split; [|apply Forall_app; split].
  - eapply Forall_impl; [apply (is_gap_bytes g Hg)|]. apply ascii_space_lt.
  - eapply Forall_impl; [apply (is_word_bytes w' Hw)|]. apply word_byte_lt.
  - exact IH.
Qed.

(** A word followed by well-spaced words ends in a byte that is not
    white space. *)
Lemma ends_in_word_byte (w : list byte) more :
  w <> [] -> Forall (fun b => word_byte b = true) w -> well_spaced more ->
  exists body b, w ++ tail_bytes more = body ++ [b] /\ ascii_space b = false.
Proof.
  intros Hne Hw Hmore. revert w Hne Hw.
  induction Hmore as [|[g w'] more [Hg Hw'] _ IH]; intros w Hne Hw.
  - destruct (exists_last Hne) as (body & b & ->).
    exists body, b. split; [by rewrite app_nil_r|].
    apply Forall_app in Hw as [_ Hb]. inversion Hb; subst.
    by apply word_byte_not_space.
  - destruct (is_word_bytes w' Hw') as [Hwne Hwall].
    destruct (IH (bytes_of w') Hwne Hwall) as (body & b & Heq & Hb).
    exists (w ++ bytes_of g ++ body), b. split; [|done].
    unfold tail_bytes in *. cbn [map concat fst snd].
    rewrite <- !app_assoc. do 2 f_equal. exact Heq.
Qed.

Lemma trim_line (lead w trail : list byte) more :
  Forall (fun b => ascii_space b = true) lead ->
  Forall (fun b => ascii_space b = true) trail ->
  w <> [] -> Forall (fun b => word_byte b = true) w -> well_spaced more ->
  rev (skip_spaces (rev (skip_spaces (lead ++ w ++ tail_bytes more ++ trail))))
  = w ++ tail_bytes more.
Proof.
  intros Hlead Htrail Hne Hw Hmore.
  rewrite skip_spaces_blank by done.
  destruct w as [|b0 w0]; [done|].
  assert (ascii_space b0 = false) as Hb0.
  { inversion Hw; subst. by apply word_byte_not_space. }
  cbn [app]. rewrite skip_spaces_word by done.
  change (b0 :: w0 ++ tail_bytes more ++ trail)
    with ((b0 :: w0) ++ tail_bytes more ++ trail).
  destruct (ends_in_word_byte (b0 :: w0) more Hne Hw Hmore)
    as (body & b & Heq & Hb).
  change (b0 :: w0 ++ tail_bytes more) with ((b0 :: w0) ++ tail_bytes more).
  rewrite app_assoc, Heq, !rev_app_distr.
  rewrite skip_spaces_blank by (by apply List.Forall_rev).
  cbn [rev app]. rewrite skip_spaces_word by done.
  change (b :: rev body) with ([b] ++ rev body).
  by rewrite rev_app_distr, rev_involutive.
Qed.

Lemma command_line_fields lead first more trail :
  is_blank lead = true -> is_word first = true -> well_spaced more ->
  is_blank trail = true ->
  Fields (TrimSpace (command_line lead first more trail))
  = first :: map snd more.
Proof.
  intros Hlead Hfirst Hmore Htrail.
  destruct (is_word_bytes first Hfirst) as [Hne Hw].
  pose proof (is_blank_bytes lead Hlead) as Hl.
  pose proof (is_blank_bytes trail Htrail) as Ht.
  pose proof (tail_ascii more Hmore) as Hta.
  assert (Forall (fun b => (b2z b < 128)%Z) (bytes_of first)) as Hwa.
  { eapply Forall_impl; [exact Hw|]. apply word_byte_lt. }
  unfold command_line.
  rewrite TrimSpace_ascii.
  2:{ repeat (apply Forall_app; split); try done.
      - eapply Forall_impl; [exact Hl|]. apply ascii_space_lt.
      - eapply Forall_impl; [exact Ht|]. apply ascii_space_lt. }
  rewrite trim_line by done.
  rewrite Fields_ascii by (by apply Forall_app).
  rewrite fields_word_none, fields_tail by done.
  cbn [map]. rewrite string_of_bytes_of. f_equal.
  rewrite map_map. apply map_ext. intros gw. apply string_of_bytes_of.
Qed.

Section SetCommand.

Variable hmac_sha512 : list byte -> list byte -> list byte.
Variable gcm_seal : list byte -> list byte -> list byte -> list byte.
Variable gcm_open : list byte -> list byte -> list byte -> option (list byte).
Variable unicode_upper : Z -> Z.

Let handle := handle_line hmac_sha512 gcm_seal gcm_open unicode_upper.

(** C3, amended: a line whose first field upper-cases to SET and that
    has at least two more fields is answered with OK and sets the first of
    them, the key, to the others joined by single spaces; with fewer it is
    answered with ERR and the process is as it was.  The fields are what
    white space separates: on an ASCII line made of a verb, a key and one
    or more further words, whatever white space surrounds the words, the
    key is set to the words after it with one space between them. *)
Theorem SET_stores_words_joined (m : machine) :
  (forall (line verb : string) (rest : list string),
      Fields (TrimSpace line) = verb :: rest ->
      ToUpper unicode_upper verb = "SET" ->
      (2 <= length rest ->
       handle line m
       = (Ok (Some "OK"),
          with_store (fun k => set k (nth 0 rest "") (Join (drop 1 rest) " ")) m))
      /\ (length rest < 2 -> handle line m = (Ok (Some "ERR"), m)))
  /\ (forall (lead verb gap key trail : string) (args : list (string * string)),
        is_blank lead = true -> is_word verb = true ->
        is_gap gap = true -> is_word key = true ->
        well_spaced args -> is_blank trail = true ->
        ToUpper unicode_upper verb = "SET" ->
        (args <> [] ->
         handle (command_line lead verb ((gap, key) :: args) trail) m
         = (Ok (Some "OK"),
            with_store (fun k => set k key (Join (map snd args) " ")) m))
        /\ handle (command_line lead verb [(gap, key)] trail) m
           = (Ok (Some "ERR"), m)
        /\ handle (command_line lead verb [] trail) m = (Ok (Some "ERR"), m)).
Proof.
  unfold handle. split.
  - intros line verb rest Hcmd Hset.
    rewrite (handle_SET_fields _ _ _ _ _ _ verb rest Hcmd Hset).
    split; intros Hlen.
    + by destruct (Nat.ltb_spec (length rest) 2); [lia|].
    + by destruct (Nat.ltb_spec (length rest) 2); [|lia].
  - intros lead verb gap key trail args Hlead Hverb Hgap Hkey Hargs Htrail Hset.
    split; [|split].
    + intros Hne.
      rewrite (handle_SET_fields _ _ _ _ _ _ verb (key :: map snd args));
        [|apply command_line_fields; try done; by constructor|done].
      destruct args as [|a args]; [done|]. reflexivity.
    + rewrite (handle_SET_fields _ _ _ _ _ _ verb [key]);
        [reflexivity|apply command_line_fields; try done|done].
      by repeat constructor.
    + rewrite (handle_SET_fields _ _ _ _ _ _ verb []);
        [reflexivity|apply command_line_fields; try done|done].
      constructor.
Qed.

End SetCommand.

Lemma SET_stores_words_joined_witness :
  handle_line Tiny.hmac Tiny.seal Tiny.open Tiny.upper set_line (process newKV ∅)
  = (Ok (Some "OK"), with_store (fun k => set k "k" "a b") (process newKV ∅)).
Proof.
  refine (proj1 (proj2 (SET_stores_words_joined Tiny.hmac Tiny.seal Tiny.open
                          Tiny.upper (process newKV ∅))
                   "" "SET" " " "k" newline [(" ", "a"); ("  ", "b")]
                   eq_refl eq_refl eq_refl eq_refl _ eq_refl eq_refl) _).
  - repeat constructor.
  - discriminate.
Defined.

(** C3 as stated fails where words are more than one space apart: the
    line [SET k a  b] stores [a b], not the remainder [a  b] of the line. *)
Lemma SET_collapses_white_space :
  (handle_line Tiny.hmac Tiny.seal Tiny.open Tiny.upper set_line
     (process newKV ∅)).1 = Ok (Some "OK")
  /\ get (store (handle_line Tiny.hmac Tiny.seal Tiny.open Tiny.upper set_line
                   (process newKV ∅)).2) "k" = ("a b", true)
  /\ rest_of_line set_line = "a  b"
  /\ (get (store (handle_line Tiny.hmac Tiny.seal Tiny.open Tiny.upper set_line
                    (process newKV ∅)).2) "k").1 <> rest_of_line set_line.
Proof.
  vm_compute. split; [reflexivity|]. split; [reflexivity|].
  split; [reflexivity|]. intros H. discriminate H.
Qed.

(** * Further properties of the code *)

(** ** The store *)

(** [zero] keeps the length of the buffer and leaves only zero bytes. *)
Theorem zero_clears_every_byte (b : list byte) :
  length (zero b) = length b /\ Forall (fun x => x = zero_byte) (zero b).
Proof.
  rewrite zero_replicate, length_replicate. split; [done|].
  apply Forall_forall. intros x Hx. by apply elem_of_replicate in Hx as [-> _].
Qed.

(** [snapshot] holds exactly what [get] returns, key by key. *)
Theorem snapshot_agrees_with_get (k : kv) (key : string) :
  get k key = match snapshot k !! key with
              | Some v => (v, true)
              | None => ("", false)
              end.
Proof.
  rewrite get_lookup, snapshot_fmap, lookup_fmap.
  by destruct (data k !! key).
Qed.

(** After [replace], the store holds the entries of the given map and
    nothing of what it held before. *)
Theorem replace_installs_exactly (k : kv) (inp : gmap string string) (key : string) :
  get (replace k inp) key = match inp !! key with
                            | Some v => (v, true)
                            | None => ("", false)
                            end.
Proof.
  rewrite get_lookup, data_replace, lookup_fmap.
  destruct (inp !! key) as [v|]; [|done].
  cbn [fmap option_fmap option_map]. by rewrite string_of_bytes_of.
Qed.

(** [snapshot] and [replace] undo each other. *)
Theorem snapshot_replace_round_trip (k0 k : kv) (inp : gmap string string) :
  snapshot (replace k0 inp) = inp /\ replace k0 (snapshot k) = k.
Proof.
  split; [|apply replace_snapshot].
  rewrite snapshot_fmap, data_replace, <- map_fmap_compose.
  rewrite <- (map_fmap_id inp) at 2.
  apply map_fmap_ext. intros i x _. apply string_of_bytes_of.
Qed.

(** [set] and [del] on one key do not touch another, and [set]s of
    different keys commute. *)
Theorem set_del_leave_other_keys (k : kv) (key key' val val' : string) :
  key <> key' ->
  get (set k key val) key' = get k key'
  /\ get (del k key).2 key' = get k key'
  /\ set (set k key val) key' val' = set (set k key' val') key val.
Proof.
  intros Hne. split; [by apply get_set_ne|]. split; [by apply get_del_ne|].
  apply kv_eq. rewrite !data_set. by apply insert_insert_ne.
Qed.

Lemma set_del_leave_other_keys_witness :
  get (set newKV "a" "1") "b" = get newKV "b"
  /\ get (del (set newKV "b" "2") "a").2 "b" = get (set newKV "b" "2") "b"
  /\ set (set newKV "a" "1") "b" "2" = set (set newKV "b" "2") "a" "1".
Proof.
  destruct (set_del_leave_other_keys newKV "a" "b" "1" "2") as (H1 & _ & H3);
    [discriminate|].
  destruct (set_del_leave_other_keys (set newKV "b" "2") "a" "b" "1" "2")
    as (_ & H2 & _); [discriminate|].
  split; [exact H1|]. split; [exact H2 | exact H3].
Defined.

(** A second [set] of a key overwrites the first, and [del] after [set]
    reports the key and leaves the store as [del] alone would. *)
Theorem set_overwrites_del_undoes (k : kv) (key v1 v2 : string) :
  set (set k key v1) key v2 = set k key v2
  /\ del (set k key v1) key = (true, (del k key).2).
Proof.
  split.
  - apply kv_eq. rewrite !data_set. apply insert_insert_eq.
  - unfold del at 1. rewrite data_set, lookup_insert_eq. f_equal.
    apply kv_eq. cbn [data]. by rewrite !delete_insert_eq, data_del.
Qed.

(** ** Key derivation *)

Lemma ceil_div_mono a b :
  (0 <= a <= b)%Z -> (RFC8018.ceil_div a hLen <= RFC8018.ceil_div b hLen)%Z.
Proof.
  intros Hab. unfold RFC8018.ceil_div, hLen.
  pose proof (Z.div_mod a 64 ltac:(lia)) as Ha.
  pose proof (Z.div_mod b 64 ltac:(lia)) as Hb.
  pose proof (Z.mod_pos_bound a 64 ltac:(lia)) as Hma.
  pose proof (Z.mod_pos_bound b 64 ltac:(lia)) as Hmb.
  destruct (Z.eqb_spec (a mod 64) 0), (Z.eqb_spec (b mod 64) 0); lia.
Qed.

Lemma ceil_div_nonneg a : (0 <= a)%Z -> (0 <= RFC8018.ceil_div a hLen)%Z.
Proof.
  intros Ha. unfold RFC8018.ceil_div, hLen.
  pose proof (Z.div_pos a 64 ltac:(lia) ltac:(lia)).
  destruct (Z.eqb_spec (a mod 64) 0); lia.
Qed.

(** A shorter key is the head of a longer one: the blocks do not depend on
    the length asked for. *)
Theorem shorter_key_is_prefix
    (hmac_sha512 : list byte -> list byte -> list byte)
    (hmac_size : forall key data, length (hmac_sha512 key data) = 64)
    (password salt : list byte) (iter n1 n2 : Z) :
  (0 <= n1 <= n2)%Z -> (n2 < 2 ^ 63 - 64)%Z ->
  exists dk1 dk2,
    pbkdf2sha512 hmac_sha512 password salt iter n1 = Some dk1
    /\ pbkdf2sha512 hmac_sha512 password salt iter n2 = Some dk2
    /\ dk1 = take (Z.to_nat n1) dk2
    /\ length dk1 = Z.to_nat n1.
Proof.
  intros H1 H2.
  rewrite !(pbkdf2sha512_blocks hmac_sha512 hmac_size) by lia.
  eexists _, _. split; [reflexivity|]. split; [reflexivity|].
  pose proof (ceil_div_mono n1 n2 H1) as Hmono.
  pose proof (ceil_div_nonneg n1 ltac:(lia)) as Hl1.
  pose proof (ceil_div_covers n1 ltac:(lia)) as Hcov.
  set (l1 := Z.to_nat (RFC8018.ceil_div n1 hLen)) in *.
  set (l2 := Z.to_nat (RFC8018.ceil_div n2 hLen)) in *.
  assert (l2 = l1 + (l2 - l1)) as Hsplit by lia.
  split.
  - rewrite take_take, Nat.min_l by lia.
    rewrite Hsplit, seq_app, map_app, concat_app.
    rewrite take_app_le; [reflexivity|].
    rewrite (length_blocks hmac_sha512 hmac_size), length_seq. lia.
  - rewrite length_take, (length_blocks hmac_sha512 hmac_size), length_seq. lia.
Qed.

Lemma shorter_key_is_prefix_witness :
  exists dk1 dk2,
    pbkdf2sha512 Tiny.hmac (bytes_of "pw") (bytes_of "salt") 3 32 = Some dk1
    /\ pbkdf2sha512 Tiny.hmac (bytes_of "pw") (bytes_of "salt") 3 100 = Some dk2
    /\ dk1 = take (Z.to_nat 32) dk2
    /\ length dk1 = Z.to_nat 32.
Proof.
  apply (shorter_key_is_prefix Tiny.hmac Tiny_hmac_size); lia.
Defined.

(** [pbkdf2sha512] checks neither argument.  An iteration count below 1
    runs the inner loop as often as 1 does, never; with it a key of up to
    64 bytes is the head of one HMAC of the salt and the block counter 1.
    A length of 0 gives the empty key, and a negative length panics at the
    final slice. *)
Theorem pbkdf2sha512_unchecked_arguments
    (hmac_sha512 : list byte -> list byte -> list byte)
    (hmac_size : forall key data, length (hmac_sha512 key data) = 64)
    (password salt : list byte) (iter dkLen : Z) :
  ((iter <= 1)%Z ->
   pbkdf2sha512 hmac_sha512 password salt iter dkLen
   = pbkdf2sha512 hmac_sha512 password salt 1 dkLen)
  /\ ((iter <= 1)%Z -> (0 <= dkLen <= 64)%Z ->
      pbkdf2sha512 hmac_sha512 password salt iter dkLen
      = Some (take (Z.to_nat dkLen)
                (hmacSHA512 hmac_sha512 password
                   (salt ++ [zero_byte; zero_byte; zero_byte; byte_of_int 1]))))
  /\ pbkdf2sha512 hmac_sha512 password salt iter 0 = Some []
  /\ ((dkLen < 0)%Z -> pbkdf2sha512 hmac_sha512 password salt iter dkLen = None).
Proof.
  assert (forall d, (iter <= 1)%Z ->
             pbkdf2sha512 hmac_sha512 password salt iter d
             = pbkdf2sha512 hmac_sha512 password salt 1 d) as Hiter.
  { intros d Hi. unfold pbkdf2sha512, block.
    replace (Z.to_nat (iter - 1)) with (Z.to_nat (1 - 1)) by lia. reflexivity. }
  split; [apply Hiter|]. split; [|split].
  - intros Hi Hd. rewrite Hiter by done.
    rewrite (pbkdf2sha512_blocks hmac_sha512 hmac_size) by lia.
    destruct (Z.eq_dec dkLen 0%Z) as [->|Hpos]; [reflexivity|].
    assert (RFC8018.ceil_div dkLen hLen = 1%Z) as ->.
    { unfold RFC8018.ceil_div, hLen.
      destruct (Z.eq_dec dkLen 64%Z) as [->|Hlt]; [reflexivity|].
      rewrite Z.mod_small, Z.div_small by lia.
      by destruct (Z.eqb_spec dkLen 0). }
    change (seq 1 (Z.to_nat 1)) with [1].
    cbn [List.map concat]. rewrite app_nil_r. reflexivity.
  - rewrite (pbkdf2sha512_blocks hmac_sha512 hmac_size) by lia. reflexivity.
  - intros Hneg. unfold pbkdf2sha512, slice_to.
    destruct (foldl _ _ _) as [dk|]; [|reflexivity]. cbn [mbind option_bind].
    by destruct (Z.leb_spec 0 dkLen); [lia|].
Qed.

Lemma pbkdf2sha512_unchecked_arguments_witness :
  pbkdf2sha512 Tiny.hmac (bytes_of "pw") (bytes_of "salt") (-5) 16
  = Some (take 16 (Tiny.hmac (bytes_of "pw")
                     (bytes_of "salt"
                      ++ [zero_byte; zero_byte; zero_byte; byte_of_int 1])))
  /\ pbkdf2sha512 Tiny.hmac (bytes_of "pw") (bytes_of "salt") 100000 (-1) = None.
Proof.
  split.
  - apply (proj1 (proj2 (pbkdf2sha512_unchecked_arguments Tiny.hmac Tiny_hmac_size
                           (bytes_of "pw") (bytes_of "salt") (-5) 16))); lia.
  - apply (proj2 (proj2 (proj2 (pbkdf2sha512_unchecked_arguments Tiny.hmac
                                  Tiny_hmac_size (bytes_of "pw") (bytes_of "salt")
                                  100000 (-1))))); lia.
Defined.

(** ** Saving and loading *)

Section SnapshotEffects.

Variable hmac_sha512 : list byte -> list byte -> list byte.
Variable gcm_seal : list byte -> list byte -> list byte -> list byte.
Variable gcm_open : list byte -> list byte -> list byte -> option (list byte).

Let save := saveToFile hmac_sha512 gcm_seal.
Let load := loadFromFile hmac_sha512 gcm_open.

(** [saveToFile] reads the store and writes one path. *)
Lemma save_frame file pass m :
  store (save file pass m).2 = store m
  /\ (forall other, other <> file ->
        files (save file pass m).2 !! other = files m !! other).
Proof.
  unfold save. rewrite save_prefix. cbv zeta.
  destruct (16 <=? length (entropy m)); [|done].
  destruct (deriveKey _ _ _) as [key|]; [|done].
  destruct (aes_NewCipher key) as [c|e|]; [|done..].
  destruct (12 <=? length (drop 16 (entropy m))); [|done].
  erewrite save_tail by (msimpl; reflexivity). msimpl.
  destruct (files m !! file) as [[b|]|]; [|done|];
    (destruct (decide _); msimpl;
     (split; [done|]); intros other Hne; by rewrite lookup_insert_ne).
Qed.

(** A successful [saveToFile] has drawn 28 random bytes. *)
Lemma save_entropy file pass m :
  (save file pass m).1 = Ok tt ->
  entropy (save file pass m).2 = drop 28 (entropy m).
Proof.
  unfold save. rewrite save_prefix. cbv zeta.
  destruct (16 <=? length (entropy m)); [|discriminate].
  destruct (deriveKey _ _ _) as [key|]; [|discriminate].
  destruct (aes_NewCipher key) as [c|e|]; [|discriminate..].
  destruct (12 <=? length (drop 16 (entropy m))); [|discriminate].
  erewrite save_tail by (msimpl; reflexivity). msimpl.
  destruct (files m !! file) as [[b|]|]; [|discriminate|];
    (destruct (decide _); [|discriminate]); intros _; msimpl;
    by rewrite drop_drop.
Qed.

(** [loadFromFile] writes nothing but the store. *)
Lemma load_frame file pass m :
  files (load file pass m).2 = files m
  /\ free (load file pass m).2 = free m
  /\ entropy (load file pass m).2 = entropy m.
Proof.
  unfold load.
  destruct (files m !! file) as [[data|]|] eqn:Hfile.
  - destruct (le_lt_dec 28 (length data)) as [Hlong|Hshort].
    + rewrite (load_long _ _ _ _ _ _ Hfile Hlong). cbv zeta.
      destruct (deriveKey _ _ _) as [key|]; [|done].
      destruct (aes_NewCipher key) as [c|e|]; [|done..].
      destruct (gcm_open _ _ _) as [pt|]; [|done].
      by destruct (json_Unmarshal pt) as [mp|].
    + by rewrite (load_short _ _ _ _ _ _ Hfile Hshort).
  - by rewrite load_unreadable by (intros data; congruence).
  - by rewrite load_unreadable by (intros data; congruence).
Qed.

Section Sized.

Hypothesis hmac_size : forall key data, length (hmac_sha512 key data) = 64.

(** With a 64-byte HMAC the key has 32 bytes: no panic, no key-size
    error. *)
Lemma save_outcomes file pass m :
  (save file pass m).1 = Ok tt
  \/ (save file pass m).1 = Err ErrRand
  \/ (save file pass m).1 = Err (ErrIO file).
Proof.
  unfold save. rewrite save_prefix. cbv zeta.
  destruct (16 <=? length (entropy m)); [|by right; left].
  destruct (deriveKey_total hmac_sha512 (bytes_of pass) (take 16 (entropy m))
              hmac_size) as (key & -> & Hlen).
  rewrite (aes_NewCipher_32 key Hlen).
  destruct (12 <=? length (drop 16 (entropy m))); [|by right; left].
  erewrite save_tail by (msimpl; reflexivity). msimpl.
  destruct (files m !! file) as [[b|]|]; [|by right; right|];
    (destruct (decide _); [by left|by right; right]).
Qed.

Lemma load_outcomes file pass m :
  (load file pass m).1 = Ok tt
  \/ (load file pass m).1 = Err (ErrIO file)
  \/ (load file pass m).1 = Err ErrInvalidFile
  \/ (load file pass m).1 = Err ErrAuth
  \/ (load file pass m).1 = Err ErrJSON.
Proof.
  unfold load.
  destruct (files m !! file) as [[data|]|] eqn:Hfile.
  - destruct (le_lt_dec 28 (length data)) as [Hlong|Hshort].
    + rewrite (load_long _ _ _ _ _ _ Hfile Hlong). cbv zeta.
      destruct (deriveKey_total hmac_sha512 (bytes_of pass) (slice 0 16 data)
                  hmac_size) as (key & -> & Hlen).
      rewrite (aes_NewCipher_32 key Hlen).
      destruct (gcm_open _ _ _) as [pt|]; [|by do 3 right; left].
      destruct (json_Unmarshal pt) as [mp|]; [by left|by do 4 right].
    + rewrite (load_short _ _ _ _ _ _ Hfile Hshort). by do 2 right; left.
  - rewrite load_unreadable by (intros data; congruence). by right; left.
  - rewrite load_unreadable by (intros data; congruence). by right; left.
Qed.


(** Saving onto a directory stops at [os.OpenFile]. *)
Lemma save_dir_effects file pass m :
  files m !! file = Some Dir ->
  (save file pass m).1
  = Err (if 28 <=? length (entropy m) then ErrIO file else ErrRand)
  /\ files (save file pass m).2 = files m
  /\ free (save file pass m).2 = free m.
Proof.
  intros Hdir. unfold save. rewrite save_prefix. cbv zeta.
  destruct (Nat.leb_spec 16 (length (entropy m))) as [H16|H16].
  2:{ by destruct (Nat.leb_spec 28 (length (entropy m))); [lia|]. }
  destruct (deriveKey_total hmac_sha512 (bytes_of pass) (take 16 (entropy m))
              hmac_size) as (key & -> & Hlen).
  rewrite (aes_NewCipher_32 key Hlen). rewrite length_drop.
  destruct (Nat.leb_spec 12 (length (entropy m) - 16)) as [H12|H12].
  2:{ by destruct (Nat.leb_spec 28 (length (entropy m))); [lia|]. }
  erewrite save_tail by (msimpl; reflexivity). msimpl. rewrite Hdir.
  by destruct (Nat.leb_spec 28 (length (entropy m))); [|lia].
Qed.

(** Saving over a file on a device that cannot hold the new snapshot. *)
Lemma save_full_device file pass m old key :
  files m !! file = Some (File old) ->
  28 <= length (entropy m) ->
  deriveKey hmac_sha512 (bytes_of pass) (take 16 (entropy m)) = Some key ->
  let written := take 16 (entropy m) ++ take 12 (drop 16 (entropy m))
                 ++ gcm_seal key (take 12 (drop 16 (entropy m)))
                      (json_Marshal (snapshot (store m))) in
  free m + length old < length written ->
  (save file pass m).1 = Err (ErrIO file)
  /\ files (save file pass m).2
     = <[file := File (take (free m + length old) written)]> (files m)
  /\ free (save file pass m).2 = 0.
Proof.
  intros Hfile He Hkey written Hfull. unfold save. rewrite save_prefix. cbv zeta.
  destruct (Nat.leb_spec 16 (length (entropy m))); [|lia].
  rewrite Hkey.
  rewrite (aes_NewCipher_32 key (deriveKey_length _ _ _ _ hmac_size Hkey)).
  rewrite length_drop.
  destruct (Nat.leb_spec 12 (length (entropy m) - 16)); [|lia].
  erewrite save_tail by (msimpl; reflexivity). msimpl. rewrite Hfile.
  subst written. rewrite !length_app in Hfull.
  rewrite decide_False by lia. done.
Qed.

End Sized.

(** How [loadFromFile] ends, and the store it leaves on success, depend on
    the file alone. *)
Lemma load_depends_on_file file pass m1 m2 :
  files m1 !! file = files m2 !! file ->
  (load file pass m1).1 = (load file pass m2).1
  /\ ((load file pass m2).1 = Ok tt ->
      store (load file pass m1).2 = store (load file pass m2).2).
Proof.
  intros Hsame. unfold load.
  destruct (files m2 !! file) as [[data|]|] eqn:Hfile.
  - destruct (le_lt_dec 28 (length data)) as [Hlong|Hshort].
    + rewrite (load_long _ _ _ _ m1 data Hsame Hlong).
      rewrite (load_long _ _ _ _ m2 data Hfile Hlong).
      cbv zeta.
      destruct (deriveKey _ _ _) as [key|]; [|done].
      destruct (aes_NewCipher key) as [c|e|]; [|done..].
      destruct (gcm_open _ _ _) as [pt|]; [|done].
      destruct (json_Unmarshal pt) as [mp|]; [|done].
      split; [done|]. intros _. msimpl.
      apply kv_eq. by rewrite !data_replace.
    + rewrite (load_short _ _ _ _ m1 data Hsame Hshort).
      by rewrite (load_short _ _ _ _ m2 data Hfile Hshort).
  - rewrite !load_unreadable by (intros data; congruence). done.
  - rewrite !load_unreadable by (intros data; congruence). done.
Qed.

End SnapshotEffects.

(** [saveToFile] only reads the store and writes no path but its own,
    and when it returns nil it has drawn 28 random bytes; [loadFromFile]
    writes no file, takes no room on the device and draws no random bytes.
    Apart from the 28 bytes this holds however the calls end. *)
Theorem save_and_load_keep_to_their_target
    (hmac_sha512 : list byte -> list byte -> list byte)
    (gcm_seal : list byte -> list byte -> list byte -> list byte)
    (gcm_open : list byte -> list byte -> list byte -> option (list byte))
    (file pass : string) (m : machine) :
  store (saveToFile hmac_sha512 gcm_seal file pass m).2 = store m
  /\ (forall other, other <> file ->
        files (saveToFile hmac_sha512 gcm_seal file pass m).2 !! other
        = files m !! other)
  /\ ((saveToFile hmac_sha512 gcm_seal file pass m).1 = Ok tt ->
      entropy (saveToFile hmac_sha512 gcm_seal file pass m).2
      = drop 28 (entropy m))
  /\ files (loadFromFile hmac_sha512 gcm_open file pass m).2 = files m
  /\ free (loadFromFile hmac_sha512 gcm_open file pass m).2 = free m
  /\ entropy (loadFromFile hmac_sha512 gcm_open file pass m).2 = entropy m.
Proof.
  destruct (save_frame hmac_sha512 gcm_seal file pass m) as [Hs Hf].
  destruct (load_frame hmac_sha512 gcm_open file pass m) as (H1 & H2 & H3).
  split; [exact Hs|]. split; [exact Hf|].
  split; [exact (save_entropy hmac_sha512 gcm_seal file pass m)|].
  split; [exact H1|]. split; [exact H2 | exact H3].
Qed.

(** With a 64-byte HMAC neither call panics, and the errors they return
    are those of the random source and the file system for [saveToFile]
    and those of the file system, the length check, the authentication and
    the parser for [loadFromFile]: the key always has a size that AES
    accepts. *)
Theorem save_and_load_outcomes
    (hmac_sha512 : list byte -> list byte -> list byte)
    (gcm_seal : list byte -> list byte -> list byte -> list byte)
    (gcm_open : list byte -> list byte -> list byte -> option (list byte))
    (hmac_size : forall key data, length (hmac_sha512 key data) = 64)
    (file pass : string) (m : machine) :
  ((saveToFile hmac_sha512 gcm_seal file pass m).1 = Ok tt
   \/ (saveToFile hmac_sha512 gcm_seal file pass m).1 = Err ErrRand
   \/ (saveToFile hmac_sha512 gcm_seal file pass m).1 = Err (ErrIO file))
  /\ ((loadFromFile hmac_sha512 gcm_open file pass m).1 = Ok tt
      \/ (loadFromFile hmac_sha512 gcm_open file pass m).1 = Err (ErrIO file)
      \/ (loadFromFile hmac_sha512 gcm_open file pass m).1 = Err ErrInvalidFile
      \/ (loadFromFile hmac_sha512 gcm_open file pass m).1 = Err ErrAuth
      \/ (loadFromFile hmac_sha512 gcm_open file pass m).1 = Err ErrJSON).
Proof.
  split.
  - exact (save_outcomes hmac_sha512 gcm_seal hmac_size file pass m).
  - exact (load_outcomes hmac_sha512 gcm_open hmac_size file pass m).
Qed.

Lemma save_and_load_outcomes_witness :
  ((saveToFile Tiny.hmac Tiny.seal "db.bin" "secret" (process newKV ∅)).1 = Ok tt
   \/ (saveToFile Tiny.hmac Tiny.seal "db.bin" "secret" (process newKV ∅)).1
      = Err ErrRand
   \/ (saveToFile Tiny.hmac Tiny.seal "db.bin" "secret" (process newKV ∅)).1
      = Err (ErrIO "db.bin"))
  /\ ((loadFromFile Tiny.hmac Tiny.open "db.bin" "secret" (process newKV ∅)).1
      = Ok tt
      \/ (loadFromFile Tiny.hmac Tiny.open "db.bin" "secret" (process newKV ∅)).1
         = Err (ErrIO "db.bin")
      \/ (loadFromFile Tiny.hmac Tiny.open "db.bin" "secret" (process newKV ∅)).1
         = Err ErrInvalidFile
      \/ (loadFromFile Tiny.hmac Tiny.open "db.bin" "secret" (process newKV ∅)).1
         = Err ErrAuth
      \/ (loadFromFile Tiny.hmac Tiny.open "db.bin" "secret" (process newKV ∅)).1
         = Err ErrJSON).
Proof.
  exact (save_and_load_outcomes Tiny.hmac Tiny.seal Tiny.open Tiny_hmac_size
           "db.bin" "secret" (process newKV ∅)).
Defined.

(** Saving to a path that names a directory returns an error (that of
    [os.OpenFile], or that of the random source when it gave out before)
    and leaves the file system as it was. *)
Theorem save_onto_directory_changes_nothing
    (hmac_sha512 : list byte -> list byte -> list byte)
    (gcm_seal : list byte -> list byte -> list byte -> list byte)
    (hmac_size : forall key data, length (hmac_sha512 key data) = 64)
    (file pass : string) (m : machine) :
  files m !! file = Some Dir ->
  (saveToFile hmac_sha512 gcm_seal file pass m).1
  = Err (if 28 <=? length (entropy m) then ErrIO file else ErrRand)
  /\ files (saveToFile hmac_sha512 gcm_seal file pass m).2 = files m
  /\ free (saveToFile hmac_sha512 gcm_seal file pass m).2 = free m.
Proof. apply save_dir_effects, hmac_size. Qed.

Lemma save_onto_directory_changes_nothing_witness :
  (saveToFile Tiny.hmac Tiny.seal "snapshots" "pwd"
     (process newKV {["snapshots" := Dir]})).1
  = Err (ErrIO "snapshots")
  /\ files (saveToFile Tiny.hmac Tiny.seal "snapshots" "pwd"
              (process newKV {["snapshots" := Dir]})).2
     = {["snapshots" := Dir]}
  /\ free (saveToFile Tiny.hmac Tiny.seal "snapshots" "pwd"
             (process newKV {["snapshots" := Dir]})).2 = 4096.
Proof.
  exact (save_onto_directory_changes_nothing Tiny.hmac Tiny.seal Tiny_hmac_size
           "snapshots" "pwd" (process newKV {["snapshots" := Dir]})
           (lookup_singleton_eq _ _)).
Defined.

(** Saving is not atomic.  The file is emptied when it is opened, before
    anything is written: when the device cannot hold the new snapshot next
    to what the old file gives back, the call returns the error of the
    write, and the path then holds the part of the new snapshot that did
    fit, not the old snapshot. *)
Theorem failed_write_loses_the_old_snapshot
    (hmac_sha512 : list byte -> list byte -> list byte)
    (gcm_seal : list byte -> list byte -> list byte -> list byte)
    (hmac_size : forall key data, length (hmac_sha512 key data) = 64)
    (file pass : string) (m : machine) (old : list byte) :
  files m !! file = Some (File old) ->
  28 <= length (entropy m) ->
  exists key written,
    deriveKey hmac_sha512 (bytes_of pass) (take 16 (entropy m)) = Some key
    /\ written = take 16 (entropy m) ++ take 12 (drop 16 (entropy m))
                 ++ gcm_seal key (take 12 (drop 16 (entropy m)))
                      (json_Marshal (snapshot (store m)))
    /\ (free m + length old < length written ->
        (saveToFile hmac_sha512 gcm_seal file pass m).1 = Err (ErrIO file)
        /\ files (saveToFile hmac_sha512 gcm_seal file pass m).2 !! file
           = Some (File (take (free m + length old) written))
        /\ length (take (free m + length old) written) < length written).
Proof.
  intros Hfile He.
  destruct (deriveKey_total hmac_sha512 (bytes_of pass) (take 16 (entropy m))
              hmac_size) as (key & Hkey & _).
  eexists key, _. split; [exact Hkey|]. split; [reflexivity|].
  intros Hfull.
  destruct (save_full_device hmac_sha512 gcm_seal hmac_size file pass m old key
              Hfile He Hkey Hfull) as (Hr & Hf & _).
  split; [exact Hr|]. split.
  - rewrite Hf. apply lookup_insert_eq.
  - rewrite length_take. lia.
Qed.

Lemma failed_write_loses_the_old_snapshot_witness :
  exists key written,
    deriveKey Tiny.hmac (bytes_of "pwd") (take 16 entropy32) = Some key
    /\ written = take 16 entropy32 ++ take 12 (drop 16 entropy32)
                 ++ Tiny.seal key (take 12 (drop 16 entropy32))
                      (json_Marshal (snapshot newKV))
    /\ (10 + length (bytes_of "old snapshot") < length written ->
        (saveToFile Tiny.hmac Tiny.seal "db.bin" "pwd"
           (Machine newKV {["db.bin" := File (bytes_of "old snapshot")]}
              10 entropy32 ∅ [])).1 = Err (ErrIO "db.bin")
        /\ files (saveToFile Tiny.hmac Tiny.seal "db.bin" "pwd"
                    (Machine newKV {["db.bin" := File (bytes_of "old snapshot")]}
                       10 entropy32 ∅ [])).2 !! "db.bin"
           = Some (File (take (10 + length (bytes_of "old snapshot")) written))
        /\ length (take (10 + length (bytes_of "old snapshot")) written)
           < length written).
Proof.
  exact (failed_write_loses_the_old_snapshot Tiny.hmac Tiny.seal Tiny_hmac_size
           "db.bin" "pwd"
           (Machine newKV {["db.bin" := File (bytes_of "old snapshot")]}
              10 entropy32 ∅ [])
           (bytes_of "old snapshot") (lookup_singleton_eq _ _)
           ltac:(vm_compute; lia)).
Defined.

(** [loadFromFile] replaces the store as a whole: how the call ends and
    the store it leaves on success are the same whatever the store held
    before, and a second load of the same file changes nothing more. *)
Theorem load_replaces_the_whole_store
    (hmac_sha512 : list byte -> list byte -> list byte)
    (gcm_open : list byte -> list byte -> list byte -> option (list byte))
    (file pass : string) (m : machine) (k2 : kv) :
  (loadFromFile hmac_sha512 gcm_open file pass (with_store (fun _ => k2) m)).1
  = (loadFromFile hmac_sha512 gcm_open file pass m).1
  /\ ((loadFromFile hmac_sha512 gcm_open file pass m).1 = Ok tt ->
      store (loadFromFile hmac_sha512 gcm_open file pass
               (with_store (fun _ => k2) m)).2
      = store (loadFromFile hmac_sha512 gcm_open file pass m).2
      /\ (loadFromFile hmac_sha512 gcm_open file pass
            (loadFromFile hmac_sha512 gcm_open file pass m).2).1 = Ok tt
      /\ store (loadFromFile hmac_sha512 gcm_open file pass
                  (loadFromFile hmac_sha512 gcm_open file pass m).2).2
         = store (loadFromFile hmac_sha512 gcm_open file pass m).2).
Proof.
  destruct (load_depends_on_file hmac_sha512 gcm_open file pass
              (with_store (fun _ => k2) m) m eq_refl) as [Hr Hs].
  split; [exact Hr|]. intros Hok. split; [exact (Hs Hok)|].
  destruct (load_frame hmac_sha512 gcm_open file pass m) as (Hfiles & _ & _).
  destruct (load_depends_on_file hmac_sha512 gcm_open file pass
              (loadFromFile hmac_sha512 gcm_open file pass m).2 m)
    as [Hr2 Hs2]; [by rewrite Hfiles|].
  split; [by rewrite Hr2 | exact (Hs2 Hok)].
Qed.

(** ** The codec on UTF-8 *)

(** *** Bytes as numbers *)

Lemma b2z_range b : (0 <= b2z b < 256)%Z.
Proof. destruct b as [[] [] [] [] [] [] [] []]; vm_compute; split; congruence. Qed.

Lemma byte_of_int_b2z b : byte_of_int (b2z b) = b.
Proof. destruct b as [[] [] [] [] [] [] [] []]; reflexivity. Qed.

Lemma byte_of_int_eq x b : x = b2z b -> byte_of_int x = b.
Proof. intros ->. apply byte_of_int_b2z. Qed.

Lemma land_shiftl_low h n c :
  (0 <= n)%Z -> (0 <= c < 2 ^ n)%Z -> Z.land (Z.shiftl h n) c = 0%Z.
Proof.
  intros Hn Hc. apply Z.bits_inj'. intros i Hi.
  rewrite Z.land_spec, Z.bits_0.
  destruct (Z.ltb_spec i n).
  - by rewrite Z.shiftl_spec_low.
  - rewrite <- (Z.mod_small c (2 ^ n)) by lia.
    rewrite Z.mod_pow2_bits_high by lia. apply andb_false_r.
Qed.

(** Bits put next to each other add up. *)
Lemma lor_shiftl h n c :
  (0 <= n)%Z -> (0 <= c < 2 ^ n)%Z ->
  Z.lor (Z.shiftl h n) c = (h * 2 ^ n + c)%Z.
Proof.
  intros Hn Hc.
  pose proof (Z.add_lor_land (Z.shiftl h n) c) as H.
  rewrite land_shiftl_low in H by lia.
  rewrite Z.shiftl_mul_pow2 in H |- * by lia. lia.
Qed.

Lemma cont_bits_mod b : cont_bits b = (b2z b mod 64)%Z.
Proof. unfold cont_bits. change 63%Z with (Z.ones 6). by rewrite Z.land_ones. Qed.

Lemma in_range_spec lo hi b :
  in_range lo hi b = true <-> (lo <= b2z b <= hi)%Z.
Proof. unfold in_range. rewrite andb_true_iff, !Z.leb_le. tauto. Qed.

(** The bytes [EncodeRune] writes, by the size of the rune. *)
Lemma EncodeRune_2 (r : Z) :
  (128 <= r <= 2047)%Z ->
  EncodeRune r = [byte_of_int (192 + r / 64); byte_of_int (128 + r mod 64)].
Proof.
  intros Hr. unfold EncodeRune.
  destruct (Z.ltb_spec r 0); [lia|]. destruct (Z.ltb_spec 1114111 r); [lia|].
  destruct (Z.leb_spec 55296 r); [lia|]. cbn [orb andb].
  destruct (Z.leb_spec r 127); [lia|]. destruct (Z.leb_spec r 2047); [|lia].
  rewrite Z.shiftr_0_r, Z.shiftr_div_pow2 by lia.
  change 63%Z with (Z.ones 6). rewrite Z.land_ones by lia.
  change 192%Z with (Z.shiftl 3 6) at 1. change 128%Z with (Z.shiftl 2 6) at 1.
  rewrite !lor_shiftl; [reflexivity|lia| |lia|].
  - apply Z.mod_pos_bound. lia.
  - change (2 ^ 6)%Z with 64%Z. Z.div_mod_to_equations. lia.
Qed.

Lemma EncodeRune_tail (r n : Z) :
  (0 <= n)%Z ->
  Z.lor 128 (Z.land (Z.shiftr r n) 63) = (128 + (r / 2 ^ n) mod 64)%Z.
Proof.
  intros Hn. rewrite Z.shiftr_div_pow2 by lia.
  change 63%Z with (Z.ones 6). rewrite Z.land_ones by lia.
  change 128%Z with (Z.shiftl 2 6) at 1.
  rewrite lor_shiftl; [reflexivity|lia|]. apply Z.mod_pos_bound. lia.
Qed.

Lemma EncodeRune_3 (r : Z) :
  (2048 <= r <= 65535)%Z -> (r < 55296 \/ 57343 < r)%Z ->
  EncodeRune r = [byte_of_int (224 + r / 4096);
                  byte_of_int (128 + (r / 64) mod 64);
                  byte_of_int (128 + r mod 64)].
Proof.
  intros Hr Hs. unfold EncodeRune.
  destruct (Z.ltb_spec r 0); [lia|]. destruct (Z.ltb_spec 1114111 r); [lia|].
  assert ((55296 <=? r)%Z && (r <=? 57343)%Z = false) as ->.
  { destruct (Z.leb_spec 55296 r), (Z.leb_spec r 57343); try reflexivity. lia. }
  cbn [orb].
  destruct (Z.leb_spec r 127); [lia|]. destruct (Z.leb_spec r 2047); [lia|].
  destruct (Z.leb_spec r 65535); [|lia].
  rewrite !EncodeRune_tail by lia. rewrite Z.shiftr_div_pow2 by lia.
  change 224%Z with (Z.shiftl 7 5) at 1.
  rewrite lor_shiftl; [|lia|].
  - change (2 ^ 0)%Z with 1%Z. rewrite Z.div_1_r. reflexivity.
  - change (2 ^ 12)%Z with 4096%Z. change (2 ^ 5)%Z with 32%Z.
    Z.div_mod_to_equations. lia.
Qed.

Lemma EncodeRune_4 (r : Z) :
  (65536 <= r <= 1114111)%Z ->
  EncodeRune r = [byte_of_int (240 + r / 262144);
                  byte_of_int (128 + (r / 4096) mod 64);
                  byte_of_int (128 + (r / 64) mod 64);
                  byte_of_int (128 + r mod 64)].
Proof.
  intros Hr. unfold EncodeRune.
  destruct (Z.ltb_spec r 0); [lia|]. destruct (Z.ltb_spec 1114111 r); [lia|].
  assert ((55296 <=? r)%Z && (r <=? 57343)%Z = false) as ->.
  { destruct (Z.leb_spec 55296 r), (Z.leb_spec r 57343); try reflexivity. lia. }
  cbn [orb].
  destruct (Z.leb_spec r 127); [lia|]. destruct (Z.leb_spec r 2047); [lia|].
  destruct (Z.leb_spec r 65535); [lia|].
  rewrite !EncodeRune_tail by lia. rewrite Z.shiftr_div_pow2 by lia.
  change 240%Z with (Z.shiftl 15 4) at 1.
  rewrite lor_shiftl; [|lia|].
  - change (2 ^ 0)%Z with 1%Z. rewrite Z.div_1_r. reflexivity.
  - change (2 ^ 18)%Z with 262144%Z. change (2 ^ 4)%Z with 16%Z.
    Z.div_mod_to_equations. lia.
Qed.

(** What a well-formed sequence decodes to is what encodes to it. *)
Lemma EncodeRune_DecodeRune (p : list byte) r n :
  DecodeRune p = (r, n) -> p <> [] -> (r, n) <> (RuneError, 1) ->
  EncodeRune r = take n p /\ 1 <= n <= length p.
Proof.
  destruct p as [|b0 rest]; [done|]. intros Hdec _ Hvalid.
  unfold DecodeRune in Hdec.
  pose proof (b2z_range b0) as H0.
  destruct (Z.ltb_spec (b2z b0) 128) as [Hx|Hx].
  { injection Hdec as <- <-. split; [|simpl; lia].
    unfold EncodeRune.
    destruct (Z.ltb_spec (b2z b0) 0); [lia|].
    destruct (Z.ltb_spec 1114111 (b2z b0)); [lia|].
    destruct (Z.leb_spec 55296 (b2z b0)); [lia|]. cbn [orb andb].
    destruct (Z.leb_spec (b2z b0) 127); [|lia].
    by rewrite byte_of_int_b2z. }
  destruct (Z.ltb_spec (b2z b0) 194) as [Hx1|Hx1];
    [cbn [orb] in Hdec; congruence|].
  destruct (Z.ltb_spec 244 (b2z b0)) as [Hx2|Hx2];
    [cbn [orb] in Hdec; congruence|].
  cbn [orb] in Hdec.
  destruct (Z.ltb_spec (b2z b0) 224) as [Hx3|Hx3].
  { destruct rest as [|b1 rest]; [congruence|].
    destruct (in_range 128 191 b1) eqn:H1; [|congruence].
    apply in_range_spec in H1. injection Hdec as <- <-.
    split; [|simpl; lia].
    change 31%Z with (Z.ones 5). rewrite Z.land_ones, cont_bits_mod by lia.
    rewrite lor_shiftl; [|lia|apply Z.mod_pos_bound; lia].
    change (2 ^ 5)%Z with 32%Z. change (2 ^ 6)%Z with 64%Z.
    rewrite EncodeRune_2 by (Z.div_mod_to_equations; lia).
    cbn [take]. f_equal; [|f_equal];
      apply byte_of_int_eq; Z.div_mod_to_equations; lia. }
  destruct (Z.ltb_spec (b2z b0) 240) as [Hx4|Hx4].
  { destruct rest as [|b1 [|b2 rest]]; [congruence..|].
    destruct (in_range _ _ b1) eqn:H1; [|cbn [andb] in Hdec; congruence].
    destruct (in_range 128 191 b2) eqn:H2; [|cbn [andb] in Hdec; congruence].
    cbn [andb] in Hdec. apply in_range_spec in H1, H2.
    injection Hdec as <- <-. split; [|simpl; lia].
    change 15%Z with (Z.ones 4). rewrite Z.land_ones, !cont_bits_mod by lia.
    rewrite (lor_shiftl _ 6); [|lia|apply Z.mod_pos_bound; lia].
    rewrite lor_shiftl;
      [|lia|change (2 ^ 6)%Z with 64%Z; change (2 ^ 12)%Z with 4096%Z;
            Z.div_mod_to_equations; lia].
    change (2 ^ 4)%Z with 16%Z. change (2 ^ 6)%Z with 64%Z.
    change (2 ^ 12)%Z with 4096%Z.
    destruct (Z.eqb_spec (b2z b0) 224), (Z.eqb_spec (b2z b0) 237);
      (rewrite EncodeRune_3 by (Z.div_mod_to_equations; lia));
      cbn [take]; (f_equal; [|f_equal; [|f_equal]]);
      apply byte_of_int_eq; Z.div_mod_to_equations; lia. }
  destruct rest as [|b1 [|b2 [|b3 rest]]]; [congruence..|].
  destruct (in_range _ _ b1) eqn:H1; [|cbn [andb] in Hdec; congruence].
  destruct (in_range 128 191 b2) eqn:H2; [|cbn [andb] in Hdec; congruence].
  destruct (in_range 128 191 b3) eqn:H3; [|cbn [andb] in Hdec; congruence].
  cbn [andb] in Hdec. apply in_range_spec in H1, H2, H3.
  injection Hdec as <- <-. split; [|simpl; lia].
  change 7%Z with (Z.ones 3). rewrite Z.land_ones, !cont_bits_mod by lia.
  rewrite (lor_shiftl _ 6); [|lia|apply Z.mod_pos_bound; lia].
  rewrite (lor_shiftl _ 12);
    [|lia|change (2 ^ 6)%Z with 64%Z; change (2 ^ 12)%Z with 4096%Z;
          Z.div_mod_to_equations; lia].
  rewrite lor_shiftl;
    [|lia|change (2 ^ 6)%Z with 64%Z; change (2 ^ 12)%Z with 4096%Z;
          change (2 ^ 18)%Z with 262144%Z; Z.div_mod_to_equations; lia].
  change (2 ^ 3)%Z with 8%Z. change (2 ^ 6)%Z with 64%Z.
  change (2 ^ 12)%Z with 4096%Z. change (2 ^ 18)%Z with 262144%Z.
  destruct (Z.eqb_spec (b2z b0) 240), (Z.eqb_spec (b2z b0) 244);
    (rewrite EncodeRune_4 by (Z.div_mod_to_equations; lia));
    cbn [take]; (f_equal; [|f_equal; [|f_equal; [|f_equal]]]);
    apply byte_of_int_eq; Z.div_mod_to_equations; lia.
Qed.

(** [DecodeRune] looks at four bytes at most, and in a well-formed
    sequence at the bytes of the first rune only. *)
Lemma DecodeRune_take4 (p : list byte) : DecodeRune (take 4 p) = DecodeRune p.
Proof. by destruct p as [|a [|b [|c [|d rest]]]]. Qed.

Lemma DecodeRune_prefix (p X : list byte) r n :
  DecodeRune p = (r, n) -> p <> [] -> (r, n) <> (RuneError, 1) ->
  DecodeRune (take n p ++ X) = (r, n).
Proof.
  destruct p as [|b0 rest]; [done|]. intros Hdec _ Hvalid.
  unfold DecodeRune in Hdec.
  destruct (b2z b0 <? 128)%Z eqn:E1.
  { injection Hdec as <- <-. cbn [take app]. unfold DecodeRune. by rewrite E1. }
  destruct ((b2z b0 <? 194)%Z || (244 <? b2z b0)%Z) eqn:E2; [congruence|].
  destruct (b2z b0 <? 224)%Z eqn:E3.
  { destruct rest as [|b1 rest]; [congruence|].
    destruct (in_range 128 191 b1) eqn:H1; [|congruence].
    injection Hdec as <- <-. cbn [take app]. unfold DecodeRune.
    by rewrite E1, E2, E3, H1. }
  destruct (b2z b0 <? 240)%Z eqn:E4.
  { destruct rest as [|b1 [|b2 rest]]; [congruence..|].
    destruct (in_range _ _ b1 && in_range 128 191 b2) eqn:H1; [|congruence].
    injection Hdec as <- <-. cbn [take app]. unfold DecodeRune.
    by rewrite E1, E2, E3, E4, H1. }
  destruct rest as [|b1 [|b2 [|b3 rest]]]; [congruence..|].
  destruct (in_range _ _ b1 && in_range 128 191 b2 && in_range 128 191 b3) eqn:H1;
    [|congruence].
  injection Hdec as <- <-. cbn [take app]. unfold DecodeRune.
  by rewrite E1, E2, E3, E4, H1.
Qed.

Lemma unquote_escape_byte b (rest : list byte) fuel :
  (b2z b < 128)%Z ->
  unquote_from (S fuel) (escape_byte b ++ rest)
  = '(out, tl) ← unquote_from fuel rest; Some (b :: out, tl).
Proof.
  intros Hb.
  destruct b as [[] [] [] [] [] [] [] []];
    try (exfalso; vm_compute in Hb; discriminate Hb); reflexivity.
Qed.

Lemma escape_byte_length b : 1 <= length (escape_byte b).
Proof.
  unfold escape_byte, escape_ascii.
  repeat match goal with |- context [if ?c then _ else _] => destruct c end;
    cbn [length app bytes_of list_ascii_of_string]; lia.
Qed.

(** The escapes of U+2028 and U+2029, read back. *)
Lemma unquote_line_separator c (X : list byte) fuel :
  c = 8232%Z \/ c = 8233%Z ->
  unquote_from (S fuel) (bytes_of "\u202" ++ [hex_digit (Z.land c 15)] ++ X)
  = '(out, tl) ← unquote_from fuel X; Some (EncodeRune c ++ out, tl).
Proof. intros [-> | ->]; reflexivity. Qed.

(** A well-formed rune beyond ASCII that was copied, read back. *)
Lemma unquote_rune (p X : list byte) r n fuel :
  DecodeRune p = (r, n) -> (r, n) <> (RuneError, 1) ->
  match p with b :: _ => (128 <= b2z b)%Z | [] => False end ->
  unquote_from (S fuel) (take n p ++ X)
  = '(out, tl) ← unquote_from fuel X; Some (take n p ++ out, tl).
Proof.
  intros Hdec Hvalid Hhigh. destruct p as [|b rest]; [done|].
  destruct (EncodeRune_DecodeRune (b :: rest) r n Hdec ltac:(done) Hvalid)
    as [Henc Hn].
  pose proof (DecodeRune_prefix (b :: rest) X r n Hdec ltac:(done) Hvalid) as Hpre.
  destruct n as [|n]; [lia|]. cbn [take app] in Hpre |- *.
  cbn [unquote_from].
  destruct (Z.eqb_spec (b2z b) 34); [lia|].
  destruct (Z.eqb_spec (b2z b) 92); [lia|].
  destruct (Z.ltb_spec (b2z b) 32); [lia|].
  destruct (Z.ltb_spec (b2z b) 128); [lia|].
  rewrite Hpre.
  change (b :: take n rest ++ X) with (take (S n) (b :: rest) ++ X).
  rewrite drop_app_length' by (rewrite length_take; lia).
  by rewrite Henc.
Qed.

Lemma escape_from_nil fuel : escape_from fuel [] = [].
Proof. by destruct fuel. Qed.


Lemma DecodeRune_size (p : list byte) r n :
  DecodeRune p = (r, n) -> p <> [] -> 1 <= n <= length p.
Proof.
  destruct p as [|b0 rest]; [done|]. intros Hdec _.
  unfold DecodeRune in Hdec. cbn [length].
  repeat match type of Hdec with
         | (if ?c then _ else _) = _ => destruct c
         | match ?l with [] => _ | _ :: _ => _ end = _ => destruct l; cbn [length]
         | (let lo := _ in _) = _ => cbv zeta in Hdec
         end;
    injection Hdec as <- <-; lia.
Qed.

(** The escape of U+FFFD, read back. *)
Lemma unquote_replacement (X : list byte) fuel :
  unquote_from (S fuel) (ch_backslash :: bytes_of "ufffd" ++ X)
  = '(out, tl) ← unquote_from fuel X; Some (bytes_of replacement ++ out, tl).
Proof. reflexivity. Qed.

Lemma coerce_ascii b (rest : list byte) :
  (b2z b < 128)%Z -> coerce (b2z b, take 1 (b :: rest)) = [b].
Proof.
  intros Hb. unfold coerce, well_formed, RuneError. cbn [fst snd take].
  by destruct (Z.eqb_spec (b2z b) 65533); [lia|].
Qed.

(** What [appendString] writes between the quotes is at least as long as
    the text, and the decoder reads the coerced text back. *)
Lemma unquote_escape_from fuel (src tl : list byte) f1 f2 :
  length src <= fuel -> length src <= f1 -> length src < f2 ->
  unquote_from f2 (escape_from f1 src ++ ch_quote :: tl)
  = Some (concat (map coerce (runes_from fuel src)), tl)
  /\ length src <= length (escape_from f1 src).
Proof.
  revert src f1 f2.
  induction fuel as [|fuel IH]; intros src f1 f2 Hfuel Hf1 Hf2.
  { destruct src; [|simpl in Hfuel; lia]. rewrite escape_from_nil.
    destruct f2; [lia|]. by split. }
  destruct src as [|b rest].
  { rewrite escape_from_nil. destruct f2; [lia|]. by split. }
  destruct f1 as [|f1]; [simpl in Hf1; lia|].
  destruct f2 as [|f2]; [lia|].
  cbn [runes_from].
  destruct (DecodeRune (b :: rest)) as [r n] eqn:Hdec.
  pose proof (DecodeRune_size (b :: rest) r n Hdec ltac:(done)) as Hn.
  assert (length (drop n (b :: rest)) <= fuel) as Hlen.
  { rewrite length_drop. simpl in Hfuel |- *. lia. }
  assert (length (drop n (b :: rest)) <= f1) as Hlen1.
  { rewrite length_drop. simpl in Hf1 |- *. lia. }
  assert (length (drop n (b :: rest)) < f2) as Hlen2.
  { rewrite length_drop. simpl in Hf2 |- *. lia. }
  destruct (IH (drop n (b :: rest)) f1 f2 Hlen Hlen1 Hlen2) as [IHu IHl].
  assert (length (b :: rest) = n + length (drop n (b :: rest))) as Hsplit.
  { rewrite length_drop. lia. }
  cbn [map concat escape_from].
  destruct (Z.ltb_spec (b2z b) 128) as [Hb|Hb].
  - rewrite (DecodeRune_ascii b rest Hb) in Hdec. injection Hdec as <- <-.
    change (drop 1 (b :: rest)) with rest in IHu, IHl |- *.
    fold (escape_byte b). rewrite <- app_assoc.
    rewrite unquote_escape_byte by done. rewrite IHu, coerce_ascii by done.
    split; [reflexivity|].
    rewrite length_app. pose proof (escape_byte_length b). simpl. lia.
  - rewrite DecodeRune_take4, Hdec.
    destruct ((r =? RuneError)%Z && (n =? 1)) eqn:Hbad.
    { apply andb_true_iff in Hbad as [H1 H2].
      apply Z.eqb_eq in H1. apply Nat.eqb_eq in H2. subst r n.
      cbn [app]. rewrite <- app_assoc, unquote_replacement, IHu.
      split; [reflexivity|].
      cbn [length] in Hsplit |- *. rewrite length_app. lia. }
    assert ((r, n) <> (RuneError, 1)) as Hne.
    { intros [= -> ->]. by rewrite Z.eqb_refl in Hbad. }
    destruct (EncodeRune_DecodeRune (b :: rest) r n Hdec ltac:(done) Hne)
      as [Henc _].
    assert (coerce (r, take n (b :: rest)) = take n (b :: rest)) as ->.
    { unfold coerce, well_formed. cbn [fst snd].
      rewrite length_take, Nat.min_l by lia. by rewrite Hbad. }
    destruct ((r =? 8232)%Z || (r =? 8233)%Z) eqn:Hsep.
    + assert (r = 8232%Z \/ r = 8233%Z) as Hr.
      { apply orb_true_iff in Hsep as [H|H]; apply Z.eqb_eq in H; auto. }
      assert (n = 3) as Hn3.
      { apply (f_equal length) in Henc. rewrite length_take in Henc.
        destruct Hr as [-> | ->];
          [change (length (EncodeRune 8232)) with 3 in Henc
          |change (length (EncodeRune 8233)) with 3 in Henc]; lia. }
      rewrite <- !app_assoc. rewrite unquote_line_separator by done.
      rewrite IHu, Henc. cbn [mbind option_bind].
      split; [reflexivity|].
      rewrite !length_app.
      change (length (bytes_of "\u202")) with 5. cbn [length] in Hsplit |- *. lia.
    + rewrite <- app_assoc.
      rewrite (unquote_rune (b :: rest) _ r n f2 Hdec Hne Hb).
      rewrite IHu. cbn [mbind option_bind].
      split; [reflexivity|].
      rewrite length_app, length_take. lia.
Qed.

(** Coercion leaves well-formed text alone and makes any other text
    longer. *)
Lemma coerce_runes fuel (src : list byte) :
  length src <= fuel ->
  (forallb well_formed (runes_from fuel src) = true ->
   concat (map coerce (runes_from fuel src)) = src)
  /\ (forallb well_formed (runes_from fuel src) = false ->
      length src < length (concat (map coerce (runes_from fuel src))))
  /\ length src <= length (concat (map coerce (runes_from fuel src))).
Proof.
  revert src. induction fuel as [|fuel IH]; intros src Hfuel.
  { destruct src; [|simpl in Hfuel; lia]. cbn. split; [done|]. split; [done|lia]. }
  destruct src as [|b rest].
  { cbn. split; [done|]. split; [done|lia]. }
  cbn [runes_from].
  destruct (DecodeRune (b :: rest)) as [r n] eqn:Hdec.
  pose proof (DecodeRune_size (b :: rest) r n Hdec ltac:(done)) as Hn.
  assert (length (drop n (b :: rest)) <= fuel) as Hlen.
  { rewrite length_drop. simpl in Hfuel |- *. lia. }
  destruct (IH (drop n (b :: rest)) Hlen) as (IHv & IHi & IHl).
  assert (length (b :: rest) = n + length (drop n (b :: rest))) as Hsplit.
  { rewrite length_drop. lia. }
  cbn [forallb map concat]. rewrite length_app.
  unfold coerce at 1 3 5.
  destruct (well_formed (r, take n (b :: rest))) eqn:Hok; cbn [snd andb].
  - rewrite length_take, Nat.min_l by lia.
    split; [|split; [|lia]].
    + intros Hrest. by rewrite (IHv Hrest), take_drop.
    + intros Hrest. specialize (IHi Hrest). lia.
  - assert (n = 1) as ->.
    { unfold well_formed in Hok. cbn [fst snd] in Hok.
      apply negb_false_iff, andb_true_iff in Hok as [_ H].
      apply Nat.eqb_eq in H. rewrite length_take in H. lia. }
    change (length (bytes_of replacement)) with 3.
    split; [done|]. split; [intros _|]; lia.
Qed.

Lemma coerce_utf8_valid s : valid_utf8 s = true -> coerce_utf8 s = s.
Proof.
  intros Hs. unfold coerce_utf8, runes.
  rewrite (proj1 (coerce_runes _ (bytes_of s) ltac:(done)) Hs).
  apply string_of_bytes_of.
Qed.

Lemma coerce_utf8_invalid s : valid_utf8 s = false -> coerce_utf8 s <> s.
Proof.
  intros Hs Heq.
  pose proof (proj1 (proj2 (coerce_runes _ (bytes_of s) ltac:(done))) Hs) as Hlen.
  apply (f_equal bytes_of) in Heq. unfold coerce_utf8 in Heq.
  rewrite bytes_of_string_of in Heq. unfold runes in Heq.
  rewrite Heq in Hlen. lia.
Qed.

(** The text between the quotes of a string literal. *)
Lemma appendString_quotes s :
  appendString s
  = ch_quote :: escape_from (length (bytes_of s)) (bytes_of s) ++ [ch_quote].
Proof. reflexivity. Qed.

Lemma unquote_appendString s (tl : list byte) :
  let text := escape_from (length (bytes_of s)) (bytes_of s) ++ ch_quote :: tl in
  unquote_from (length text) text = Some (bytes_of (coerce_utf8 s), tl).
Proof.
  intros text.
  destruct (unquote_escape_from (length (bytes_of s)) (bytes_of s) tl
              (length (bytes_of s)) (S (length (bytes_of s)))
              ltac:(done) ltac:(done) ltac:(lia)) as [_ Hlen].
  unfold coerce_utf8, runes. rewrite bytes_of_string_of.
  refine (proj1 (unquote_escape_from (length (bytes_of s)) (bytes_of s) tl
                   (length (bytes_of s)) (length text)
                   ltac:(done) ltac:(done) _)).
  subst text. rewrite length_app. cbn [length]. lia.
Qed.

(** A string literal written by [appendString], read as an element. *)
Lemma parse_appendString s (tl : list byte) :
  parse_element (appendString s ++ tl) = Some (coerce_utf8 s, tl).
Proof.
  rewrite appendString_quotes.
  cbn [app parse_element]. change (b2z ch_quote =? 34)%Z with true. cbv iota.
  rewrite <- app_assoc. cbn [app].
  rewrite (unquote_appendString s tl).
  cbn [mbind option_bind]. by rewrite string_of_bytes_of.
Qed.

Lemma skip_ws_appendString s (tl : list byte) :
  skip_ws (appendString s ++ tl) = appendString s ++ tl.
Proof. reflexivity. Qed.

(** One member written by [json.Marshal], read by the decoder. *)
Lemma members_from_member (k v : string) (next : list byte) acc fuel :
  members_from (S fuel) (encode_member (k, v) ++ next) acc
  = match skip_ws next with
    | d :: p4 =>
      if (b2z d =? 44)%Z
      then members_from fuel (skip_ws p4) (<[coerce_utf8 k := coerce_utf8 v]> acc)
      else if (b2z d =? 125)%Z then Some (<[coerce_utf8 k := coerce_utf8 v]> acc, p4)
      else None
    | [] => None
    end.
Proof.
  unfold encode_member. cbn [fst snd].
  rewrite (appendString_quotes k).
  rewrite <- !app_assoc. cbn [app members_from].
  change (b2z ch_quote =? 34)%Z with true. cbv iota.
  rewrite <- app_assoc. cbn [app].
  rewrite (unquote_appendString k _).
  cbn [mbind option_bind].
  change (bytes_of ":") with [":"%char]. cbn [app skip_ws].
  change (json_space ":"%char) with false. cbv iota.
  change (b2z ":"%char =? 58)%Z with true. cbv iota.
  rewrite skip_ws_appendString, parse_appendString.
  cbn [mbind option_bind]. by rewrite string_of_bytes_of.
Qed.

Lemma encode_member_head kv :
  exists body, encode_member kv = ch_quote :: body.
Proof. unfold encode_member, appendString. cbn [app]. eauto. Qed.

Lemma join_members_head (x : string * string) l :
  exists body, join_members (map encode_member (x :: l)) = ch_quote :: body.
Proof.
  destruct (encode_member_head x) as [body Hx].
  destruct l as [|y l]; cbn [map join_members]; rewrite Hx; cbn [app]; eauto.
Qed.

(** The members written by [json.Marshal], read in order. *)
Lemma members_from_encoded (l : list (string * string)) (tl : list byte) acc fuel :
  l <> [] -> length l <= fuel ->
  members_from fuel (join_members (map encode_member l) ++ "}"%char :: tl) acc
  = Some (foldl (fun m kv => <[coerce_utf8 kv.1 := coerce_utf8 kv.2]> m) acc l, tl).
Proof.
  revert acc fuel.
  induction l as [|[k v] l IH]; intros acc fuel Hne Hfuel; [done|].
  destruct fuel as [|fuel]; [simpl in Hfuel; lia|].
  destruct l as [|y l].
  - cbn [map join_members]. rewrite members_from_member.
    reflexivity.
  - change (join_members (map encode_member ((k, v) :: y :: l)))
      with (encode_member (k, v) ++ bytes_of ","
            ++ join_members (map encode_member (y :: l))).
    rewrite <- !app_assoc. rewrite members_from_member.
    change (bytes_of ",") with [","%char]. cbn [app skip_ws].
    change (json_space ","%char) with false. cbv iota.
    change (b2z ","%char =? 44)%Z with true. cbv iota.
    destruct (join_members_head y l) as [body Hbody].
    rewrite Hbody. cbn [app skip_ws].
    change (json_space ch_quote) with false. cbv iota.
    change (ch_quote :: body ++ "}"%char :: tl)
      with ((ch_quote :: body) ++ "}"%char :: tl).
    rewrite <- Hbody. rewrite IH; [reflexivity|done|simpl in Hfuel |- *; lia].
Qed.

Lemma encode_member_length kv : 1 <= length (encode_member kv).
Proof.
  destruct (encode_member_head kv) as [body ->]. cbn [length]. lia.
Qed.

Lemma join_members_length (l : list (string * string)) :
  length l <= length (join_members (map encode_member l)).
Proof.
  induction l as [|x l IH]; [done|].
  pose proof (encode_member_length x).
  destruct l as [|y l].
  - exact H.
  - change (join_members (map encode_member (x :: y :: l)))
      with (encode_member x ++ bytes_of ","
            ++ join_members (map encode_member (y :: l))).
    rewrite !length_app. change (length (x :: y :: l)) with (S (length (y :: l))).
    lia.
Qed.

(** Insertion sort permutes. *)
Lemma insert_by_key_perm x l : insert_by_key x l ≡ₚ x :: l.
Proof.
  induction l as [|y l IH]; [done|].
  cbn [insert_by_key]. destruct (String.leb x.1 y.1); [done|].
  rewrite IH. apply Permutation_swap.
Qed.

Lemma sort_by_key_perm l : sort_by_key l ≡ₚ l.
Proof.
  induction l as [|x l IH]; [done|].
  unfold sort_by_key in *. cbn [foldr]. by rewrite insert_by_key_perm, IH.
Qed.

(** [json.Unmarshal] of what [json.Marshal] wrote: the members in key
    order, keys and values coerced, a later member overwriting an earlier
    one with the same key. *)
Lemma json_codec (m : gmap string string) :
  json_Unmarshal (json_Marshal m)
  = Some (foldl (fun acc kv => <[coerce_utf8 kv.1 := coerce_utf8 kv.2]> acc) ∅
            (sort_by_key (map_to_list m))).
Proof.
  unfold json_Marshal.
  destruct (sort_by_key (map_to_list m)) as [|x l] eqn:El; [reflexivity|].
  destruct (join_members_head x l) as [body Hbody].
  unfold json_Unmarshal.
  change (bytes_of "{") with ["{"%char]. change (bytes_of "}") with ["}"%char].
  cbn [app skip_ws]. change (json_space "{"%char) with false. cbv iota.
  change (b2z "{"%char =? 123)%Z with true. cbv iota.
  assert (skip_ws (join_members (map encode_member (x :: l)) ++ ["}"%char])
          = join_members (map encode_member (x :: l)) ++ ["}"%char]) as ->.
  { rewrite Hbody. reflexivity. }
  rewrite Hbody at 1. cbn [app].
  change (b2z ch_quote =? 125)%Z with false. cbv iota.
  rewrite members_from_encoded; [|done|].
  - cbn [mbind option_bind skip_ws]. by rewrite decide_True.
  - rewrite length_app. pose proof (join_members_length (x :: l)). lia.
Qed.

(** With keys that are well-formed UTF-8 no two members collide: every
    value is coerced under its own key. *)
Lemma json_codec_valid_keys (m : gmap string string) :
  valid_keys m = true ->
  json_Unmarshal (json_Marshal m) = Some (coerce_utf8 <$> m).
Proof.
  intros Hkeys. rewrite json_codec. f_equal.
  assert (forall l : list (string * string),
             Forall (fun kv => valid_utf8 kv.1 = true) l ->
             foldl (fun acc kv => <[coerce_utf8 kv.1 := coerce_utf8 kv.2]> acc) ∅ l
             = (list_to_map (prod_map id coerce_utf8 <$> rev l)
                : gmap string string)) as Hfold.
  { intros l Hl. rewrite <- (rev_involutive l) at 1.
    apply List.Forall_rev in Hl. revert Hl. generalize (rev l). clear.
    intros l Hl. induction Hl as [|[k v] l Hk _ IH]; [done|].
    cbn [rev]. rewrite foldl_app. cbn [foldl fst snd fmap list_fmap list_to_map].
    rewrite IH. cbn [prod_map fst snd id]. by rewrite (coerce_utf8_valid k Hk). }
  assert (Forall (fun kv : string * string => valid_utf8 kv.1 = true)
            (map_to_list m)) as Hall.
  { apply List.Forall_forall. intros kv Hin.
    unfold valid_keys in Hkeys. rewrite forallb_forall in Hkeys. by apply Hkeys. }
  rewrite Hfold by (by rewrite sort_by_key_perm).
  rewrite list_to_map_fmap. f_equal.
  rewrite <- (list_to_map_to_list m) at 2.
  assert (rev (sort_by_key (map_to_list m)) ≡ₚ map_to_list m) as Hperm.
  { rewrite <- Permutation_rev. apply sort_by_key_perm. }
  apply list_to_map_proper; [|exact Hperm].
  rewrite Hperm. apply NoDup_fst_map_to_list.
Qed.

Lemma valid_map_keys m : valid_map m = true -> valid_keys m = true.
Proof.
  unfold valid_map, valid_keys. rewrite !forallb_forall.
  intros H kv Hin. specialize (H kv Hin). by apply andb_true_iff in H as [H _].
Qed.

(** [json.Unmarshal] gives back the map that [json.Marshal] wrote when its
    keys and values are well-formed UTF-8. *)
Lemma json_round_trip (m : gmap string string) :
  valid_map m = true -> json_Unmarshal (json_Marshal m) = Some m.
Proof.
  intros Hm. rewrite json_codec_valid_keys by (by apply valid_map_keys).
  f_equal. rewrite <- (map_fmap_id m) at 2.
  apply map_fmap_ext. intros k v Hkv. unfold id. apply coerce_utf8_valid.
  unfold valid_map in Hm. rewrite forallb_forall in Hm.
  specialize (Hm (k, v)). cbn [fst snd] in Hm.
  assert (valid_utf8 k && valid_utf8 v = true) as Hkvv.
  { apply Hm. by apply list_elem_of_In, elem_of_map_to_list. }
  by apply andb_true_iff in Hkvv as [_ Hv].
Qed.

(** A store whose keys and values are well-formed UTF-8 survives saving
    and loading unchanged: whenever [saveToFile] returns nil,
    [loadFromFile] of that file under the same password returns nil,
    whatever store it is given, and leaves the store that was saved. *)
Theorem utf8_store_survives_save_and_load
    (hmac_sha512 : list byte -> list byte -> list byte)
    (gcm_seal : list byte -> list byte -> list byte -> list byte)
    (gcm_open : list byte -> list byte -> list byte -> option (list byte))
    (hmac_size : forall key data, length (hmac_sha512 key data) = 64)
    (gcm_open_seal : forall key nonce plaintext,
        length key = 32 -> length nonce = 12 ->
        gcm_open key nonce (gcm_seal key nonce plaintext) = Some plaintext)
    (file pass : string) (m m1 : machine) (k2 : kv) :
  valid_map (snapshot (store m)) = true ->
  saveToFile hmac_sha512 gcm_seal file pass m = (Ok tt, m1) ->
  exists m2,
    loadFromFile hmac_sha512 gcm_open file pass (with_store (fun _ => k2) m1)
    = (Ok tt, m2)
    /\ store m2 = store m.
Proof.
  intros Hvalid Hsave.
  exact (save_then_load_faithful hmac_sha512 gcm_seal gcm_open hmac_size
           gcm_open_seal file pass m m1 k2 Hsave
           (json_round_trip _ Hvalid)).
Qed.

Lemma utf8_store_survives_save_and_load_witness :
  exists m1 m2,
    saveToFile Tiny.hmac Tiny.seal "db.bin" "secret"
      (process (set (set newKV "x" "42") "note" sample_text) ∅) = (Ok tt, m1)
    /\ loadFromFile Tiny.hmac Tiny.open "db.bin" "secret"
         (with_store (fun _ => set newKV "stale" "1") m1) = (Ok tt, m2)
    /\ store m2 = set (set newKV "x" "42") "note" sample_text.
Proof.
  destruct (Tiny_save_ok (set (set newKV "x" "42") "note" sample_text) ∅
              "db.bin" "secret") as [m1 Hsave];
    [reflexivity | vm_compute; lia |].
  destruct (utf8_store_survives_save_and_load Tiny.hmac Tiny.seal Tiny.open
              Tiny_hmac_size Tiny_open_seal "db.bin" "secret"
              (process (set (set newKV "x" "42") "note" sample_text) ∅) m1
              (set newKV "stale" "1") ltac:(vm_compute; reflexivity) Hsave)
    as (m2 & Hload & Hstore).
  exists m1, m2. split; [exact Hsave|]. split; [exact Hload | exact Hstore].
Defined.

(** What saving and loading does to a store whose keys are well-formed
    UTF-8: the same keys come back, each with its value coerced to UTF-8,
    every byte that is not part of a well-formed rune replaced by U+FFFD.
    A value that is not well-formed UTF-8 is therefore never the same
    again. *)
Theorem save_and_load_coerce_values
    (hmac_sha512 : list byte -> list byte -> list byte)
    (gcm_seal : list byte -> list byte -> list byte -> list byte)
    (gcm_open : list byte -> list byte -> list byte -> option (list byte))
    (hmac_size : forall key data, length (hmac_sha512 key data) = 64)
    (gcm_open_seal : forall key nonce plaintext,
        length key = 32 -> length nonce = 12 ->
        gcm_open key nonce (gcm_seal key nonce plaintext) = Some plaintext)
    (file pass : string) (m m1 : machine) (k2 : kv) :
  valid_keys (snapshot (store m)) = true ->
  saveToFile hmac_sha512 gcm_seal file pass m = (Ok tt, m1) ->
  exists m2,
    loadFromFile hmac_sha512 gcm_open file pass (with_store (fun _ => k2) m1)
    = (Ok tt, m2)
    /\ (forall key,
          get (store m2) key
          = (coerce_utf8 (get (store m) key).1, (get (store m) key).2))
    /\ (forall key v,
          get (store m) key = (v, true) -> valid_utf8 v = false ->
          get (store m2) key <> (v, true)).
Proof.
  intros Hkeys Hsave.
  destruct (save_then_load hmac_sha512 gcm_seal gcm_open hmac_size gcm_open_seal
              file pass m m1 (coerce_utf8 <$> snapshot (store m)) k2 Hsave
              (json_codec_valid_keys _ Hkeys)) as (m2 & Hload & Hstore).
  assert (forall key,
             get (store m2) key
             = (coerce_utf8 (get (store m) key).1, (get (store m) key).2)) as Hget.
  { intros key. rewrite !get_lookup, Hstore, data_replace, snapshot_fmap.
    rewrite !lookup_fmap. destruct (data (store m) !! key) as [v|]; [|done].
    cbn [fmap option_fmap option_map fst snd]. by rewrite string_of_bytes_of. }
  exists m2. split; [exact Hload|]. split; [exact Hget|].
  intros key v Hv Hinvalid. rewrite Hget, Hv. cbn [fst snd].
  intros [= Heq]. by apply (coerce_utf8_invalid v Hinvalid).
Qed.

Lemma save_and_load_coerce_values_witness :
  exists m1 m2,
    saveToFile Tiny.hmac Tiny.seal "db.bin" "secret"
      (process (set newKV "k" invalid_utf8) ∅) = (Ok tt, m1)
    /\ loadFromFile Tiny.hmac Tiny.open "db.bin" "secret"
         (with_store (fun _ => newKV) m1) = (Ok tt, m2)
    /\ get (store m2) "k" = (replacement, true)
    /\ get (store m2) "k" <> (invalid_utf8, true).
Proof.
  destruct (Tiny_save_ok (set newKV "k" invalid_utf8) ∅ "db.bin" "secret")
    as [m1 Hsave]; [reflexivity | vm_compute; lia |].
  destruct (save_and_load_coerce_values Tiny.hmac Tiny.seal Tiny.open
              Tiny_hmac_size Tiny_open_seal "db.bin" "secret"
              (process (set newKV "k" invalid_utf8) ∅) m1 newKV
              ltac:(vm_compute; reflexivity) Hsave)
    as (m2 & Hload & Hget & Hne).
  exists m1, m2. split; [exact Hsave|]. split; [exact Hload|]. split.
  - rewrite (Hget "k"). vm_compute. reflexivity.
  - apply (Hne "k" invalid_utf8); vm_compute; reflexivity.
Defined.

(** ** The line protocol and the connection *)

Section Lines.

Variable hmac_sha512 : list byte -> list byte -> list byte.
Variable gcm_seal : list byte -> list byte -> list byte -> list byte.
Variable gcm_open : list byte -> list byte -> list byte -> option (list byte).
Variable unicode_upper : Z -> Z.

Let step := handle_line hmac_sha512 gcm_seal gcm_open unicode_upper.

(** A GET and a DEL line in terms of their fields. *)
Lemma handle_GET_fields line m verb rest :
  Fields (TrimSpace line) = verb :: rest ->
  ToUpper unicode_upper verb = "GET" ->
  step line m
  = if length rest =? 1
    then (Ok (Some (match data (store m) !! nth 0 rest "" with
                    | Some v => string_of v
                    | None => "NIL"
                    end)), m)
    else (Ok (Some "ERR"), m).
Proof.
  intros Hcmd Hverb. unfold step, handle_line.
  rewrite Hcmd, Hverb.
  change (String.eqb "GET" "SET") with false.
  change (String.eqb "GET" "GET") with true. cbv iota.
  change (length (verb :: rest) =? 2) with (length rest =? 1).
  destruct (length rest =? 1); [|reflexivity].
  cbn [negb nth]. unfold bind, get_store, get, ret.
  by destruct (data (store m) !! nth 0 rest "").
Qed.

Lemma handle_DEL_fields line m verb rest :
  Fields (TrimSpace line) = verb :: rest ->
  ToUpper unicode_upper verb = "DEL" ->
  step line m
  = if length rest =? 1
    then (Ok (Some (if (del (store m) (nth 0 rest "")).1 then "OK" else "NIL")),
          with_store (fun k => (del k (nth 0 rest "")).2) m)
    else (Ok (Some "ERR"), m).
Proof.
  intros Hcmd Hverb. unfold step, handle_line.
  rewrite Hcmd, Hverb.
  change (String.eqb "DEL" "SET") with false.
  change (String.eqb "DEL" "GET") with false.
  change (String.eqb "DEL" "DEL") with true. cbv iota.
  change (length (verb :: rest) =? 2) with (length rest =? 1).
  destruct (length rest =? 1); [|reflexivity].
  cbn [negb nth]. unfold bind, get_store, modify_store, ret.
  destruct (del (store m) (nth 0 rest "")) as [found k'] eqn:Hdel.
  unfold with_store. cbn [fst snd]. rewrite Hdel. cbn [fst snd].
  by destruct found.
Qed.


(** Lines that are not a well-formed command: a reply of ERR, or none for
    a blank line, and no effect. *)
Lemma handle_malformed line m verb rest :
  Fields (TrimSpace line) = verb :: rest ->
  ((ToUpper unicode_upper verb = "GET" \/ ToUpper unicode_upper verb = "DEL")
   /\ length rest <> 1)
  \/ ((ToUpper unicode_upper verb = "SAVE" \/ ToUpper unicode_upper verb = "LOAD")
      /\ length rest <> 2)
  \/ (ToUpper unicode_upper verb <> "SET" /\ ToUpper unicode_upper verb <> "GET"
      /\ ToUpper unicode_upper verb <> "DEL" /\ ToUpper unicode_upper verb <> "SAVE"
      /\ ToUpper unicode_upper verb <> "LOAD") ->
  step line m = (Ok (Some "ERR"), m).
Proof.
  intros Hcmd Hbad. unfold step, handle_line. rewrite Hcmd.
  change (length (verb :: rest) =? 2) with (length rest =? 1).
  change (length (verb :: rest) =? 3) with (length rest =? 2).
  destruct Hbad as [[[Hv|Hv] Hn]|[[[Hv|Hv] Hn]|(H1 & H2 & H3 & H4 & H5)]].
  - rewrite Hv. change (String.eqb "GET" "SET") with false.
    change (String.eqb "GET" "GET") with true. cbv iota.
    by destruct (Nat.eqb_spec (length rest) 1).
  - rewrite Hv. change (String.eqb "DEL" "SET") with false.
    change (String.eqb "DEL" "GET") with false.
    change (String.eqb "DEL" "DEL") with true. cbv iota.
    by destruct (Nat.eqb_spec (length rest) 1).
  - rewrite Hv. change (String.eqb "SAVE" "SET") with false.
    change (String.eqb "SAVE" "GET") with false.
    change (String.eqb "SAVE" "DEL") with false.
    change (String.eqb "SAVE" "SAVE") with true. cbv iota.
    by destruct (Nat.eqb_spec (length rest) 2).
  - rewrite Hv. change (String.eqb "LOAD" "SET") with false.
    change (String.eqb "LOAD" "GET") with false.
    change (String.eqb "LOAD" "DEL") with false.
    change (String.eqb "LOAD" "SAVE") with false.
    change (String.eqb "LOAD" "LOAD") with true. cbv iota.
    by destruct (Nat.eqb_spec (length rest) 2).
  - apply String.eqb_neq in H1, H2, H3, H4, H5.
    by rewrite H1, H2, H3, H4, H5.
Qed.

End Lines.

Lemma Fields_blank blank :
  is_blank blank = true -> Fields (TrimSpace blank) = [].
Proof.
  intros Hb. pose proof (is_blank_bytes blank Hb) as Hall.
  rewrite <- (string_of_bytes_of blank).
  rewrite TrimSpace_ascii
    by (eapply Forall_impl; [exact Hall|]; apply ascii_space_lt).
  rewrite <- (app_nil_r (bytes_of blank)), skip_spaces_blank by done.
  reflexivity.
Qed.

(** [strings.ToUpper] on ASCII. *)
Lemma ToUpper_ascii unicode_upper (bs : list byte) :
  Forall (fun b => (b2z b < 128)%Z) bs ->
  ToUpper unicode_upper (string_of bs) = string_of (map upper_byte bs).
Proof.
  intros Hbs. unfold ToUpper, runes. rewrite bytes_of_string_of.
  rewrite runes_from_ascii by done. f_equal.
  induction Hbs as [|b bs Hb _ IH]; [done|].
  cbn [map concat]. rewrite IH. clear IH.
  change (upper_byte b :: map upper_byte bs)
    with ([upper_byte b] ++ map upper_byte bs).
  f_equal.
  destruct b as [[] [] [] [] [] [] [] []];
    try (exfalso; vm_compute in Hb; discriminate Hb); reflexivity.
Qed.

Lemma upper_byte_word b : word_byte b = true -> word_byte (upper_byte b) = true.
Proof.
  intros Hb.
  destruct b as [[] [] [] [] [] [] [] []];
    try (exfalso; vm_compute in Hb; discriminate Hb); reflexivity.
Qed.

Lemma upper_byte_idem b : upper_byte (upper_byte b) = upper_byte b.
Proof. destruct b as [[] [] [] [] [] [] [] []]; reflexivity. Qed.

Lemma ascii_upper_word verb : is_word verb = true -> is_word (ascii_upper verb) = true.
Proof.
  intros Hw. destruct (is_word_bytes verb Hw) as [Hne Hall].
  unfold is_word, ascii_upper. rewrite bytes_of_string_of.
  apply andb_true_iff. split.
  - apply negb_true_iff, String.eqb_neq. intros Heq.
    apply (f_equal bytes_of) in Heq. rewrite bytes_of_string_of in Heq.
    destruct (bytes_of verb); [done|discriminate Heq].
  - apply forallb_forall. intros b Hin. apply in_map_iff in Hin as (b' & <- & Hin').
    apply upper_byte_word. rewrite List.Forall_forall in Hall. by apply Hall.
Qed.

Lemma ToUpper_word unicode_upper verb :
  is_word verb = true ->
  ToUpper unicode_upper verb = ascii_upper verb
  /\ ToUpper unicode_upper (ascii_upper verb) = ascii_upper verb.
Proof.
  intros Hw. destruct (is_word_bytes verb Hw) as [_ Hall].
  assert (Forall (fun b => (b2z b < 128)%Z) (bytes_of verb)) as Hascii.
  { eapply Forall_impl; [exact Hall|]. apply word_byte_lt. }
  split.
  - rewrite <- (string_of_bytes_of verb) at 1. by apply ToUpper_ascii.
  - unfold ascii_upper. rewrite ToUpper_ascii.
    + f_equal. rewrite map_map. apply map_ext. intros b. apply upper_byte_idem.
    + apply List.Forall_forall. intros b Hin.
      apply in_map_iff in Hin as (b' & <- & Hin').
      apply word_byte_lt, upper_byte_word.
      rewrite List.Forall_forall in Hall. by apply Hall.
Qed.

Section Loop.

Variable hmac_sha512 : list byte -> list byte -> list byte.
Variable gcm_seal : list byte -> list byte -> list byte -> list byte.
Variable gcm_open : list byte -> list byte -> list byte -> option (list byte).
Variable unicode_upper : Z -> Z.

Let step := handle_line hmac_sha512 gcm_seal gcm_open unicode_upper.
Let loop := handle_from hmac_sha512 gcm_seal gcm_open unicode_upper.
Let serve := handle hmac_sha512 gcm_seal gcm_open unicode_upper.

(** The handling of a line depends on the verb through [ToUpper] only. *)
Lemma handle_line_verb line1 line2 verb1 verb2 rest m :
  Fields (TrimSpace line1) = verb1 :: rest ->
  Fields (TrimSpace line2) = verb2 :: rest ->
  ToUpper unicode_upper verb1 = ToUpper unicode_upper verb2 ->
  step line1 m = step line2 m.
Proof.
  intros H1 H2 Hv. unfold step, handle_line.
  rewrite H1, H2, Hv. reflexivity.
Qed.

Lemma no_newline_bytes bs :
  no_newline bs = true -> Forall (fun b => (b2z b =? 10)%Z = false) bs.
Proof.
  unfold no_newline. intros H. apply List.Forall_forall. intros b Hin.
  apply negb_true_iff. revert b Hin. by apply forallb_forall.
Qed.

Lemma ReadString_line (line rest : list byte) :
  no_newline line = true ->
  ReadString (line ++ ch_nl :: rest) = Some (line ++ [ch_nl], rest).
Proof.
  intros H. apply no_newline_bytes in H.
  induction H as [|b line Hb _ IH]; [reflexivity|].
  cbn [app ReadString]. rewrite Hb, IH. reflexivity.
Qed.

Lemma ReadString_tail (tail : list byte) :
  no_newline tail = true -> ReadString tail = None.
Proof.
  intros H. apply no_newline_bytes in H.
  induction H as [|b line Hb _ IH]; [reflexivity|].
  cbn [ReadString]. rewrite Hb, IH. reflexivity.
Qed.

Lemma ReadString_shorter (input line rest : list byte) :
  ReadString input = Some (line, rest) -> length rest < length input.
Proof.
  revert line. induction input as [|b input IH]; intros line; [discriminate|].
  cbn [ReadString length]. destruct (b2z b =? 10)%Z.
  - intros [= _ <-]. lia.
  - destruct (ReadString input) as [[line' rest']|]; [|discriminate].
    cbn [mbind option_bind]. intros [= _ <-].
    specialize (IH line' eq_refl). lia.
Qed.

(** More fuel than the input is long changes nothing. *)
Lemma handle_from_fuel fuel1 fuel2 (input : list byte) m :
  length input <= fuel1 -> length input <= fuel2 ->
  loop fuel1 input m = loop fuel2 input m.
Proof.
  unfold loop. revert fuel2 input m.
  induction fuel1 as [|fuel1 IH]; intros fuel2 input m H1 H2.
  - destruct input; [|simpl in H1; lia]. by destruct fuel2.
  - destruct fuel2 as [|fuel2].
    { destruct input; [reflexivity|simpl in H2; lia]. }
    cbn [handle_from].
    destruct (ReadString input) as [[line rest]|] eqn:Hread; [|reflexivity].
    pose proof (ReadString_shorter _ _ _ Hread) as Hshort.
    unfold bind.
    destruct (handle_line _ _ _ _ _ m) as [[reply|e|] m']; [|done..].
    by rewrite (IH fuel2 rest m') by lia.
Qed.

(** [handle] takes the first line off the input, handles it, and goes on
    with the rest. *)
Lemma handle_first_line (line rest : list byte) m :
  no_newline line = true ->
  serve (line ++ ch_nl :: rest) m
  = (do reply <- step (string_of (line ++ [ch_nl]));
     do out <- serve rest;
     ret (from_option Fprintln [] reply ++ out)) m.
Proof.
  intros Hline. unfold serve, handle, step.
  rewrite length_app. cbn [length]. rewrite Nat.add_succ_r.
  cbn [handle_from]. rewrite ReadString_line by done.
  unfold bind.
  destruct (handle_line _ _ _ _ _ m) as [[reply|e|] m']; [|done..].
  fold loop.
  by rewrite (handle_from_fuel (length line + length rest) (length rest)) by lia.
Qed.

Lemma handle_tail (tail : list byte) m :
  no_newline tail = true -> serve tail m = (Ok [], m).
Proof.
  intros Htail. unfold serve, handle.
  destruct (length tail); [reflexivity|].
  cbn [handle_from]. by rewrite ReadString_tail.
Qed.

End Loop.

Lemma newline_byte b : (b2z b =? 10)%Z = true -> b = ch_nl.
Proof.
  intros H. apply Z.eqb_eq in H.
  rewrite <- (byte_of_int_b2z b), H. reflexivity.
Qed.

(** Input either holds no newline or splits at its first one. *)
Lemma first_newline (a : list byte) :
  no_newline a = true
  \/ exists l a', a = l ++ ch_nl :: a' /\ no_newline l = true.
Proof.
  induction a as [|b a IH]; [by left|].
  destruct (b2z b =? 10)%Z eqn:Hb.
  - right. exists [], a. by rewrite (newline_byte b Hb).
  - destruct IH as [IH|(l & a' & -> & Hl)].
    + left. cbn [no_newline forallb]. by rewrite Hb.
    + right. exists (b :: l), a'. split; [done|].
      cbn [no_newline forallb]. by rewrite Hb.
Qed.

(** Words one space apart, as [strings.Join] writes them. *)
Lemma bytes_of_app (a b : string) :
  bytes_of (a ++ b)%string = bytes_of a ++ bytes_of b.
Proof.
  unfold bytes_of. induction a as [|c a IH]; [reflexivity|].
  simpl. by rewrite IH.
Qed.

Lemma Join_cons (w : string) (ws : list string) :
  bytes_of (Join (w :: ws) " ")
  = bytes_of w ++ tail_bytes (map (fun w' => (" ", w')) ws).
Proof.
  revert w. induction ws as [|w' ws IH]; intros w.
  - cbn [Join map tail_bytes concat]. by rewrite app_nil_r.
  - change (Join (w :: w' :: ws) " ") with (w ++ " " ++ Join (w' :: ws) " ")%string.
    rewrite !bytes_of_app, IH. unfold tail_bytes. cbn [map concat fst snd].
    by rewrite <- app_assoc.
Qed.

Lemma spaced_words (ws : list string) :
  Forall (fun w => is_word w = true) ws ->
  well_spaced (map (fun w => (" ", w)) ws)
  /\ map snd (map (fun w => (" ", w)) ws) = ws.
Proof.
  intros Hws. split.
  - unfold well_spaced. induction Hws as [|w ws Hw _ IH]; constructor; [|done].
    by split.
  - rewrite map_map. cbn [snd]. apply map_id.
Qed.

Lemma word_no_newline (w : list byte) :
  Forall (fun b => word_byte b = true) w -> no_newline w = true.
Proof.
  intros Hw. unfold no_newline. apply forallb_forall. intros b Hin.
  rewrite List.Forall_forall in Hw. specialize (Hw b Hin).
  apply word_byte_not_space in Hw. unfold ascii_space in Hw.
  apply negb_true_iff. destruct (Z.eqb_spec (b2z b) 10) as [E|]; [|done].
  rewrite E in Hw. discriminate Hw.
Qed.

Lemma no_newline_app (a b : list byte) :
  no_newline (a ++ b) = no_newline a && no_newline b.
Proof. apply forallb_app. Qed.

(** A command written as words one space apart is one line, and its
    fields are the words. *)
Lemma Join_line (w : string) (ws : list string) :
  is_word w = true -> Forall (fun w' => is_word w' = true) ws ->
  no_newline (bytes_of (Join (w :: ws) " ")) = true
  /\ Fields (TrimSpace (string_of (bytes_of (Join (w :: ws) " ") ++ [ch_nl])))
     = w :: ws.
Proof.
  intros Hw Hws. destruct (spaced_words ws Hws) as [Hsp Hsnd]. split.
  - rewrite Join_cons, no_newline_app.
    apply andb_true_iff. split; [apply word_no_newline, is_word_bytes, Hw|].
    clear Hsp Hsnd. induction Hws as [|w' ws Hw' _ IH]; [reflexivity|].
    unfold tail_bytes in *. cbn [map concat fst snd].
    rewrite !no_newline_app, IH.
    by rewrite (word_no_newline _ (proj2 (is_word_bytes w' Hw'))).
  - rewrite Join_cons.
    pose proof (command_line_fields "" w (map (fun w' => (" ", w')) ws) newline
                  eq_refl Hw Hsp eq_refl) as Hf.
    unfold command_line in Hf. cbn [bytes_of list_ascii_of_string app] in Hf.
    change (list_ascii_of_string w) with (bytes_of w) in Hf.
    rewrite <- app_assoc. unfold newline in Hf.
    cbn [bytes_of list_ascii_of_string] in Hf.
    rewrite Hf, Hsnd. reflexivity.
Qed.

Section Commands.

Variable hmac_sha512 : list byte -> list byte -> list byte.
Variable gcm_seal : list byte -> list byte -> list byte -> list byte.
Variable gcm_open : list byte -> list byte -> list byte -> option (list byte).
Variable unicode_upper : Z -> Z.

Let step := handle_line hmac_sha512 gcm_seal gcm_open unicode_upper.
Let serve := handle hmac_sha512 gcm_seal gcm_open unicode_upper.

(** A GET line with one argument is answered with the value of the key,
    or with NIL when the key is absent; with any other number of arguments
    it is answered with ERR.  Nothing changes either way. *)
Theorem GET_replies_and_changes_nothing
    (m : machine) (lead verb trail : string) (args : list (string * string)) :
  is_blank lead = true -> is_word verb = true -> well_spaced args ->
  is_blank trail = true -> ToUpper unicode_upper verb = "GET" ->
  step (command_line lead verb args trail) m
  = (Ok (Some (match args with
               | [(_, key)] =>
                 if (get (store m) key).2 then (get (store m) key).1 else "NIL"
               | _ => "ERR"
               end)), m).
Proof.
  intros Hlead Hverb Hargs Htrail Hget. unfold step.
  rewrite (handle_GET_fields _ _ _ _ _ _ verb (map snd args));
    [|by apply command_line_fields|done].
  destruct args as [|[gap key] [|a args]]; [reflexivity| |reflexivity].
  cbn [map length nth snd]. change (1 =? 1) with true. cbv iota.
  unfold get. by destruct (data (store m) !! key).
Qed.

(** A DEL line with one argument removes the key and is answered with OK,
    or with NIL when the key was absent; with any other number of
    arguments it is answered with ERR and nothing changes.  After it the
    key is absent. *)
Theorem DEL_removes_the_key
    (m : machine) (lead verb trail : string) (args : list (string * string)) :
  is_blank lead = true -> is_word verb = true -> well_spaced args ->
  is_blank trail = true -> ToUpper unicode_upper verb = "DEL" ->
  step (command_line lead verb args trail) m
  = match args with
    | [(_, key)] =>
      (Ok (Some (if (get (store m) key).2 then "OK" else "NIL")),
       with_store (fun k => (del k key).2) m)
    | _ => (Ok (Some "ERR"), m)
    end
  /\ (forall gap key, args = [(gap, key)] ->
      get (store (step (command_line lead verb args trail) m).2) key = ("", false)).
Proof.
  intros Hlead Hverb Hargs Htrail Hdel. unfold step.
  rewrite (handle_DEL_fields _ _ _ _ _ _ verb (map snd args));
    [|by apply command_line_fields|done].
  destruct args as [|[gap key] [|a args]].
  - split; [reflexivity|]. intros gap key [=].
  - cbn [map length nth snd]. change (1 =? 1) with true. cbv iota.
    split.
    + unfold get, del. by destruct (data (store m) !! key).
    + intros gap' key' [= _ <-]. msimpl. apply get_del_eq.
  - split; [reflexivity|]. intros gap' key' [=].
Qed.


(** A blank line gets no reply; a line whose verb is none of the five, or
    that has the wrong number of arguments for GET, DEL, SAVE or LOAD, is
    answered with ERR.  None of them changes anything. *)
Theorem malformed_lines_change_nothing (m : machine) :
  (forall blank, is_blank blank = true -> step blank m = (Ok None, m))
  /\ (forall line verb rest,
        Fields (TrimSpace line) = verb :: rest ->
        ((ToUpper unicode_upper verb = "GET" \/ ToUpper unicode_upper verb = "DEL")
         /\ length rest <> 1)
        \/ ((ToUpper unicode_upper verb = "SAVE"
             \/ ToUpper unicode_upper verb = "LOAD")
            /\ length rest <> 2)
        \/ (ToUpper unicode_upper verb <> "SET"
            /\ ToUpper unicode_upper verb <> "GET"
            /\ ToUpper unicode_upper verb <> "DEL"
            /\ ToUpper unicode_upper verb <> "SAVE"
            /\ ToUpper unicode_upper verb <> "LOAD") ->
        step line m = (Ok (Some "ERR"), m)).
Proof.
  split.
  - intros blank Hblank. unfold step, handle_line.
    by rewrite (Fields_blank blank Hblank).
  - intros line verb rest Hcmd Hbad.
    exact (handle_malformed hmac_sha512 gcm_seal gcm_open unicode_upper
             line m verb rest Hcmd Hbad).
Qed.

(** The verb is read without regard to the case of its ASCII letters: a
    line and the same line with the verb in upper case are handled alike. *)
Theorem verb_case_is_ignored
    (m : machine) (lead verb trail : string) (args : list (string * string)) :
  is_blank lead = true -> is_word verb = true -> well_spaced args ->
  is_blank trail = true ->
  step (command_line lead verb args trail) m
  = step (command_line lead (ascii_upper verb) args trail) m.
Proof.
  intros Hlead Hverb Hargs Htrail.
  destruct (ToUpper_word unicode_upper verb Hverb) as [Hup Hidem].
  refine (handle_line_verb hmac_sha512 gcm_seal gcm_open unicode_upper
            (command_line lead verb args trail)
            (command_line lead (ascii_upper verb) args trail)
            verb (ascii_upper verb) (map snd args) m _ _ _).
  - by apply command_line_fields.
  - apply command_line_fields; try done. by apply ascii_upper_word.
  - by rewrite Hup, Hidem.
Qed.

Lemma handle_nil m : serve [] m = (Ok [], m).
Proof. reflexivity. Qed.

(** One line, then more input. *)
Lemma handle_one_line (l rest : list byte) m :
  no_newline l = true ->
  serve (l ++ ch_nl :: rest) m
  = match step (string_of (l ++ [ch_nl])) m with
    | (Ok reply, m1) =>
      match serve rest m1 with
      | (Ok out, m2) => (Ok (from_option Fprintln [] reply ++ out), m2)
      | (Err e, m2) => (Err e, m2)
      | (Panic, m2) => (Panic, m2)
      end
    | (Err e, m1) => (Err e, m1)
    | (Panic, m1) => (Panic, m1)
    end.
Proof.
  intros Hl. unfold serve. rewrite (handle_first_line _ _ _ _ l rest m Hl).
  unfold bind, ret, step.
  destruct (handle_line _ _ _ _ _ m) as [[reply|e|] m1]; [|done..].
  by destruct (handle _ _ _ _ rest m1) as [[out|e|] m2].
Qed.

Lemma handle_batches n (a b : list byte) m :
  length a <= n ->
  serve ((a ++ [ch_nl]) ++ b) m
  = (do out1 <- serve (a ++ [ch_nl]);
     do out2 <- serve b;
     ret (out1 ++ out2)) m.
Proof.
  assert (forall (a : list byte) m,
             no_newline a = true ->
             serve ((a ++ [ch_nl]) ++ b) m
             = (do out1 <- serve (a ++ [ch_nl]);
                do out2 <- serve b;
                ret (out1 ++ out2)) m) as Hone.
  { intros a0 m0 Hline. rewrite <- app_assoc. cbn [app]. unfold bind, ret.
    rewrite (handle_one_line a0 b m0 Hline), (handle_one_line a0 [] m0 Hline).
    destruct (step _ m0) as [[reply|e|] m1]; [|done..].
    rewrite handle_nil.
    destruct (serve b m1) as [[out2|e|] m2]; [|done..].
    by rewrite app_nil_r. }
  revert a m. induction n as [|n IH]; intros a m Hn;
    (destruct (first_newline a) as [Hline|(l & a' & -> & Hl)];
     [by apply Hone|]); rewrite length_app in Hn; cbn [length] in Hn; [lia|].
  assert (length a' <= n) as Ha' by lia.
  replace (((l ++ ch_nl :: a') ++ [ch_nl]) ++ b)
    with (l ++ ch_nl :: ((a' ++ [ch_nl]) ++ b))
    by (by rewrite <- !app_assoc).
  replace ((l ++ ch_nl :: a') ++ [ch_nl])
    with (l ++ ch_nl :: (a' ++ [ch_nl]))
    by (by rewrite <- !app_assoc).
  unfold bind at 1. unfold ret.
  rewrite !(handle_one_line l _ m Hl).
  destruct (step _ m) as [[reply|e|] m1]; [|done..].
  rewrite (IH a' m1 Ha'). unfold bind, ret.
  destruct (serve (a' ++ [ch_nl]) m1) as [[out1|e|] m2]; [|done..].
  destruct (serve b m2) as [[out2|e|] m3]; [|done..].
  by rewrite app_assoc.
Qed.

(** [handle] takes its input one batch after the other: input that ends
    in a newline, followed by more input, is handled as the first part and
    then the second, from the state the first part left and with the
    output of the second after that of the first; and when what follows
    holds no newline it is never handled. *)
Theorem handle_is_sequential (a b : list byte) (m : machine) :
  serve ((a ++ [ch_nl]) ++ b) m
  = (do out1 <- serve (a ++ [ch_nl]);
     do out2 <- serve b;
     ret (out1 ++ out2)) m
  /\ (no_newline b = true ->
      serve ((a ++ [ch_nl]) ++ b) m = serve (a ++ [ch_nl]) m).
Proof.
  pose proof (handle_batches (length a) a b m ltac:(done)) as Hseq.
  split; [exact Hseq|]. intros Hb. rewrite Hseq. unfold bind, ret.
  destruct (serve (a ++ [ch_nl]) m) as [[out1|e|] m1]; [|done..].
  unfold serve. rewrite (handle_tail _ _ _ _ b m1 Hb). by rewrite app_nil_r.
Qed.

(** What is set is what is got: a SET line followed by a GET line for the
    same key is answered with OK and with the words of the value one space
    apart, and leaves the key set to that value. *)
Theorem SET_then_GET_session (m : machine) (key : string) (words : list string) :
  is_word key = true -> Forall (fun w => is_word w = true) words -> words <> [] ->
  serve (bytes_of (Join ("SET" :: key :: words) " ") ++ [ch_nl]
         ++ bytes_of (Join ["GET"; key] " ") ++ [ch_nl]) m
  = (Ok (Fprintln "OK" ++ Fprintln (Join words " ")),
     with_store (fun k => set k key (Join words " ")) m).
Proof.
  intros Hkey Hwords Hne.
  destruct (Join_line "SET" (key :: words) eq_refl) as [Hnl1 Hf1];
    [by constructor|].
  destruct (Join_line "GET" [key] eq_refl) as [Hnl2 Hf2];
    [by repeat constructor|].
  cbn [app]. unfold serve. rewrite handle_first_line by exact Hnl1.
  unfold bind at 1.
  rewrite (handle_SET_fields _ _ _ _ _ _ "SET" (key :: words) Hf1 eq_refl).
  destruct words as [|w words]; [done|].
  change (length (key :: w :: words) <? 2) with false. cbv iota.
  cbn [nth drop]. unfold bind at 1.
  rewrite (handle_first_line _ _ _ _ _ [] _ Hnl2).
  unfold bind at 1.
  rewrite (handle_GET_fields _ _ _ _ _ _ "GET" [key] Hf2 eq_refl).
  change (length [key] =? 1) with true. cbv iota. cbn [nth].
  msimpl. rewrite data_set, lookup_insert_eq, string_of_bytes_of.
  unfold bind, handle. cbn [length handle_from from_option]. unfold ret.
  by rewrite app_nil_r.
Qed.

Section Total.

Hypothesis hmac_size : forall key data, length (hmac_sha512 key data) = 64.



End Total.

End Commands.


Lemma GET_replies_and_changes_nothing_witness :
  handle_line Tiny.hmac Tiny.seal Tiny.open Tiny.upper
    (command_line " " "get" [("  ", "k")] newline)
    (process (set newKV "k" "v") ∅)
  = (Ok (Some "v"), process (set newKV "k" "v") ∅).
Proof.
  exact (GET_replies_and_changes_nothing Tiny.hmac Tiny.seal Tiny.open Tiny.upper
           (process (set newKV "k" "v") ∅) " " "get" newline [("  ", "k")]
           eq_refl eq_refl ltac:(repeat constructor) eq_refl eq_refl).
Defined.

Lemma DEL_removes_the_key_witness :
  handle_line Tiny.hmac Tiny.seal Tiny.open Tiny.upper
    (command_line "" "DEL" [(" ", "k")] newline)
    (process (set newKV "k" "v") ∅)
  = (Ok (Some "OK"),
     with_store (fun k => (del k "k").2) (process (set newKV "k" "v") ∅))
  /\ get (store (handle_line Tiny.hmac Tiny.seal Tiny.open Tiny.upper
                   (command_line "" "DEL" [(" ", "k")] newline)
                   (process (set newKV "k" "v") ∅)).2) "k" = ("", false).
Proof.
  destruct (DEL_removes_the_key Tiny.hmac Tiny.seal Tiny.open Tiny.upper
              (process (set newKV "k" "v") ∅) "" "DEL" newline [(" ", "k")]
              eq_refl eq_refl ltac:(repeat constructor) eq_refl eq_refl)
    as [Hreply Habsent].
  split; [exact Hreply | exact (Habsent " " "k" eq_refl)].
Defined.

Lemma verb_case_is_ignored_witness :
  handle_line Tiny.hmac Tiny.seal Tiny.open Tiny.upper
    (command_line "" "set" [(" ", "k"); (" ", "v")] newline) (process newKV ∅)
  = handle_line Tiny.hmac Tiny.seal Tiny.open Tiny.upper
      (command_line "" "SET" [(" ", "k"); (" ", "v")] newline) (process newKV ∅).
Proof.
  exact (verb_case_is_ignored Tiny.hmac Tiny.seal Tiny.open Tiny.upper
           (process newKV ∅) "" "set" newline [(" ", "k"); (" ", "v")]
           eq_refl eq_refl ltac:(repeat constructor) eq_refl).
Defined.

Lemma SET_then_GET_session_witness :
  handle Tiny.hmac Tiny.seal Tiny.open Tiny.upper
    (bytes_of "SET k a b" ++ [ch_nl] ++ bytes_of "GET k" ++ [ch_nl])
    (process newKV ∅)
  = (Ok (Fprintln "OK" ++ Fprintln "a b"),
     with_store (fun k => set k "k" "a b") (process newKV ∅)).
Proof.
  exact (SET_then_GET_session Tiny.hmac Tiny.seal Tiny.open Tiny.upper
           (process newKV ∅) "k" ["a"; "b"] eq_refl
           ltac:(repeat constructor) ltac:(discriminate)).
Defined.


(** ** Persistence through the protocol *)

Section Persistence.

Variable hmac_sha512 : list byte -> list byte -> list byte.
Variable gcm_seal : list byte -> list byte -> list byte -> list byte.
Variable gcm_open : list byte -> list byte -> list byte -> option (list byte).
Variable unicode_upper : Z -> Z.

Let step := handle_line hmac_sha512 gcm_seal gcm_open unicode_upper.

(** A SAVE and a LOAD line in terms of their fields. *)
Lemma handle_SAVE_fields line m verb rest :
  Fields (TrimSpace line) = verb :: rest ->
  ToUpper unicode_upper verb = "SAVE" ->
  step line m
  = if length rest =? 2
    then match saveToFile hmac_sha512 gcm_seal (nth 0 rest "") (nth 1 rest "") m with
         | (Ok _, m') => (Ok (Some "OK"), m')
         | (Err _, m') => (Ok (Some "ERR"), m')
         | (Panic, m') => (Panic, m')
         end
    else (Ok (Some "ERR"), m).
Proof.
  intros Hcmd Hverb. unfold step, handle_line. rewrite Hcmd, Hverb.
  change (String.eqb "SAVE" "SET") with false.
  change (String.eqb "SAVE" "GET") with false.
  change (String.eqb "SAVE" "DEL") with false.
  change (String.eqb "SAVE" "SAVE") with true. cbv iota.
  change (length (verb :: rest) =? 3) with (length rest =? 2).
  by destruct (length rest =? 2).
Qed.

Lemma handle_LOAD_fields line m verb rest :
  Fields (TrimSpace line) = verb :: rest ->
  ToUpper unicode_upper verb = "LOAD" ->
  step line m
  = if length rest =? 2
    then match loadFromFile hmac_sha512 gcm_open (nth 0 rest "") (nth 1 rest "") m with
         | (Ok _, m') => (Ok (Some "OK"), m')
         | (Err _, m') => (Ok (Some "ERR"), m')
         | (Panic, m') => (Panic, m')
         end
    else (Ok (Some "ERR"), m).
Proof.
  intros Hcmd Hverb. unfold step, handle_line. rewrite Hcmd, Hverb.
  change (String.eqb "LOAD" "SET") with false.
  change (String.eqb "LOAD" "GET") with false.
  change (String.eqb "LOAD" "DEL") with false.
  change (String.eqb "LOAD" "SAVE") with false.
  change (String.eqb "LOAD" "LOAD") with true. cbv iota.
  change (length (verb :: rest) =? 3) with (length rest =? 2).
  by destruct (length rest =? 2).
Qed.

End Persistence.

(** What SAVE answered OK to, LOAD brings back: when a store of
    well-formed UTF-8 is saved by a SAVE line that is answered with OK, a
    LOAD line with the same file and password is answered with OK, whatever
    the store holds by then, and leaves the store that was saved. *)
Theorem SAVE_then_LOAD_restores_the_store
    (hmac_sha512 : list byte -> list byte -> list byte)
    (gcm_seal : list byte -> list byte -> list byte -> list byte)
    (gcm_open : list byte -> list byte -> list byte -> option (list byte))
    (unicode_upper : Z -> Z)
    (hmac_size : forall key data, length (hmac_sha512 key data) = 64)
    (gcm_open_seal : forall key nonce plaintext,
        length key = 32 -> length nonce = 12 ->
        gcm_open key nonce (gcm_seal key nonce plaintext) = Some plaintext)
    (m m1 : machine) (k2 : kv) (file pass : string) :
  is_word file = true -> is_word pass = true ->
  valid_map (snapshot (store m)) = true ->
  handle_line hmac_sha512 gcm_seal gcm_open unicode_upper
    (command_line "" "SAVE" [(" ", file); (" ", pass)] newline) m
  = (Ok (Some "OK"), m1) ->
  exists m2,
    handle_line hmac_sha512 gcm_seal gcm_open unicode_upper
      (command_line "" "LOAD" [(" ", file); (" ", pass)] newline)
      (with_store (fun _ => k2) m1)
    = (Ok (Some "OK"), m2)
    /\ store m2 = store m.
Proof.
  intros Hfile Hpass Hvalid Hsave.
  assert (well_spaced [(" ", file); (" ", pass)]) as Hargs.
  { by repeat constructor. }
  rewrite (handle_SAVE_fields _ _ _ _ _ _ "SAVE" [file; pass]
             (command_line_fields "" "SAVE" _ newline eq_refl eq_refl Hargs eq_refl)
             eq_refl) in Hsave.
  change (length [file; pass] =? 2) with true in Hsave. cbn [nth] in Hsave.
  destruct (saveToFile hmac_sha512 gcm_seal file pass m) as [[[]|e|] m1'] eqn:Hrun;
    [|discriminate Hsave..].
  injection Hsave as ->.
  destruct (save_then_load_faithful hmac_sha512 gcm_seal gcm_open hmac_size
              gcm_open_seal file pass m m1 k2 Hrun (json_round_trip _ Hvalid))
    as (m2 & Hload & Hstore).
  exists m2. split; [|exact Hstore].
  rewrite (handle_LOAD_fields _ _ _ _ _ _ "LOAD" [file; pass]
             (command_line_fields "" "LOAD" _ newline eq_refl eq_refl Hargs eq_refl)
             eq_refl).
  change (length [file; pass] =? 2) with true. cbn [nth]. by rewrite Hload.
Qed.

Lemma SAVE_then_LOAD_restores_the_store_witness :
  exists m1 m2,
    handle_line Tiny.hmac Tiny.seal Tiny.open Tiny.upper
      (command_line "" "SAVE" [(" ", "db.bin"); (" ", "secret")] newline)
      (process (set newKV "note" sample_text) ∅)
    = (Ok (Some "OK"), m1)
    /\ handle_line Tiny.hmac Tiny.seal Tiny.open Tiny.upper
         (command_line "" "LOAD" [(" ", "db.bin"); (" ", "secret")] newline)
         (with_store (fun _ => newKV) m1)
       = (Ok (Some "OK"), m2)
    /\ store m2 = set newKV "note" sample_text.
Proof.
  destruct (Tiny_save_ok (set newKV "note" sample_text) ∅ "db.bin" "secret")
    as [m1 Hsave]; [reflexivity | vm_compute; lia |].
  assert (handle_line Tiny.hmac Tiny.seal Tiny.open Tiny.upper
            (command_line "" "SAVE" [(" ", "db.bin"); (" ", "secret")] newline)
            (process (set newKV "note" sample_text) ∅)
          = (Ok (Some "OK"), m1)) as Hline.
  { rewrite (handle_SAVE_fields Tiny.hmac Tiny.seal Tiny.open Tiny.upper
               (command_line "" "SAVE" [(" ", "db.bin"); (" ", "secret")] newline)
               (process (set newKV "note" sample_text) ∅)
               "SAVE" ["db.bin"; "secret"]
               (command_line_fields "" "SAVE" [(" ", "db.bin"); (" ", "secret")]
                  newline eq_refl eq_refl ltac:(repeat constructor) eq_refl)
               eq_refl).
    change (length ["db.bin"; "secret"] =? 2) with true. cbv iota.
    change (nth 0 ["db.bin"; "secret"] "") with "db.bin".
    change (nth 1 ["db.bin"; "secret"] "") with "secret".
    rewrite Hsave. reflexivity. }
  destruct (SAVE_then_LOAD_restores_the_store Tiny.hmac Tiny.seal Tiny.open
              Tiny.upper Tiny_hmac_size Tiny_open_seal
              (process (set newKV "note" sample_text) ∅) m1 newKV
              "db.bin" "secret" eq_refl eq_refl
              ltac:(vm_compute; reflexivity) Hline) as (m2 & Hload & Hstore).
  exists m1, m2. split; [exact Hline|]. split; [exact Hload | exact Hstore].
Defined.
